(** * Lakebase service: credential-and-pool lifecycle and query execution

    A shallow embedding of [server/services/lakebase_service.py]
    (class [LakebaseService]) together with the exception classes of
    [server/exceptions.py] that the service raises.

    The service talks to three collaborators that are not part of the
    repository: the Databricks SDK (endpoint lookup and credential
    issuance), the psycopg2 connection pool, and the database cursor.
    Their answers are supplied by a [world]: one oracle per kind of call,
    indexed by the number of external events that happened before it, so
    that every sequence of successes and failures is some world.  The
    bookkeeping of the pool library (which connections are checked out,
    whether a pool is closed) is kept in the state. *)

From Stdlib Require Import Ascii String.
From stdpp Require Import base option list gmap strings numbers.

Set Default Proof Using "Type".
Local Open Scope string_scope.
Local Open Scope list_scope.
Local Open Scope nat_scope.
Local Open Scope stdpp_scope.

(* ------------------------------------------------------------------ *)
(** ** Exceptions *)

(** The classes of psycopg2's exception hierarchy.  Every one of them is a
    subclass of [psycopg2.Error]; a subclass of [OperationalError] (a
    cancelled query, a dropped session) is an [OperationalError] here. *)
Inductive pg_class :=
| PgError | InterfaceError | DatabaseError | DataError | OperationalError
| IntegrityError | InternalError | ProgrammingError | NotSupportedError
| PoolError.

Inductive exn :=
| Psycopg2 (c : pg_class) (args : string)
| DatabaseConnectionError (detail : option string)
| DatabaseQueryError (detail : option string)
| RuntimeError (args : string)
| GeneratorExit
| OtherException (cls : string) (args : string).

(** [isinstance(e, psycopg2.OperationalError)] and its siblings. *)
Definition is_OperationalError (e : exn) : bool :=
  match e with Psycopg2 OperationalError _ => true | _ => false end.

Definition is_ProgrammingError (e : exn) : bool :=
  match e with Psycopg2 ProgrammingError _ => true | _ => false end.

Definition is_psycopg2_Error (e : exn) : bool :=
  match e with Psycopg2 _ _ => true | _ => false end.

Definition is_DatabaseConnectionError (e : exn) : bool :=
  match e with DatabaseConnectionError _ => true | _ => false end.

(** [isinstance(e, Exception)]: everything but [GeneratorExit]. *)
Definition is_Exception (e : exn) : bool :=
  match e with GeneratorExit => false | _ => true end.

(** [str(e)].  [AppException.__init__] passes its fixed message to
    [Exception.__init__]. *)
Definition str (e : exn) : string :=
  match e with
  | Psycopg2 _ a => a
  | DatabaseConnectionError _ => "Database connection failed"
  | DatabaseQueryError _ => "Database query failed"
  | RuntimeError a => a
  | GeneratorExit => EmptyString
  | OtherException _ a => a
  end.

(* ------------------------------------------------------------------ *)
(** ** Configuration and data *)

Record Settings := {
  lakebase_instance_name : string;
  lakebase_schema : string;
  pool_min_connections : nat;
  pool_max_connections : nat;
  token_refresh_interval : Z
}.

(** The defaults of [server/config.py]. *)
Definition default_settings : Settings := {|
  lakebase_instance_name := "marketplace-intel-db";
  lakebase_schema := "gold";
  pool_min_connections := 2;
  pool_max_connections := 10;
  token_refresh_interval := 900
|}.

Record PoolConfig := {
  host : string;
  port : Z;
  dbname : string;
  user : string;
  sslmode : string
}.

(** Values the driver hands back in a row, or accepts as a parameter. *)
Inductive pyval :=
| PNone
| PBool (b : bool)
| PInt (z : Z)
| PStr (s : string).

(** A Python [dict] with string keys: insertion-ordered, one entry per key. *)
Definition pydict := list (string * pyval).

Fixpoint dict_setitem (d : pydict) (k : string) (v : pyval) : pydict :=
  match d with
  | [] => [(k, v)]
  | (k', v') :: d' =>
      if bool_decide (k' = k) then (k', v) :: d'
      else (k', v') :: dict_setitem d' k v
  end.

(** [dict(pairs)] *)
Definition dict_of_pairs (pairs : list (string * pyval)) : pydict :=
  fold_left (fun d kv => dict_setitem d kv.1 kv.2) pairs [].

Fixpoint dict_get (d : pydict) (k : string) : option pyval :=
  match d with
  | [] => None
  | (k', v) :: d' => if bool_decide (k' = k) then Some v else dict_get d' k
  end.

(** What [cursor.execute] leaves in the cursor: [description] ([None] for a
    statement without a result set; otherwise one (name, type code) entry
    per column) and what [fetchall()] will answer. *)
Record cursor_state := {
  description : option (list (string * nat));
  fetchall_result : exn + list (list pyval)
}.

(** A [ThreadedConnectionPool] object. *)
Record pool_obj := {
  minconn : nat;
  maxconn : nat;
  kwargs : PoolConfig;
  password : string;
  used : gset nat;
  closed : bool
}.

(* ------------------------------------------------------------------ *)
(** ** The world and the state *)

Inductive event :=
| Ev_time
| Ev_get_database_instance
| Ev_current_user_me
| Ev_generate_database_credential
| Ev_ThreadedConnectionPool (p : option nat)
| Ev_closeall (p : nat)
| Ev_getconn (p : nat) (c : option nat)
| Ev_putconn (p : nat) (c : nat)
| Ev_cursor (c : nat)
| Ev_execute (c : nat) (sql : string) (params : option (list pyval))
| Ev_fetchall (c : nat)
| Ev_yield (c : nat)
| Ev_enter_get_connection_pool
| Ev_enter_reset_pool.

(** The collaborators.  The argument [nat] is the number of events before
    the call.  A failing [WorkspaceClient()] is the failure of the SDK call
    that follows it. *)
Record world := {
  settings : Settings;
  time_time : nat → Z;
  get_database_instance : nat → exn + string;
  current_user_me : nat → exn + string;
  generate_database_credential : nat → exn + string;
  pool_init : nat → option exn;
  pool_connect : nat → option exn;
  conn_cursor : nat → option exn;
  cursor_execute : nat → string → option (list pyval) → exn + cursor_state
}.

(** The three module-level globals of the service, the objects of the pool
    library, the heap of row dictionaries, and the log of events. *)
Record state := {
  _token_cache : option string * Z;
  _connection_pool : option nat;
  _pool_config : option PoolConfig;
  pools : gmap nat pool_obj;
  heap : list pydict;
  tick : nat;
  trace : list event
}.

(** The module as first imported. *)
Definition initial_state : state := {|
  _token_cache := (None, 0%Z);
  _connection_pool := None;
  _pool_config := None;
  pools := ∅;
  heap := [];
  tick := 0;
  trace := []
|}.

Definition set_token_cache (v : option string * Z) (s : state) : state :=
  {| _token_cache := v; _connection_pool := _connection_pool s;
     _pool_config := _pool_config s; pools := pools s; heap := heap s;
     tick := tick s; trace := trace s |}.

Definition set_connection_pool (v : option nat) (s : state) : state :=
  {| _token_cache := _token_cache s; _connection_pool := v;
     _pool_config := _pool_config s; pools := pools s; heap := heap s;
     tick := tick s; trace := trace s |}.

Definition set_pool_config (v : option PoolConfig) (s : state) : state :=
  {| _token_cache := _token_cache s; _connection_pool := _connection_pool s;
     _pool_config := v; pools := pools s; heap := heap s;
     tick := tick s; trace := trace s |}.

Definition set_pools (v : gmap nat pool_obj) (s : state) : state :=
  {| _token_cache := _token_cache s; _connection_pool := _connection_pool s;
     _pool_config := _pool_config s; pools := v; heap := heap s;
     tick := tick s; trace := trace s |}.

Definition set_heap (v : list pydict) (s : state) : state :=
  {| _token_cache := _token_cache s; _connection_pool := _connection_pool s;
     _pool_config := _pool_config s; pools := pools s; heap := v;
     tick := tick s; trace := trace s |}.

(** Record one event. *)
Definition log (ev : event) (s : state) : state :=
  {| _token_cache := _token_cache s; _connection_pool := _connection_pool s;
     _pool_config := _pool_config s; pools := pools s; heap := heap s;
     tick := S (tick s); trace := trace s ++ [ev] |}.

(* ------------------------------------------------------------------ *)
(** ** Computations: state, exceptions, and the world as a reader *)

Inductive result (A : Type) :=
| Ok (a : A)
| Raise (e : exn).
Arguments Ok {A} a.
Arguments Raise {A} e.

Definition M (A : Type) : Type := world → state → result A * state.

Definition ret {A} (a : A) : M A := fun _ s => (Ok a, s).

Definition raise {A} (e : exn) : M A := fun _ s => (Raise e, s).

Definition bind {A B} (m : M A) (k : A → M B) : M B :=
  fun w s =>
    match m w s with
    | (Ok a, s1) => k a w s1
    | (Raise e, s1) => (Raise e, s1)
    end.

Notation "x <-- m ;; k" := (bind m (fun x => k))
  (at level 100, m at next level, k at level 200, right associativity).
Notation "m >>; k" := (bind m (fun _ => k))
  (at level 100, k at level 200, right associativity).

Definition get_state : M state := fun _ s => (Ok s, s).
Definition ask : M world := fun w s => (Ok w, s).
Definition modify (f : state → state) : M unit := fun _ s => (Ok tt, f s).

(** A marker for entering one of the service's own methods. *)
Definition enter (ev : event) : M unit := modify (log ev).

(** A call to a collaborator whose answer the world decides. *)
Definition external {A} (ev : event) (oracle : world → nat → exn + A) : M A :=
  fun w s =>
    match oracle w (tick s) with
    | inl e => (Raise e, log ev s)
    | inr a => (Ok a, log ev s)
    end.

(** [try: m  except <classes>: h]: [h e] is [None] when no clause matches. *)
Definition try_except {A} (m : M A) (h : exn → option (M A)) : M A :=
  fun w s =>
    match m w s with
    | (Ok a, s1) => (Ok a, s1)
    | (Raise e, s1) =>
        match h e with
        | Some k => k w s1
        | None => (Raise e, s1)
        end
    end.

(* ------------------------------------------------------------------ *)
(** ** The collaborators as computations *)

Definition py_time_time : M Z :=
  fun w s => (Ok (time_time w (tick s)), log Ev_time s).

Definition sdk_get_database_instance : M string :=
  external Ev_get_database_instance get_database_instance.

Definition sdk_current_user_me : M string :=
  external Ev_current_user_me current_user_me.

Definition sdk_generate_database_credential : M string :=
  external Ev_generate_database_credential generate_database_credential.

(** The pool library, after [psycopg2.pool.AbstractConnectionPool].  The
    constructor opens [minconn] connections and fails when the world says
    that connecting fails. *)
Definition ThreadedConnectionPool (minc maxc : nat) (cfg : PoolConfig)
    (pw : string) : M nat :=
  fun w s =>
    match pool_init w (tick s) with
    | Some e => (Raise e, log (Ev_ThreadedConnectionPool None) s)
    | None =>
        let p := fresh (dom (pools s)) in
        let o := {| minconn := minc; maxconn := maxc; kwargs := cfg;
                    password := pw; used := ∅; closed := false |} in
        (Ok p, log (Ev_ThreadedConnectionPool (Some p))
                   (set_pools (<[p := o]> (pools s)) s))
    end.

Definition pool_is_closed (s : state) (p : nat) : bool :=
  match pools s !! p with
  | Some o => closed o
  | None => true
  end.

(** The connections of pool [p] that are checked out. *)
Definition leases (s : state) (p : nat) : gset nat :=
  match pools s !! p with
  | Some o => used o
  | None => ∅
  end.

Definition set_used (u : gset nat) (o : pool_obj) : pool_obj :=
  {| minconn := minconn o; maxconn := maxconn o; kwargs := kwargs o;
     password := password o; used := u; closed := closed o |}.

Definition set_closed (o : pool_obj) : pool_obj :=
  {| minconn := minconn o; maxconn := maxconn o; kwargs := kwargs o;
     password := password o; used := used o; closed := true |}.

(** [getconn] on an open pool with room hands out a connection that is
    not checked out, unless the world says that connecting fails. *)
Definition getconn (p : nat) : M nat :=
  fun w s =>
    match pools s !! p with
    | None =>
        (Raise (Psycopg2 PoolError "connection pool is closed"),
         log (Ev_getconn p None) s)
    | Some o =>
        if closed o then
          (Raise (Psycopg2 PoolError "connection pool is closed"),
           log (Ev_getconn p None) s)
        else if bool_decide (size (used o) = maxconn o) then
          (Raise (Psycopg2 PoolError "connection pool exhausted"),
           log (Ev_getconn p None) s)
        else
          match pool_connect w (tick s) with
          | Some e => (Raise e, log (Ev_getconn p None) s)
          | None =>
              let c := fresh (used o) in
              (Ok c, log (Ev_getconn p (Some c))
                         (set_pools (<[p := set_used ({[c]} ∪ used o) o]> (pools s)) s))
          end
    end.

(** Returning a connection that is checked out from an open pool takes it
    out of the pool's [used] table; anything else is a [PoolError]. *)
Definition putconn (p c : nat) : M unit :=
  fun w s =>
    match pools s !! p with
    | None =>
        (Raise (Psycopg2 PoolError "connection pool is closed"),
         log (Ev_putconn p c) s)
    | Some o =>
        if closed o then
          (Raise (Psycopg2 PoolError "connection pool is closed"),
           log (Ev_putconn p c) s)
        else if bool_decide (c ∈ used o) then
          (Ok tt, log (Ev_putconn p c)
                      (set_pools (<[p := set_used (used o ∖ {[c]}) o]> (pools s)) s))
        else
          (Raise (Psycopg2 PoolError "trying to put unkeyed connection"),
           log (Ev_putconn p c) s)
    end.

Definition closeall (p : nat) : M unit :=
  fun w s =>
    match pools s !! p with
    | None =>
        (Raise (Psycopg2 PoolError "connection pool is closed"),
         log (Ev_closeall p) s)
    | Some o =>
        if closed o then
          (Raise (Psycopg2 PoolError "connection pool is closed"),
           log (Ev_closeall p) s)
        else
          (Ok tt, log (Ev_closeall p)
                      (set_pools (<[p := set_closed o]> (pools s)) s))
    end.

(** [conn.cursor()] *)
Definition py_cursor (c : nat) : M unit :=
  fun w s =>
    match conn_cursor w (tick s) with
    | Some e => (Raise e, log (Ev_cursor c) s)
    | None => (Ok tt, log (Ev_cursor c) s)
    end.

(** [cur.execute(sql, params)]: the text and the parameters reach the
    driver as two separate arguments. *)
Definition py_execute (c : nat) (sql : string) (params : option (list pyval))
    : M cursor_state :=
  fun w s =>
    match cursor_execute w (tick s) sql params with
    | inl e => (Raise e, log (Ev_execute c sql params) s)
    | inr cur => (Ok cur, log (Ev_execute c sql params) s)
    end.

(** [cur.fetchall()] *)
Definition py_fetchall (c : nat) (cur : cursor_state) : M (list (list pyval)) :=
  fun w s =>
    match fetchall_result cur with
    | inl e => (Raise e, log (Ev_fetchall c) s)
    | inr rows => (Ok rows, log (Ev_fetchall c) s)
    end.

(** Allocation of a fresh [dict] object; the result is its address. *)
Definition new_dict (pairs : list (string * pyval)) : M nat :=
  fun w s => (Ok (length (heap s)), set_heap (heap s ++ [dict_of_pairs pairs]) s).

Fixpoint mapM {A B} (f : A → M B) (l : list A) : M (list B) :=
  match l with
  | [] => ret []
  | a :: l' => b <-- f a ;; bs <-- mapM f l' ;; ret (b :: bs)
  end.

(* ------------------------------------------------------------------ *)
(** ** [LakebaseService]: token cache, pool handle, reset *)

(** Python truthiness of [_token_cache["token"]]. *)
Definition truthy (t : option string) : bool :=
  match t with
  | Some tok => negb (bool_decide (tok = EmptyString))
  | None => false
  end.

Definition token_or_empty (t : option string) : string :=
  match t with Some tok => tok | None => EmptyString end.

Definition _get_fresh_token : M string :=
  now <-- py_time_time ;;
  s <-- get_state ;;
  if truthy (_token_cache s).1 && bool_decide (now < (_token_cache s).2)%Z then
    ret (token_or_empty (_token_cache s).1)
  else
    cred <-- sdk_generate_database_credential ;;
    w <-- ask ;;
    modify (set_token_cache (Some cred, (now + token_refresh_interval (settings w))%Z)) >>;
    ret cred.

Definition _get_connection_pool : M nat :=
  enter Ev_enter_get_connection_pool >>;
  instance <-- sdk_get_database_instance ;;
  username <-- sdk_current_user_me ;;
  s <-- get_state ;;
  match _connection_pool s with
  | None =>
      let cfg := {| host := instance; port := 5432; dbname := "databricks_postgres";
                    user := username; sslmode := "require" |} in
      modify (set_pool_config (Some cfg)) >>;
      w <-- ask ;;
      pw <-- _get_fresh_token ;;
      p <-- ThreadedConnectionPool (pool_min_connections (settings w))
              (pool_max_connections (settings w)) cfg pw ;;
      modify (set_connection_pool (Some p)) >>;
      ret p
  | Some p => ret p
  end.

Definition _reset_pool : M unit :=
  enter Ev_enter_reset_pool >>;
  s <-- get_state ;;
  match _connection_pool s with
  | Some p =>
      try_except (closeall p)
        (fun e => if is_Exception e then Some (ret tt) else None) >>;
      modify (set_connection_pool None)
  | None => ret tt
  end >>;
  modify (set_token_cache (None, 0%Z)).

(* ------------------------------------------------------------------ *)
(** ** [get_connection]: the generator behind [@contextmanager]

    The generator has two [yield]s, at lines 104 and 114 of the service.
    It is embedded as a coroutine: [get_connection_start] runs the body up
    to the first suspension, [get_connection_resume] continues from a
    suspension with either [next()] or [throw(e)].  A suspended generator
    remembers its locals [conn_pool] and [conn]. *)

Inductive gen_state :=
| Yield_104 (conn_pool conn : nat)
| Yield_114 (conn_pool conn : nat)
| Returned.

Inductive resume :=
| Next
| Throw (e : exn).

Definition suspended (g : gen_state) : bool :=
  match g with Returned => false | _ => true end.

(** [try: body  finally: fin] inside the generator: when [body] suspends at
    a [yield], the [finally] clause stays pending. *)
Definition gen_try_finally (body : M gen_state) (fin : M unit) : M gen_state :=
  fun w s =>
    match body w s with
    | (Ok g, s1) =>
        if suspended g then (Ok g, s1)
        else match fin w s1 with
             | (Ok _, s2) => (Ok g, s2)
             | (Raise e, s2) => (Raise e, s2)
             end
    | (Raise e, s1) =>
        match fin w s1 with
        | (Ok _, s2) => (Raise e, s2)
        | (Raise e', s2) => (Raise e', s2)
        end
    end.

(** [except psycopg2.OperationalError as e: h e] *)
Definition except_OperationalError {A} (m : M A) (h : exn → M A) : M A :=
  try_except m (fun e => if is_OperationalError e then Some (h e) else None).

(** What the [yield] expression does when the generator is resumed; after
    it the enclosing [try] block is at its end. *)
Definition resumed (r : resume) : M gen_state :=
  match r with
  | Next => ret Returned
  | Throw e => raise e
  end.

(** [conn.cursor().execute("SELECT 1")] *)
Definition probe (conn : nat) : M unit :=
  py_cursor conn >>;
  _cur <-- py_execute conn "SELECT 1" None ;;
  ret tt.

(** Lines 111-116: the inner [try] block of the handler, up to its
    suspension. *)
Definition second_attempt : M gen_state :=
  conn_pool <-- _get_connection_pool ;;
  conn <-- getconn conn_pool ;;
  gen_try_finally
    (enter (Ev_yield conn) >>; ret (Yield_114 conn_pool conn))
    (putconn conn_pool conn).

(** Lines 109-118: the body of the outer [except] clause. *)
Definition retry_block : M gen_state :=
  _reset_pool >>;
  except_OperationalError second_attempt
    (fun retry_error => raise (DatabaseConnectionError (Some (str retry_error)))).

(** Lines 99-106: the outer [try] block up to the first suspension. *)
Definition first_attempt : M gen_state :=
  conn_pool <-- _get_connection_pool ;;
  conn <-- getconn conn_pool ;;
  gen_try_finally
    (probe conn >>;
     enter (Ev_yield conn) >>; ret (Yield_104 conn_pool conn))
    (putconn conn_pool conn).

Definition get_connection_start : M gen_state :=
  except_OperationalError first_attempt (fun _ => retry_block).

Definition get_connection_resume (g : gen_state) (r : resume) : M gen_state :=
  match g with
  | Yield_104 conn_pool conn =>
      except_OperationalError
        (gen_try_finally (resumed r) (putconn conn_pool conn))
        (fun _ => retry_block)
  | Yield_114 conn_pool conn =>
      except_OperationalError
        (gen_try_finally (resumed r) (putconn conn_pool conn))
        (fun retry_error => raise (DatabaseConnectionError (Some (str retry_error))))
  | Returned => resumed r
  end.

(* ------------------------------------------------------------------ *)
(** ** The [with] statement over a [@contextmanager] generator

    After [contextlib._GeneratorContextManager].  [__enter__] runs the
    generator to its first [yield].  [__exit__] resumes it: with [next()]
    when the block ended normally, with [throw(e)] when the block raised
    [e].  A generator that yields again instead of stopping makes
    [__exit__] raise [RuntimeError]; the generator is then left suspended
    at that [yield], with its [finally] clauses pending. *)

Definition cm_enter : M (gen_state * nat) :=
  g <-- get_connection_start ;;
  match g with
  | Yield_104 _ conn | Yield_114 _ conn => ret (g, conn)
  | Returned => raise (RuntimeError "generator didn't yield")
  end.

(** The result [true] means that the exception of the block is suppressed.
    When [throw(e)] re-raises [e] itself, [__exit__] returns [False] and
    the [with] statement re-raises [e]: the same outcome as raising here. *)
Definition cm_exit (g : gen_state) (exc : option exn) : M bool :=
  match exc with
  | None =>
      g' <-- get_connection_resume g Next ;;
      if suspended g' then raise (RuntimeError "generator didn't stop")
      else ret false
  | Some value =>
      g' <-- get_connection_resume g (Throw value) ;;
      if suspended g' then raise (RuntimeError "generator didn't stop after throw()")
      else ret true
  end.

(** [generator.close()], which is also what the finalisation of an
    abandoned generator object does: [GeneratorExit] is thrown at the
    pending [yield]. *)
Definition gen_close (g : gen_state) : M unit :=
  fun w s =>
    match get_connection_resume g (Throw GeneratorExit) w s with
    | (Ok g', s1) =>
        if suspended g' then
          (Raise (RuntimeError "generator ignored GeneratorExit"), s1)
        else (Ok tt, s1)
    | (Raise GeneratorExit, s1) => (Ok tt, s1)
    | (Raise e, s1) => (Raise e, s1)
    end.

(** [with self.get_connection() as conn: body conn].  The result is [None]
    when the block raised and the context manager suppressed it. *)
Definition with_get_connection {A} (body : nat → M A) : M (option A) :=
  gc <-- cm_enter ;;
  fun w s =>
    match body gc.2 w s with
    | (Ok a, s1) => (cm_exit gc.1 None >>; ret (Some a)) w s1
    | (Raise e, s1) =>
        (suppress <-- cm_exit gc.1 (Some e) ;;
         if suppress : bool then ret None else raise e) w s1
    end.

(* ------------------------------------------------------------------ *)
(** ** [sql.format(schema=...)]

    The fragment of [str.format] with one keyword argument: literal text,
    the doubled braces, and replacement fields.  The field [{schema}] is
    replaced; any other field name has no argument to refer to and raises.
    (Conversions and format specifications, as in [{schema!r}], are not
    used by any template of the service and raise here as well.) *)

Inductive fmt_mode :=
| FText
| FOpen
| FField (name : string)
| FClose.

Definition format_field (schema name : string) : exn + string :=
  if bool_decide (name = "schema") then inr schema
  else if bool_decide (name = EmptyString) then
    inl (OtherException "IndexError"
           "Replacement index 0 out of range for positional args tuple")
  else inl (OtherException "KeyError" name).

Fixpoint format_from (schema : string) (mode : fmt_mode) (t : string)
    : exn + string :=
  match t with
  | EmptyString =>
      match mode with
      | FText => inr EmptyString
      | FOpen => inl (OtherException "ValueError"
                        "Single '{' encountered in format string")
      | FField _ => inl (OtherException "ValueError"
                           "expected '}' before end of string")
      | FClose => inl (OtherException "ValueError"
                         "Single '}' encountered in format string")
      end
  | String c t' =>
      match mode with
      | FText =>
          if bool_decide (c = "{"%char) then format_from schema FOpen t'
          else if bool_decide (c = "}"%char) then format_from schema FClose t'
          else match format_from schema FText t' with
               | inr out => inr (String c out)
               | inl e => inl e
               end
      | FOpen =>
          if bool_decide (c = "{"%char) then
            match format_from schema FText t' with
            | inr out => inr (String c out)
            | inl e => inl e
            end
          else if bool_decide (c = "}"%char) then
            match format_field schema EmptyString with
            | inr v => match format_from schema FText t' with
                       | inr out => inr (String.append v out)
                       | inl e => inl e
                       end
            | inl e => inl e
            end
          else format_from schema (FField (String c EmptyString)) t'
      | FField name =>
          if bool_decide (c = "}"%char) then
            match format_field schema name with
            | inr v => match format_from schema FText t' with
                       | inr out => inr (String.append v out)
                       | inl e => inl e
                       end
            | inl e => inl e
            end
          else format_from schema (FField (String.append name (String c EmptyString))) t'
      | FClose =>
          if bool_decide (c = "}"%char) then
            match format_from schema FText t' with
            | inr out => inr (String c out)
            | inl e => inl e
            end
          else inl (OtherException "ValueError"
                      "Single '}' encountered in format string")
      end
  end.

Definition str_format (template schema : string) : exn + string :=
  format_from schema FText template.

Definition py_format (template : string) : M string :=
  fun w s =>
    match str_format template (lakebase_schema (settings w)) with
    | inl e => (Raise e, s)
    | inr out => (Ok out, s)
    end.

(* ------------------------------------------------------------------ *)
(** ** [execute_query] *)

(** [[desc[0] for desc in cur.description]] *)
Definition column_names (cur : cursor_state) : M (list string) :=
  match description cur with
  | Some d => ret (map fst d)
  | None => raise (OtherException "TypeError" "'NoneType' object is not iterable")
  end.

(** Lines 123-130: the block of the [with] statement. *)
Definition query_block (sql : string) (params : option (list pyval))
    (conn : nat) : M (list nat) :=
  py_cursor conn >>;
  formatted_sql <-- py_format sql ;;
  cur <-- py_execute conn formatted_sql params ;;
  columns <-- column_names cur ;;
  rows <-- py_fetchall conn cur ;;
  mapM (fun row => new_dict (zip columns row)) rows.

(** The [except] clauses of lines 131-136. *)
Definition query_handlers (e : exn) : option (M (option (list nat))) :=
  if is_DatabaseConnectionError e then Some (raise e)
  else if is_ProgrammingError e then
    Some (raise (DatabaseQueryError (Some (str e))))
  else if is_psycopg2_Error e then
    Some (raise (DatabaseQueryError (Some (str e))))
  else None.

(** The result is the list of the addresses of the row dictionaries. *)
Definition execute_query (sql : string) (params : option (list pyval))
    : M (option (list nat)) :=
  try_except (with_get_connection (query_block sql params)) query_handlers.

(** The rows behind a result, read from the heap. *)
Definition deref (s : state) (addrs : list nat) : list (option pydict) :=
  map (fun a => heap s !! a) addrs.

(* ------------------------------------------------------------------ *)
(** ** Reading the event log *)

Fixpoint count (f : event → bool) (evs : list event) : nat :=
  match evs with
  | [] => 0
  | ev :: evs' => (if f ev then 1 else 0) + count f evs'
  end.

(** The events logged between two states of one run. *)
Definition events_since (s s' : state) : list event :=
  drop (length (trace s)) (trace s').

Definition is_token_issuance (ev : event) : bool :=
  match ev with Ev_generate_database_credential => true | _ => false end.

Definition is_endpoint_resolution (ev : event) : bool :=
  match ev with Ev_get_database_instance => true | _ => false end.

Definition is_pool_construction (ev : event) : bool :=
  match ev with Ev_ThreadedConnectionPool _ => true | _ => false end.


Definition is_acquire_pool (ev : event) : bool :=
  match ev with Ev_enter_get_connection_pool => true | _ => false end.

Definition is_reset (ev : event) : bool :=
  match ev with Ev_enter_reset_pool => true | _ => false end.

Definition is_lease_attempt (ev : event) : bool :=
  match ev with Ev_getconn _ _ => true | _ => false end.

Definition is_execute (ev : event) : bool :=
  match ev with Ev_execute _ _ _ => true | _ => false end.

Definition is_yield (ev : event) : bool :=
  match ev with Ev_yield _ => true | _ => false end.

(** The calls of [cursor.execute] in order: the SQL text and, apart from
    it, the parameters. *)
Fixpoint statements (evs : list event) : list (string * option (list pyval)) :=
  match evs with
  | [] => []
  | Ev_execute _ sql params :: evs' => (sql, params) :: statements evs'
  | _ :: evs' => statements evs'
  end.

(** The SQL texts handed to the driver, in order. *)
Definition sql_texts (evs : list event) : list string :=
  map fst (statements evs).

(** What the block of [execute_query] logs: the cursor, then (when the
    cursor could be opened and the template formatted) the one statement,
    then the fetch. *)
Definition query_block_events (w : world) (s : state) (sql : string)
    (params : option (list pyval)) (c : nat) : list event :=
  Ev_cursor c ::
  match conn_cursor w (tick s) with
  | Some _ => []
  | None =>
      match str_format sql (lakebase_schema (settings w)) with
      | inl _ => []
      | inr formatted =>
          Ev_execute c formatted params ::
          match cursor_execute w (S (tick s)) formatted params with
          | inl _ => []
          | inr cur =>
              match description cur with
              | None => []
              | Some _ => [Ev_fetchall c]
              end
          end
      end
  end.

(** The statement the block of [execute_query] hands to the driver. *)
Definition block_statements (w : world) (s : state) (sql : string)
    (params : option (list pyval)) : list (string * option (list pyval)) :=
  match conn_cursor w (tick s) with
  | Some _ => []
  | None =>
      match str_format sql (lakebase_schema (settings w)) with
      | inl _ => []
      | inr formatted => [(formatted, params)]
      end
  end.

(** A state reached from [s] by logging more events. *)
Definition extends (s s' : state) : Prop := ∃ evs, trace s' = trace s ++ evs.

(** At most [a] calls of [_get_connection_pool], [l] lease attempts and
    [r] resets among the events. *)
Definition attempts_le (evs : list event) (a l r : nat) : Prop :=
  count is_acquire_pool evs ≤ a
  ∧ count is_lease_attempt evs ≤ l
  ∧ count is_reset evs ≤ r.

(** The test of line 43: a cached token exists and has not expired. *)
Definition cache_live (s : state) (now : Z) : Prop :=
  truthy (_token_cache s).1 = true ∧ (now < (_token_cache s).2)%Z.

(** [n] calls of [_get_fresh_token] one after the other, whatever each one
    returns or raises. *)
Fixpoint token_calls (n : nat) (w : world) (s : state) : state :=
  match n with
  | 0 => s
  | S n' => token_calls n' w (_get_fresh_token w s).2
  end.


(* ------------------------------------------------------------------ *)
(** ** Leases across a run *)

(** Every pool has in [s'] the leases it had in [s] (a pool that did not
    exist yet had none). *)
Definition same_leases (s s' : state) : Prop :=
  ∀ p, leases s' p = leases s p.

(** Compared with [s], exactly one more connection is checked out in
    [s']: connection [c] of the open pool [p]. *)
Definition holds_lease (s s' : state) (p c : nat) : Prop :=
  pool_is_closed s' p = false
  ∧ (c ∉ leases s p)
  ∧ leases s' p = {[c]} ∪ leases s p
  ∧ ∀ p', p' ≠ p → leases s' p' = leases s p'.

(** What a generator in state [g] holds at [s'], compared with [s]. *)
Definition gen_holds (s s' : state) (g : gen_state) : Prop :=
  match g with
  | Yield_104 p c | Yield_114 p c => holds_lease s s' p c
  | Returned => same_leases s s'
  end.

(* ------------------------------------------------------------------ *)
(** ** Callers on several worker threads

    The routers hand every service call to a worker thread
    ([run_in_threadpool]), and the service takes no lock.  A thread inside
    [_get_connection_pool] can be preempted where it waits for a
    collaborator; the model has the two points that matter for the pool
    handle: between the test of line 67 (with the evaluation of the
    constructor's arguments) and the construction of the pool, and between
    the construction and the assignment of the handle. *)

Inductive pc :=
| Pc_start
| Pc_build (cfg : PoolConfig) (pw : string)
| Pc_store (p : nat)
| Pc_done (r : result nat).

(** Lines 61-79: the lookups, the test of the handle, [_pool_config], the
    token. *)
Definition acquire_check : M pc :=
  enter Ev_enter_get_connection_pool >>;
  instance <-- sdk_get_database_instance ;;
  username <-- sdk_current_user_me ;;
  s <-- get_state ;;
  match _connection_pool s with
  | None =>
      let cfg := {| host := instance; port := 5432; dbname := "databricks_postgres";
                    user := username; sslmode := "require" |} in
      modify (set_pool_config (Some cfg)) >>;
      pw <-- _get_fresh_token ;;
      ret (Pc_build cfg pw)
  | Some p => ret (Pc_done (Ok p))
  end.

(** Line 75, right-hand side: the constructor. *)
Definition acquire_build (cfg : PoolConfig) (pw : string) : M pc :=
  w <-- ask ;;
  p <-- ThreadedConnectionPool (pool_min_connections (settings w))
          (pool_max_connections (settings w)) cfg pw ;;
  ret (Pc_store p).

(** Line 75, the assignment, and line 82, which reads the global again. *)
Definition acquire_store (p : nat) : M pc :=
  modify (set_connection_pool (Some p)) >>;
  s <-- get_state ;;
  match _connection_pool s with
  | Some q => ret (Pc_done (Ok q))
  | None => ret (Pc_done (Ok p))
  end.

(** One atomic step of a thread; an exception ends the call. *)
Definition thread_step (c : pc) (w : world) (s : state) : pc * state :=
  let run (m : M pc) :=
    match m w s with
    | (Ok c', s') => (c', s')
    | (Raise e, s') => (Pc_done (Raise e), s')
    end in
  match c with
  | Pc_start => run acquire_check
  | Pc_build cfg pw => run (acquire_build cfg pw)
  | Pc_store p => run (acquire_store p)
  | Pc_done r => (Pc_done r, s)
  end.


(** A thread that is never preempted. *)
Definition run_alone (w : world) (s : state) : pc * state :=
  let (c1, s1) := thread_step Pc_start w s in
  let (c2, s2) := thread_step c1 w s1 in
  thread_step c2 w s2.


(* ------------------------------------------------------------------ *)
(** ** Concrete worlds *)

(** What the database answers to every statement in the worlds below: one
    column [x], one row holding 1. *)
Definition one_row : cursor_state :=
  {| description := Some [("x", 23)]; fetchall_result := inr [[PInt 1]] |}.

(** Every collaborator answers; the clock stands at 1000. *)
Definition steady_world : world := {|
  settings := default_settings;
  time_time := fun _ => 1000%Z;
  get_database_instance := fun _ => inr "instance.database.example";
  current_user_me := fun _ => inr "user@example.com";
  generate_database_credential := fun _ => inr "token-1";
  pool_init := fun _ => None;
  pool_connect := fun _ => None;
  conn_cursor := fun _ => None;
  cursor_execute := fun _ _ _ => inr one_row
|}.

(** The state after a first successful [_get_connection_pool]. *)
Definition warm_state : state := (_get_connection_pool steady_world initial_state).2.

(** The provider refuses to issue credentials. *)
Definition token_denied_world : world := {|
  settings := default_settings;
  time_time := fun _ => 1000%Z;
  get_database_instance := fun _ => inr "instance.database.example";
  current_user_me := fun _ => inr "user@example.com";
  generate_database_credential := fun _ =>
    inl (OtherException "PermissionDenied" "not allowed to generate credentials");
  pool_init := fun _ => None;
  pool_connect := fun _ => None;
  conn_cursor := fun _ => None;
  cursor_execute := fun _ _ _ => inr one_row
|}.

(** The probe succeeds and every other statement loses the session. *)
Definition dropped_session_world : world := {|
  settings := default_settings;
  time_time := fun _ => 1000%Z;
  get_database_instance := fun _ => inr "instance.database.example";
  current_user_me := fun _ => inr "user@example.com";
  generate_database_credential := fun _ => inr "token-1";
  pool_init := fun _ => None;
  pool_connect := fun _ => None;
  conn_cursor := fun _ => None;
  cursor_execute := fun _ sql _ =>
    if bool_decide (sql = "SELECT 1") then inr one_row
    else inl (Psycopg2 OperationalError "server closed the connection unexpectedly")
|}.


(** The first pool cannot be built; the second can. *)
Definition expired_token_world : world := {|
  settings := default_settings;
  time_time := fun _ => 1000%Z;
  get_database_instance := fun _ => inr "instance.database.example";
  current_user_me := fun _ => inr "user@example.com";
  generate_database_credential := fun _ => inr "token-1";
  pool_init := fun n =>
    if bool_decide (n ≤ 5) then Some (Psycopg2 OperationalError "password authentication failed")
    else None;
  pool_connect := fun _ => None;
  conn_cursor := fun _ => None;
  cursor_execute := fun _ _ _ => inr one_row
|}.

(** No pool can be built at all. *)
Definition unreachable_world : world := {|
  settings := default_settings;
  time_time := fun _ => 1000%Z;
  get_database_instance := fun _ => inr "instance.database.example";
  current_user_me := fun _ => inr "user@example.com";
  generate_database_credential := fun _ => inr "token-1";
  pool_init := fun _ => Some (Psycopg2 OperationalError "could not connect to server");
  pool_connect := fun _ => None;
  conn_cursor := fun _ => None;
  cursor_execute := fun _ _ _ => inr one_row
|}.

(* ------------------------------------------------------------------ *)
(** ** The globals taken together *)

(** The pool handle, when set, names an open pool that was built with the
    cached token and with the recorded configuration. *)
Definition coherent (s : state) : Prop :=
  ∀ p, _connection_pool s = Some p →
    ∃ o, pools s !! p = Some o
         ∧ closed o = false
         ∧ (_token_cache s).1 = Some (password o)
         ∧ _pool_config s = Some (kwargs o).

(** What stays of a pool object when connections come and go. *)
Definition pool_identity (o : pool_obj) : bool * string * PoolConfig :=
  (closed o, password o, kwargs o).

(** The two states have the same globals and the same pools up to their
    leases. *)
Definition same_service (s s' : state) : Prop :=
  _connection_pool s' = _connection_pool s
  ∧ _token_cache s' = _token_cache s
  ∧ _pool_config s' = _pool_config s
  ∧ ∀ p, pool_identity <$> pools s' !! p = pool_identity <$> pools s !! p.

(** ** Further worlds *)

(** The probe is answered; every other statement is rejected by the
    parser of the database. *)
Definition syntax_error_world : world := {|
  settings := default_settings;
  time_time := fun _ => 1000%Z;
  get_database_instance := fun _ => inr "instance.database.example";
  current_user_me := fun _ => inr "user@example.com";
  generate_database_credential := fun _ => inr "token-1";
  pool_init := fun _ => None;
  pool_connect := fun _ => None;
  conn_cursor := fun _ => None;
  cursor_execute := fun _ sql _ =>
    if bool_decide (sql = "SELECT 1") then inr one_row
    else inl (Psycopg2 ProgrammingError "syntax error at or near SELEC")
|}.

(** What [cursor.execute] leaves behind after a statement that returns no
    rows, such as an [UPDATE]: no description, and [fetchall()] would
    raise. *)
Definition no_result : cursor_state :=
  {| description := None;
     fetchall_result := inl (Psycopg2 ProgrammingError "no results to fetch") |}.

(** The probe is answered; every other statement runs and has no result
    set. *)
Definition no_result_world : world := {|
  settings := default_settings;
  time_time := fun _ => 1000%Z;
  get_database_instance := fun _ => inr "instance.database.example";
  current_user_me := fun _ => inr "user@example.com";
  generate_database_credential := fun _ => inr "token-1";
  pool_init := fun _ => None;
  pool_connect := fun _ => None;
  conn_cursor := fun _ => None;
  cursor_execute := fun _ sql _ =>
    if bool_decide (sql = "SELECT 1") then inr one_row else inr no_result
|}.

(** [n] connections taken out of pool [p] and not returned. *)
Definition lease_many (n p : nat) (w : world) (s : state) : state :=
  Nat.iter n (fun s0 => (getconn p w s0).2) s.

(* ------------------------------------------------------------------ *)
(** ** The query methods of [LakebaseService]

    Strings are byte strings; a Python [str] is read as its UTF-8
    encoding. *)

(** [str.lower()], where the service compares the result with the ASCII
    word [all].  The ASCII capitals are lowered and every other byte is
    kept.  For this comparison that agrees with Python's Unicode lowering:
    no character outside ASCII lowers to [a] or [l], and the bytes of a
    character outside ASCII differ from every ASCII byte. *)
Definition lower_char (c : ascii) : ascii :=
  let n := nat_of_ascii c in
  if (65 <=? n) && (n <=? 90) then ascii_of_nat (n + 32) else c.

Fixpoint lower (t : string) : string :=
  match t with
  | EmptyString => EmptyString
  | String c t' => String (lower_char c) (lower t')
  end.

(** The test [v and v.lower() != "all"] that every filtering method
    applies to an optional argument. *)
Definition names_filter (v : option string) : bool :=
  match v with
  | None => false
  | Some x => negb (bool_decide (x = EmptyString))
              && negb (bool_decide (lower x = "all"))
  end.

(** The argument where the test above has passed. *)
Definition given (v : option string) : string :=
  match v with Some x => x | None => EmptyString end.

(** [v or d] for an optional string. *)
Definition or_else (v : option string) (d : string) : string :=
  match v with
  | None => d
  | Some x => if bool_decide (x = EmptyString) then d else x
  end.

(** Python truthiness of a value of a row, as in [x or 0]. *)
Definition py_truthy (v : pyval) : bool :=
  match v with
  | PNone => false
  | PBool b => b
  | PInt z => negb (bool_decide (z = 0%Z))
  | PStr t => negb (bool_decide (t = EmptyString))
  end.

(** [d[k]] *)
Definition getitem (d : pydict) (k : string) : exn + pyval :=
  match dict_get d k with
  | Some v => inr v
  | None => inl (OtherException "KeyError" k)
  end.

Definition lift_sum {A} (x : exn + A) : M A :=
  match x with
  | inl e => raise e
  | inr a => ret a
  end.

(** The dictionary behind a row of a result. *)
Definition row_at (s : state) (a : nat) : pydict := default [] (heap s !! a).

(** The number of [%s] markers in a statement. *)
Fixpoint placeholders (t : string) : nat :=
  match t with
  | EmptyString => 0
  | String c t' =>
      match t' with
      | String c' _ =>
          if bool_decide (c = "%"%char) && bool_decide (c' = "s"%char)
          then S (placeholders t') else placeholders t'
      | EmptyString => 0
      end
  end.

Definition param_count (params : option (list pyval)) : nat :=
  match params with Some l => length l | None => 0 end.

(** *** [get_cities] *)

Definition get_cities_sql : string := "
            SELECT DISTINCT city
            FROM {schema}.city_investment
            ORDER BY city
        ".

Definition get_cities : M (list pyval) :=
  rows <-- execute_query get_cities_sql None ;;
  s <-- get_state ;;
  match rows with
  | Some addrs => mapM (fun a => lift_sum (getitem (row_at s a) "city")) addrs
  | None => raise (OtherException "TypeError" "'NoneType' object is not iterable")
  end.

(** *** [get_city_investment] and [get_top_amenities_by_city] *)

Definition get_city_investment_sql : string := "
            SELECT
                city,
                total_viewers AS demand,
                conversion_rate AS conversion,
                estimated_revenue AS revenue,
                quadrant
            FROM {schema}.city_investment
            ORDER BY estimated_revenue DESC
        ".

Definition get_city_investment : M (option (list nat)) :=
  execute_query get_city_investment_sql None.

Definition get_top_amenities_by_city_sql : string := "
            SELECT
                city,
                property_type,
                amenity_name,
                confirmation_lift AS lift,
                rank
            FROM {schema}.amenity_city_top
            ORDER BY city, rank
        ".

Definition get_top_amenities_by_city : M (option (list nat)) :=
  execute_query get_top_amenities_by_city_sql None.

(** *** [get_amenities] *)

(** The two constant pieces of the f-string of line 292, in which
    [{{schema}}] stands for the text [{schema}]. *)
Definition get_amenities_head : string := "
            SELECT
                amenity_name AS name,
                confirmation_lift AS lift,
                impact_tier
            FROM {schema}.amenity_lift
            ".

Definition get_amenities_tail : string := "
            ORDER BY confirmation_lift DESC
        ".

(** Lines 279-300: the two arguments of the call of [execute_query]. *)
Definition get_amenities_query (city property_type : option string)
    : string * option (list pyval) :=
  let conditions := [] in
  let params := [] in
  let '(conditions, params) :=
    if names_filter city
    then (conditions ++ ["city = %s"], params ++ [PStr (given city)])
    else (conditions, params) in
  let '(conditions, params) :=
    if names_filter property_type
    then (conditions ++ ["property_type = %s"], params ++ [PStr (given property_type)])
    else (conditions, params) in
  let where_clause :=
    match conditions with
    | [] => EmptyString
    | _ => String.append "WHERE " (String.concat " AND " conditions)
    end in
  (String.append get_amenities_head (String.append where_clause get_amenities_tail),
   match params with [] => None | _ => Some params end).

Definition get_amenities (city property_type : option string)
    : M (option (list nat)) :=
  let q := get_amenities_query city property_type in
  execute_query q.1 q.2.

(** *** [get_city_funnel] *)

Definition get_city_funnel_by_city_sql : string := "
                SELECT
                    SUM(viewers) AS viewers,
                    SUM(initiated_bookers) AS bookers,
                    SUM(completers) AS completed
                FROM {schema}.city_funnel
                WHERE city = %s
                  AND event_date >= (SELECT MAX(event_date) FROM {schema}.city_funnel) - INTERVAL '%s days'
            ".

Definition get_city_funnel_all_sql : string := "
                SELECT
                    SUM(viewers) AS viewers,
                    SUM(initiated_bookers) AS bookers,
                    SUM(completers) AS completed
                FROM {schema}.city_funnel
                WHERE event_date >= (SELECT MAX(event_date) FROM {schema}.city_funnel) - INTERVAL '%s days'
            ".

(** Lines 170-189: the two arguments of the call of [execute_query]. *)
Definition get_city_funnel_query (city : option string) (days : Z)
    : string * option (list pyval) :=
  if names_filter city
  then (get_city_funnel_by_city_sql, Some [PStr (given city); PInt days])
  else (get_city_funnel_all_sql, Some [PInt days]).

(** The dictionary that [get_city_funnel] returns. *)
Record FunnelData := {
  viewers : Z;
  bookers : Z;
  completed : Z
}.

Record CityFunnel := {
  funnel_city : string;
  funnel_days : Z;
  funnel : FunnelData
}.

(** The row used when the query returns none. *)
Definition empty_funnel_row : pydict :=
  [("viewers", PInt 0); ("bookers", PInt 0); ("completed", PInt 0)].

Section Conversions.

(** [int(t)] for a non-empty string [t]: Python's parser of integer
    literals, which the service does not constrain. *)
Variable int_of_str : string → exn + Z.

(** [int(v)] *)
Definition py_int (v : pyval) : exn + Z :=
  match v with
  | PNone =>
      inl (OtherException "TypeError"
             "int() argument must be a string, a bytes-like object or a real number, not 'NoneType'")
  | PBool b => inr (if b then 1 else 0)%Z
  | PInt z => inr z
  | PStr t => int_of_str t
  end.

(** [int(row[k] or 0)] *)
Definition int_or_zero (row : pydict) (k : string) : M Z :=
  v <-- lift_sum (getitem row k) ;;
  lift_sum (py_int (if py_truthy v then v else PInt 0)).

Definition get_city_funnel (city : option string) (days : Z) : M CityFunnel :=
  let q := get_city_funnel_query city days in
  rows <-- execute_query q.1 q.2 ;;
  s <-- get_state ;;
  let row :=
    match rows with
    | Some (a :: _) => row_at s a
    | _ => empty_funnel_row
    end in
  v <-- int_or_zero row "viewers" ;;
  b <-- int_or_zero row "bookers" ;;
  c <-- int_or_zero row "completed" ;;
  ret {| funnel_city := or_else city "All Cities";
         funnel_days := days;
         funnel := {| viewers := v; bookers := b; completed := c |} |}.

End Conversions.

(** What [int(v or 0)] is for the values a [SUM] over integers gives:
    [NULL] counts as zero. *)
Definition null_as_zero (v : pyval) : Z :=
  match v with PInt z => z | _ => 0%Z end.

Definition int_or_null (v : pyval) : bool :=
  match v with PInt _ | PNone => true | _ => false end.

(** The driver answers the liveness probe as [one_row] and every other
    statement with the given cursor. *)
Definition answering_world (cur : cursor_state) : world := {|
  settings := default_settings;
  time_time := fun _ => 1000%Z;
  get_database_instance := fun _ => inr "instance.database.example";
  current_user_me := fun _ => inr "user@example.com";
  generate_database_credential := fun _ => inr "token-1";
  pool_init := fun _ => None;
  pool_connect := fun _ => None;
  conn_cursor := fun _ => None;
  cursor_execute := fun _ sql _ =>
    if bool_decide (sql = "SELECT 1") then inr one_row else inr cur
|}.

(** A text without braces, which [str.format] copies as it is. *)
Fixpoint brace_free (t : string) : bool :=
  match t with
  | EmptyString => true
  | String c t' =>
      negb (bool_decide (c = "{"%char)) && negb (bool_decide (c = "}"%char))
      && brace_free t'
  end.

(** The pieces of a template between its [{schema}] fields. *)
Fixpoint pieces_from (skip : nat) (t : string) : list string :=
  match t with
  | EmptyString => [EmptyString]
  | String c t' =>
      match skip with
      | S k => pieces_from k t'
      | 0 =>
          if String.prefix "{schema}" t then EmptyString :: pieces_from 7 t'
          else match pieces_from 0 t' with
               | p :: ps => String c p :: ps
               | [] => [String c EmptyString]
               end
      end
  end.

Definition pieces (t : string) : list string := pieces_from 0 t.

(** The three methods whose statement is a constant template sent without
    parameters, each with its template and the state it ends in. *)
Definition constant_queries : list (string * (world → state → state)) :=
  [(get_cities_sql, fun w s => (get_cities w s).2);
   (get_city_investment_sql, fun w s => (get_city_investment w s).2);
   (get_top_amenities_by_city_sql, fun w s => (get_top_amenities_by_city w s).2)].

(* ------------------------------------------------------------------ *)
(** ** [Settings.cors_origins_list] ([server/config.py])

    Here a [str] is the list of its code points, so that the whitespace
    that [str.strip()] removes can be any set of characters. *)

Definition comma : N := 44.

(** [t.split(sep)] for a separator of one character. *)
Fixpoint split (sep : N) (t : list N) : list (list N) :=
  match t with
  | [] => [[]]
  | c :: t' =>
      if bool_decide (c = sep) then [] :: split sep t'
      else match split sep t' with
           | x :: xs => (c :: x) :: xs
           | [] => [[c]]
           end
  end.

(** [sep.join(l)] for a separator of one character. *)
Fixpoint join (sep : N) (l : list (list N)) : list N :=
  match l with
  | [] => []
  | [x] => x
  | x :: l' => x ++ sep :: join sep l'
  end.

Section Strip.

(** [c.isspace()], Unicode's table of whitespace characters. *)
Variable isspace : N → bool.

Fixpoint lstrip (t : list N) : list N :=
  match t with
  | [] => []
  | c :: t' => if isspace c then lstrip t' else t
  end.

Definition rstrip (t : list N) : list N := reverse (lstrip (reverse t)).

(** [t.strip()] *)
Definition strip (t : list N) : list N := rstrip (lstrip t).

(** [[origin.strip() for origin in self.cors_origins.split(",")]] *)
Definition cors_origins_list (cors_origins : list N) : list (list N) :=
  map strip (split comma cors_origins).

End Strip.

(** ** Pool objects over time *)

(** From [s] to [s'] no pool object is forgotten, none changes its size,
    endpoint or password, and a closed one does not change at all. *)
Definition pools_evolve (s s' : state) : Prop :=
  ∀ p o, pools s !! p = Some o →
    ∃ o', pools s' !! p = Some o'
      ∧ minconn o' = minconn o ∧ maxconn o' = maxconn o
      ∧ kwargs o' = kwargs o ∧ password o' = password o
      ∧ (closed o = true → o' = o).
(* ------------------------------------------------------------------ *)
(** ** Basic facts *)

Lemma count_app f evs1 evs2 : count f (evs1 ++ evs2) = count f evs1 + count f evs2.
Proof. induction evs1 as [|ev evs1 IH]; simpl; [done | rewrite IH; lia]. Qed.

Lemma statements_app evs1 evs2 :
  statements (evs1 ++ evs2) = statements evs1 ++ statements evs2.
Proof.
  induction evs1 as [|ev evs1 IH]; simpl; [done |].
  destruct ev; simpl; rewrite ?IH; done.
Qed.

Lemma events_since_app s s' evs :
  trace s' = trace s ++ evs → events_since s s' = evs.
Proof. intros H. unfold events_since. rewrite H. apply drop_app_length. Qed.

Lemma events_since_trans s1 s2 s3 :
  extends s1 s2 → extends s2 s3 →
  events_since s1 s3 = events_since s1 s2 ++ events_since s2 s3.
Proof.
  intros [e1 H1] [e2 H2].
  rewrite (events_since_app s1 s2 e1), (events_since_app s2 s3 e2) by done.
  apply events_since_app. by rewrite H2, H1, app_assoc.
Qed.

(** Case analysis on the innermost [match] of the goal. *)
Ltac break_match :=
  match goal with
  | |- context [match ?x with _ => _ end] =>
      lazymatch x with
      | context [match _ with _ => _ end] => fail
      | _ => destruct x eqn:?
      end
  end.

Ltac break_match_hyp :=
  match goal with
  | H : context [match ?x with _ => _ end] |- _ =>
      lazymatch x with
      | context [match _ with _ => _ end] => fail
      | _ => destruct x eqn:?
      end
  end.

(* ------------------------------------------------------------------ *)
(** ** The token cache *)

Lemma get_fresh_token_hit w s :
  cache_live s (time_time w (tick s)) →
  _get_fresh_token w s = (Ok (token_or_empty (_token_cache s).1), log Ev_time s).
Proof.
  intros [Ht Hn]. unfold _get_fresh_token, bind, py_time_time, get_state. simpl.
  rewrite Ht. rewrite bool_decide_eq_true_2 by done. done.
Qed.

Lemma get_fresh_token_miss w s :
  ¬ cache_live s (time_time w (tick s)) →
  _get_fresh_token w s =
    match generate_database_credential w (S (tick s)) with
    | inr cred =>
        (Ok cred,
         set_token_cache
           (Some cred, (time_time w (tick s) + token_refresh_interval (settings w))%Z)
           (log Ev_generate_database_credential (log Ev_time s)))
    | inl e => (Raise e, log Ev_generate_database_credential (log Ev_time s))
    end.
Proof.
  intros Hn. unfold _get_fresh_token, bind, py_time_time, get_state. simpl.
  destruct (truthy (_token_cache s).1 &&
            bool_decide (time_time w (tick s) < (_token_cache s).2)%Z) eqn:E.
  - exfalso. apply Hn. apply andb_true_iff in E as [E1 E2].
    apply bool_decide_eq_true in E2. by split.
  - unfold sdk_generate_database_credential, external, ask, modify, ret. simpl.
    by destruct (generate_database_credential w (S (tick s))).
Qed.

Lemma cache_live_dec s now : Decision (cache_live s now).
Proof. unfold cache_live. apply _. Defined.

Lemma token_calls_hits w n s :
  (∀ k, k < n → cache_live s (time_time w (tick s + k))) →
  token_calls n w s = Nat.iter n (log Ev_time) s.
Proof.
  revert s. induction n as [|n IH]; intros s Hlive; [done |].
  simpl. rewrite get_fresh_token_hit.
  2:{ specialize (Hlive 0). rewrite Nat.add_0_r in Hlive. apply Hlive. lia. }
  simpl. rewrite IH.
  - clear. induction n as [|n IH]; simpl; [done | by rewrite IH].
  - intros k Hk. specialize (Hlive (S k)). unfold cache_live in *. simpl.
    replace (S (tick s + k)) with (tick s + S k) by lia.
    apply Hlive. lia.
Qed.

Lemma trace_iter_log n ev s :
  trace (Nat.iter n (log ev) s) = trace s ++ replicate n ev.
Proof.
  induction n as [|n IH]; simpl; [by rewrite app_nil_r |].
  rewrite IH, <- app_assoc. f_equal.
  clear. induction n as [|n IH]; simpl; [done | by rewrite <- IH].
Qed.

Lemma get_fresh_token_events w s :
  ∃ evs, trace (_get_fresh_token w s).2 = trace s ++ evs ∧
         count is_token_issuance evs ≤ 1.
Proof.
  destruct (cache_live_dec s (time_time w (tick s))) as [H|H].
  - rewrite get_fresh_token_hit by done. exists [Ev_time]. simpl. split; [done | lia].
  - rewrite get_fresh_token_miss by done.
    exists [Ev_time; Ev_generate_database_credential].
    destruct (generate_database_credential w (S (tick s))); simpl;
      rewrite <- app_assoc; split; (done || lia).
Qed.

(** C4.  [_get_fresh_token] answers from the cache, without calling the
    provider, whenever a cached token exists and the clock reads strictly
    less than the cached expiry; otherwise it calls the provider exactly
    once, and on success caches the new token with expiry now + refresh
    interval and returns it.  Hence in any run of calls during which the
    token cached by the first call stays unexpired, the provider is called
    at most once, and only by the first call. *)
Theorem C4_get_fresh_token_caches (w : world) (s : state) :
  let now := time_time w (tick s) in
  let s1 := (_get_fresh_token w s).2 in
  (cache_live s now →
     _get_fresh_token w s = (Ok (token_or_empty (_token_cache s).1), log Ev_time s)
     ∧ count is_token_issuance (events_since s s1) = 0)
  ∧ (¬ cache_live s now →
     count is_token_issuance (events_since s s1) = 1
     ∧ ∀ cred, generate_database_credential w (S (tick s)) = inr cred →
         (_get_fresh_token w s).1 = Ok cred
         ∧ _token_cache s1 = (Some cred, (now + token_refresh_interval (settings w))%Z))
  ∧ (∀ n, (∀ k, k < n → cache_live s1 (time_time w (tick s1 + k))) →
       count is_token_issuance (events_since s1 (token_calls n w s1)) = 0
       ∧ count is_token_issuance (events_since s (token_calls n w s1)) ≤ 1
       ∧ _token_cache (token_calls n w s1) = _token_cache s1).
Proof.
  intros now s1. split; [|split].
  - intros Hlive. subst s1. rewrite get_fresh_token_hit by done.
    split; [done |]. by rewrite (events_since_app _ _ [Ev_time]).
  - intros Hdead. subst s1. rewrite get_fresh_token_miss by done. split.
    + rewrite (events_since_app _ _ [Ev_time; Ev_generate_database_credential]); [done |].
      destruct (generate_database_credential w (S (tick s))); simpl;
        by rewrite <- app_assoc.
    + intros cred Hc. by rewrite Hc.
  - intros n Hlive. rewrite token_calls_hits by done.
    assert (Hs : events_since s1 (Nat.iter n (log Ev_time) s1) = replicate n Ev_time).
    { apply events_since_app, trace_iter_log. }
    assert (Hz : count is_token_issuance (replicate n Ev_time) = 0).
    { clear. induction n; simpl; [done | by rewrite IHn]. }
    split; [by rewrite Hs | split].
    + destruct (get_fresh_token_events w s) as (evs & Hevs & Hle). fold s1 in Hevs.
      rewrite (events_since_trans s s1); [| by exists evs | eexists; apply trace_iter_log].
      rewrite Hs, (events_since_app s s1 evs), count_app, Hz by done. lia.
    + clear. induction n; simpl; [done | by rewrite IHn].
Qed.

Lemma C4_get_fresh_token_caches_witness :
  let s1 := (_get_fresh_token steady_world initial_state).2 in
  (_get_fresh_token steady_world initial_state).1 = Ok "token-1"
  ∧ _token_cache s1 = (Some "token-1", 1900%Z)
  ∧ count is_token_issuance (events_since initial_state (token_calls 3 steady_world s1)) ≤ 1
  ∧ _get_fresh_token steady_world s1 = (Ok "token-1", log Ev_time s1).
Proof.
  intros s1.
  destruct (C4_get_fresh_token_caches steady_world initial_state) as (_ & Hmiss & Hseq).
  destruct Hmiss as [_ Hcred].
  { unfold cache_live. simpl. intros [H _]. discriminate. }
  destruct (Hcred "token-1" eq_refl) as [H1 H2].
  destruct (Hseq 3) as (_ & H3 & _).
  { intros k _. unfold cache_live. simpl. split; [reflexivity | lia]. }
  destruct (C4_get_fresh_token_caches steady_world s1) as (Hhit & _ & _).
  destruct Hhit as [H4 _].
  { unfold cache_live. simpl. split; [reflexivity | lia]. }
  repeat split; assumption.
Defined.

(* ------------------------------------------------------------------ *)
(** ** The pool handle *)

Ltac unfold_service :=
  unfold _get_connection_pool, _get_fresh_token, _reset_pool,
    ThreadedConnectionPool, getconn, putconn, closeall,
    probe, py_cursor, py_execute, py_fetchall, py_time_time,
    sdk_get_database_instance, sdk_current_user_me,
    sdk_generate_database_credential, external,
    except_OperationalError, try_except, gen_try_finally,
    bind, enter, modify, ret, raise, ask, get_state in *.

Ltac run_step :=
  first
    [ progress (rewrite ?lookup_insert_eq)
    | match goal with
      | H : ?x = _ |- context [match ?x with _ => _ end] => rewrite H
      end
    | break_match ].

Ltac run_all := repeat (run_step; simpl in *).

Lemma cache_live_test s now :
  truthy (_token_cache s).1 && bool_decide (now < (_token_cache s).2)%Z = true
  ↔ cache_live s now.
Proof.
  unfold cache_live. rewrite andb_true_iff, bool_decide_eq_true. done.
Qed.

Ltac trace_shape := rewrite <- ?app_assoc; simpl; reflexivity.

Ltac count_events := erewrite events_since_app by (simpl; trace_shape); done.


(** C3, as amended.  [_get_connection_pool] resolves the endpoint on every
    call, with or without a pool handle: exactly one instance lookup.  With
    a handle it issues no token and builds no pool, leaves the handle and
    the pools alone, and returns the handle whenever the two lookups
    succeed.  Without a handle, once the lookups have succeeded, it asks
    the provider for a token exactly when the token cache is empty or
    expired; in particular the first call after [_reset_pool] performs
    exactly one endpoint resolution and exactly one token issuance. *)
Theorem C3_get_connection_pool_provider_calls (w : world) (s : state) :
  let r := _get_connection_pool w s in
  let evs := events_since s r.2 in
  count is_endpoint_resolution evs = 1
  ∧ (∀ p, _connection_pool s = Some p →
       count is_token_issuance evs = 0
       ∧ count is_pool_construction evs = 0
       ∧ _connection_pool r.2 = Some p
       ∧ pools r.2 = pools s
       ∧ (∀ i u, get_database_instance w (S (tick s)) = inr i →
                 current_user_me w (S (S (tick s))) = inr u → r.1 = Ok p))
  ∧ (∀ i u, _connection_pool s = None →
       get_database_instance w (S (tick s)) = inr i →
       current_user_me w (S (S (tick s))) = inr u →
       (cache_live s (time_time w (S (S (S (tick s))))) →
          count is_token_issuance evs = 0)
       ∧ (¬ cache_live s (time_time w (S (S (S (tick s))))) →
          count is_token_issuance evs = 1))
  ∧ (∀ w0 s0 i u, s = (_reset_pool w0 s0).2 →
       get_database_instance w (S (tick s)) = inr i →
       current_user_me w (S (S (tick s))) = inr u →
       count is_endpoint_resolution evs = 1 ∧ count is_token_issuance evs = 1).
Proof.
  intros r evs.
  assert (Hnone : ∀ i u, _connection_pool s = None →
       get_database_instance w (S (tick s)) = inr i →
       current_user_me w (S (S (tick s))) = inr u →
       (cache_live s (time_time w (S (S (S (tick s))))) →
          count is_token_issuance evs = 0)
       ∧ (¬ cache_live s (time_time w (S (S (S (tick s))))) →
          count is_token_issuance evs = 1)).
  { intros i u Hp Hi Hu. subst evs r.
    unfold_service. simpl. run_all.
    all: match goal with H : _ && _ = _ |- _ => rename H into Hlive end.
    all: split; intros Hl;
      first [ count_events
            | apply cache_live_test in Hl; simpl in *; congruence
            | apply cache_live_test in Hlive; done ]. }
  split; [| split; [| split]].
  - subst evs r. unfold_service. simpl. run_all; count_events.
  - intros p Hp. subst evs r. unfold_service. simpl.
    repeat split.
    1-4: run_all; try done; count_events.
    intros i u Hi Hu. by run_all.
  - exact Hnone.
  - intros w0 s0 i u Hs Hi Hu. split.
    + subst evs r. unfold_service. simpl. run_all; count_events.
    + apply (Hnone i u); [| done | done |].
      * rewrite Hs. unfold_service. simpl. by run_all.
      * rewrite Hs. unfold cache_live. unfold_service. simpl.
        run_all; intros [? _]; done.
Qed.

Lemma C3_get_connection_pool_provider_calls_witness :
  let r := _get_connection_pool steady_world warm_state in
  let s := (_reset_pool steady_world warm_state).2 in
  count is_endpoint_resolution (events_since warm_state r.2) = 1
  ∧ count is_token_issuance (events_since warm_state r.2) = 0
  ∧ r.1 = Ok 0
  ∧ count is_token_issuance (events_since s (_get_connection_pool steady_world s).2) = 1.
Proof.
  intros r s.
  destruct (C3_get_connection_pool_provider_calls steady_world warm_state)
    as (H1 & H2 & _ & _).
  destruct (H2 0 ltac:(vm_compute; reflexivity)) as (H3 & _ & _ & _ & H4).
  destruct (C3_get_connection_pool_provider_calls steady_world s)
    as (_ & _ & _ & H5).
  destruct (H5 steady_world warm_state "instance.database.example" "user@example.com"
              eq_refl eq_refl eq_refl) as [_ H6].
  split; [exact H1 |]. split; [exact H3 |]. split; [| exact H6].
  exact (H4 "instance.database.example" "user@example.com" eq_refl eq_refl).
Defined.

(** C3 as stated fails: with a pool handle in place, the call still
    resolves the endpoint. *)
Lemma C3_counterexample :
  _connection_pool warm_state = Some 0
  ∧ count is_endpoint_resolution
      (events_since warm_state (_get_connection_pool steady_world warm_state).2) ≠ 0.
Proof. split; [vm_compute; reflexivity | vm_compute; lia]. Qed.

(* ------------------------------------------------------------------ *)
(** ** The generator: how the blocks fit together *)

#[local] Arguments first_attempt : simpl never.
#[local] Arguments second_attempt : simpl never.
#[local] Arguments retry_block : simpl never.
#[local] Arguments get_connection_start : simpl never.
#[local] Arguments get_connection_resume : simpl never.
#[local] Arguments gen_close : simpl never.
#[local] Arguments cm_enter : simpl never.
#[local] Arguments cm_exit : simpl never.
#[local] Arguments with_get_connection : simpl never.
#[local] Arguments _reset_pool : simpl never.
#[local] Arguments _get_connection_pool : simpl never.
#[local] Arguments _get_fresh_token : simpl never.
#[local] Arguments getconn : simpl never.
#[local] Arguments putconn : simpl never.
#[local] Arguments is_OperationalError : simpl nomatch.

Lemma reset_pool_ok w s : (_reset_pool w s).1 = Ok tt.
Proof. unfold_service. simpl. by run_all. Qed.

Lemma get_connection_start_eq w s :
  get_connection_start w s =
    match first_attempt w s with
    | (Ok g, s1) => (Ok g, s1)
    | (Raise e, s1) =>
        if is_OperationalError e then retry_block w s1 else (Raise e, s1)
    end.
Proof.
  unfold get_connection_start, except_OperationalError, try_except.
  destruct (first_attempt w s) as [[g|e] s1]; [done |].
  by destruct (is_OperationalError e).
Qed.

Lemma retry_block_eq w s :
  retry_block w s =
    match second_attempt w (_reset_pool w s).2 with
    | (Ok g, s') => (Ok g, s')
    | (Raise e, s') =>
        if is_OperationalError e
        then (Raise (DatabaseConnectionError (Some (str e))), s')
        else (Raise e, s')
    end.
Proof.
  unfold retry_block, bind, except_OperationalError, try_except.
  pose proof (reset_pool_ok w s) as Hok.
  destruct (_reset_pool w s) as [[[]|e] s1]; simpl in *; [| done].
  destruct (second_attempt w s1) as [[g|e] s2]; [done |].
  by destruct (is_OperationalError e).
Qed.

Lemma retry_block_not_operational w s e :
  (retry_block w s).1 = Raise e → is_OperationalError e = false.
Proof.
  rewrite retry_block_eq.
  destruct (second_attempt w (_reset_pool w s).2) as [[g|e'] s']; simpl; [done |].
  destruct (is_OperationalError e') eqn:E; simpl; intros [= <-]; done.
Qed.

Lemma get_connection_start_not_operational w s e :
  (get_connection_start w s).1 = Raise e → is_OperationalError e = false.
Proof.
  rewrite get_connection_start_eq.
  destruct (first_attempt w s) as [[g|e'] s1]; simpl; [done |].
  destruct (is_OperationalError e') eqn:E.
  - apply retry_block_not_operational.
  - simpl. by intros [= <-].
Qed.

Lemma get_connection_resume_not_operational w s g r e :
  suspended g = true →
  (get_connection_resume g r w s).1 = Raise e → is_OperationalError e = false.
Proof.
  destruct g as [p c|p c|]; [| | done]; intros _;
    unfold get_connection_resume, except_OperationalError, try_except;
    destruct (gen_try_finally (resumed r) (putconn p c) w s) as [[g|e'] s1];
    simpl; try done; destruct (is_OperationalError e') eqn:E; simpl.
  - apply retry_block_not_operational.
  - by intros [= <-].
  - by intros [= <-].
  - by intros [= <-].
Qed.

Lemma cm_enter_suspended w s g c s1 :
  cm_enter w s = (Ok (g, c), s1) → suspended g = true.
Proof.
  unfold cm_enter, bind.
  destruct (get_connection_start w s) as [[[p' c'|p' c'|]|e] s']; simpl;
    unfold ret, raise; intros [= <- <- <-]; done.
Qed.

Lemma cm_enter_not_operational w s e :
  (cm_enter w s).1 = Raise e → is_OperationalError e = false.
Proof.
  unfold cm_enter, bind.
  pose proof (get_connection_start_not_operational w s) as H.
  destruct (get_connection_start w s) as [[[p' c'|p' c'|]|e'] s']; simpl in *;
    unfold ret, raise; try done.
  - by intros [= <-].
  - intros [= <-]. by apply H.
Qed.

Lemma cm_exit_state w s g exc :
  (cm_exit g exc w s).2
  = (get_connection_resume g (match exc with Some value => Throw value | None => Next end)
       w s).2.
Proof.
  unfold cm_exit, bind. destruct exc as [value|].
  - destruct (get_connection_resume g (Throw value) w s) as [[g'|e] s1]; [| done].
    by destruct (suspended g').
  - destruct (get_connection_resume g Next w s) as [[g'|e] s1]; [| done].
    by destruct (suspended g').
Qed.

Lemma cm_exit_not_operational w s g exc e :
  suspended g = true →
  (cm_exit g exc w s).1 = Raise e → is_OperationalError e = false.
Proof.
  intros Hg. unfold cm_exit.
  destruct exc as [value|]; unfold bind.
  - pose proof (get_connection_resume_not_operational w s g (Throw value)) as H.
    destruct (get_connection_resume g (Throw value) w s) as [[g'|e'] s1]; simpl in *.
    + destruct (suspended g'); [| done]. unfold raise. by intros [= <-].
    + intros [= <-]. by apply H.
  - pose proof (get_connection_resume_not_operational w s g Next) as H.
    destruct (get_connection_resume g Next w s) as [[g'|e'] s1]; simpl in *.
    + destruct (suspended g'); [| done]. unfold raise. by intros [= <-].
    + intros [= <-]. by apply H.
Qed.

Lemma cm_exit_never_declines w s g value s1 :
  cm_exit g (Some value) w s ≠ (Ok false, s1).
Proof.
  unfold cm_exit, bind.
  destruct (get_connection_resume g (Throw value) w s) as [[g'|e'] s2]; [| done].
  by destruct (suspended g').
Qed.

Lemma with_get_connection_not_operational {A} (body : nat → M A) w s e :
  (with_get_connection body w s).1 = Raise e → is_OperationalError e = false.
Proof.
  unfold with_get_connection, bind, ret, raise.
  pose proof (cm_enter_not_operational w s) as Henter.
  pose proof (cm_enter_suspended w s) as Hsusp.
  destruct (cm_enter w s) as [[[g c]|e'] s1]; simpl in *.
  2:{ intros [= <-]. by apply Henter. }
  specialize (Hsusp g c s1 eq_refl).
  destruct (body c w s1) as [[a|eb] s2].
  - pose proof (cm_exit_not_operational w s2 g None) as Hexit.
    destruct (cm_exit g None w s2) as [[b|e'] s3]; simpl in *; [done |].
    intros [= <-]. by apply Hexit.
  - pose proof (cm_exit_not_operational w s2 g (Some eb)) as Hexit.
    pose proof (cm_exit_never_declines w s2 g eb) as Hdecl.
    destruct (cm_exit g (Some eb) w s2) as [[[]|e'] s3]; simpl in *.
    + done.
    + by destruct (Hdecl s3).
    + intros [= <-]. by apply Hexit.
Qed.

(* ------------------------------------------------------------------ *)
(** ** The generator: what each block logs *)

Ltac unfold_generator :=
  unfold get_connection_resume, retry_block, second_attempt, first_attempt,
    resumed in *;
  unfold_service.

Lemma first_attempt_events w s :
  ∃ evs, trace (first_attempt w s).2 = trace s ++ evs
    ∧ count is_acquire_pool evs = 1 ∧ count is_lease_attempt evs ≤ 1
    ∧ count is_reset evs = 0 ∧ count is_execute evs ≤ 1
    ∧ count is_yield evs ≤ 1
    ∧ (statements evs = [] ∨ statements evs = [("SELECT 1", None)]).
Proof.
  unfold_generator. simpl. run_all.
  all: eexists; split; [trace_shape |]; simpl; repeat split; (lia || tauto).
Qed.

Lemma second_attempt_events w s :
  ∃ evs, trace (second_attempt w s).2 = trace s ++ evs
    ∧ count is_acquire_pool evs = 1 ∧ count is_lease_attempt evs ≤ 1
    ∧ count is_reset evs = 0 ∧ count is_execute evs = 0
    ∧ count is_yield evs ≤ 1 ∧ statements evs = [].
Proof.
  unfold_generator. simpl. run_all.
  all: eexists; split; [trace_shape |]; simpl; repeat split; (lia || tauto).
Qed.

Lemma second_attempt_yields w s g s' :
  second_attempt w s = (Ok g, s') → ∃ p c, g = Yield_114 p c.
Proof.
  unfold_generator. simpl. run_all; intros [= <- <-]; eauto.
Qed.

Lemma first_attempt_yields w s g s' :
  first_attempt w s = (Ok g, s') → ∃ p c, g = Yield_104 p c.
Proof.
  unfold_generator. simpl. run_all; intros [= <- <-]; eauto.
Qed.

Lemma reset_pool_events w s :
  ∃ evs, trace (_reset_pool w s).2 = trace s ++ Ev_enter_reset_pool :: evs
    ∧ count is_acquire_pool evs = 0 ∧ count is_lease_attempt evs = 0
    ∧ count is_reset evs = 0 ∧ count is_execute evs = 0
    ∧ count is_yield evs = 0 ∧ statements evs = [].
Proof.
  unfold_service. simpl. run_all.
  all: eexists; split; [trace_shape |]; simpl; repeat split; (lia || tauto).
Qed.

Lemma retry_block_events w s :
  ∃ evs, trace (retry_block w s).2 = trace s ++ Ev_enter_reset_pool :: evs
    ∧ count is_acquire_pool evs = 1 ∧ count is_lease_attempt evs ≤ 1
    ∧ count is_reset evs = 0 ∧ count is_execute evs = 0
    ∧ count is_yield evs ≤ 1 ∧ statements evs = [].
Proof.
  rewrite retry_block_eq.
  destruct (reset_pool_events w s) as (e1 & H1 & A1 & L1 & R1 & X1 & Y1 & Q1).
  destruct (second_attempt_events w (_reset_pool w s).2)
    as (e2 & H2 & A2 & L2 & R2 & X2 & Y2 & Q2).
  exists (e1 ++ e2).
  assert (Ht : trace (second_attempt w (_reset_pool w s).2).2
               = trace s ++ Ev_enter_reset_pool :: e1 ++ e2).
  { rewrite H2, H1, <- app_assoc. done. }
  rewrite !count_app, statements_app, A1, L1, R1, X1, Y1, Q1, A2, R2, X2, Q2.
  split; [| simpl; repeat split; (lia || tauto)].
  destruct (second_attempt w (_reset_pool w s).2) as [[g|e] s']; [done |].
  by destruct (is_OperationalError e).
Qed.

Lemma resume_114_events w s p c r :
  ∃ evs, trace (get_connection_resume (Yield_114 p c) r w s).2 = trace s ++ evs
    ∧ count is_acquire_pool evs = 0 ∧ count is_lease_attempt evs = 0
    ∧ count is_reset evs = 0 ∧ count is_execute evs = 0
    ∧ count is_yield evs = 0 ∧ statements evs = [].
Proof.
  unfold_generator. destruct r; simpl; run_all.
  all: eexists; split; [trace_shape |]; simpl; repeat split; (lia || tauto).
Qed.

Lemma putconn_events w s p c :
  trace (putconn p c w s).2 = trace s ++ [Ev_putconn p c].
Proof. unfold_service. by run_all. Qed.

Lemma resume_104_events w s p c r :
  ∃ evs, trace (get_connection_resume (Yield_104 p c) r w s).2 = trace s ++ evs
    ∧ count is_acquire_pool evs ≤ 1 ∧ count is_lease_attempt evs ≤ 1
    ∧ count is_reset evs ≤ 1 ∧ count is_execute evs = 0
    ∧ count is_yield evs ≤ 1 ∧ statements evs = [].
Proof.
  unfold get_connection_resume, except_OperationalError, try_except.
  assert (H0 : ∃ s1 x, gen_try_finally (resumed r) (putconn p c) w s = (x, s1)
                ∧ trace s1 = trace s ++ [Ev_putconn p c]).
  { unfold gen_try_finally, resumed. unfold_service.
    destruct r; simpl; run_all; eauto. }
  destruct H0 as (s1 & x & -> & Hs1).
  destruct (retry_block_events w s1) as (e2 & H2 & A2 & L2 & R2 & X2 & Y2 & Q2).
  destruct x as [g|e].
  { exists [Ev_putconn p c]. split; [done |]. simpl. repeat split; (lia || tauto). }
  destruct (is_OperationalError e).
  - exists ([Ev_putconn p c] ++ Ev_enter_reset_pool :: e2).
    split; [by rewrite H2, Hs1, <- app_assoc |].
    simpl. rewrite A2, R2, X2, Q2. repeat split; (lia || tauto).
  - exists [Ev_putconn p c]. split; [done |]. simpl. repeat split; (lia || tauto).
Qed.

Lemma get_connection_start_events w s :
  ∃ evs, trace (get_connection_start w s).2 = trace s ++ evs
    ∧ count is_acquire_pool evs ≤ 2 ∧ count is_lease_attempt evs ≤ 2
    ∧ count is_reset evs ≤ 1 ∧ count is_execute evs ≤ 1
    ∧ (statements evs = [] ∨ statements evs = [("SELECT 1", None)]).
Proof.
  rewrite get_connection_start_eq.
  destruct (first_attempt_events w s) as (e1 & H1 & A1 & L1 & R1 & X1 & Y1 & Q1).
  destruct (first_attempt w s) as [[g|e] s1]; simpl in *.
  { exists e1. split; [done |]. repeat split; (lia || tauto). }
  destruct (is_OperationalError e).
  - destruct (retry_block_events w s1) as (e2 & H2 & A2 & L2 & R2 & X2 & Y2 & Q2).
    exists (e1 ++ Ev_enter_reset_pool :: e2).
    split; [by rewrite H2, H1, <- app_assoc |].
    rewrite !count_app, statements_app. simpl. rewrite A2, R2, X2, Q2, app_nil_r.
    repeat split; (lia || tauto).
  - exists e1. split; [done |]. repeat split; (lia || tauto).
Qed.



Lemma retry_block_yields w s g s' :
  retry_block w s = (Ok g, s') → ∃ p c, g = Yield_114 p c.
Proof.
  rewrite retry_block_eq.
  destruct (second_attempt w (_reset_pool w s).2) as [[g'|e] s1] eqn:Hsec.
  - intros [= <- <-]. by eapply second_attempt_yields.
  - by destruct (is_OperationalError e).
Qed.


Lemma resume_104_yields w s p c r g s' :
  get_connection_resume (Yield_104 p c) r w s = (Ok g, s') →
  g = Returned ∨ ∃ p' c', g = Yield_114 p' c'.
Proof.
  unfold get_connection_resume, except_OperationalError, try_except.
  destruct (gen_try_finally (resumed r) (putconn p c) w s) as [[g'|e] s1] eqn:Hfin.
  - intros [= <- <-]. left.
    unfold gen_try_finally, resumed, ret, raise in Hfin.
    destruct r; simpl in Hfin; [| by destruct (putconn p c w s) as [[[]|?] ?]].
    destruct (putconn p c w s) as [[[]|?] ?]; by simplify_eq.
  - destruct (is_OperationalError e); [| done].
    intros Hretry. right. by eapply retry_block_yields.
Qed.


(* ------------------------------------------------------------------ *)
(** ** Leases *)

Lemma same_leases_trans s1 s2 s3 :
  same_leases s1 s2 → same_leases s2 s3 → same_leases s1 s3.
Proof. intros H1 H2 p. by rewrite H2, H1. Qed.

Lemma same_leases_pools s s' : pools s' = pools s → same_leases s s'.
Proof. intros H p. unfold leases. by rewrite H. Qed.

Lemma holds_lease_base s0 s1 s2 p c :
  same_leases s0 s1 → holds_lease s1 s2 p c → holds_lease s0 s2 p c.
Proof.
  intros H (Hc & Hn & Hp & Ho). repeat split.
  - done.
  - by rewrite <- H.
  - by rewrite Hp, H.
  - intros p' Hp'. by rewrite Ho, H.
Qed.

Lemma holds_lease_pools s0 s1 s2 p c :
  pools s2 = pools s1 → holds_lease s0 s1 p c → holds_lease s0 s2 p c.
Proof.
  intros H (Hc & Hn & Hp & Ho). unfold holds_lease, pool_is_closed, leases in *.
  rewrite H. done.
Qed.

Lemma gen_holds_pools s0 s1 s2 g :
  pools s2 = pools s1 → gen_holds s0 s1 g → gen_holds s0 s2 g.
Proof.
  intros H. destruct g; simpl; try apply holds_lease_pools; try done.
  intros Hs p. unfold leases. rewrite H. apply Hs.
Qed.

Lemma leases_fresh_pool s : leases s (fresh (dom (pools s))) = ∅.
Proof.
  unfold leases.
  by rewrite (proj1 (not_elem_of_dom (pools s) _) (is_fresh (dom (pools s)))).
Qed.

Lemma get_connection_pool_leases w s :
  same_leases s (_get_connection_pool w s).2.
Proof.
  unfold_service. simpl. run_all; try (apply same_leases_pools; done).
  all: intros p; unfold leases at 1; simpl;
    destruct (decide (p = fresh (dom (pools s)))) as [-> | Hne];
    [ rewrite lookup_insert_eq; simpl; by rewrite leases_fresh_pool
    | by rewrite lookup_insert_ne ].
Qed.

Lemma reset_pool_leases w s : same_leases s (_reset_pool w s).2.
Proof.
  unfold_service. simpl. run_all; try (apply same_leases_pools; done).
  all: intros q; unfold leases; simpl;
    match goal with
    | H : pools _ !! ?p0 = Some _ |- _ =>
        destruct (decide (q = p0)) as [-> | Hne];
        [ rewrite lookup_insert_eq, H; done | by rewrite lookup_insert_ne ]
    end.
Qed.

Lemma getconn_leases w s p :
  match getconn p w s with
  | (Ok c, s') => holds_lease s s' p c
  | (Raise _, s') => same_leases s s'
  end.
Proof.
  unfold_service. simpl. run_all; try (apply same_leases_pools; done).
  unfold holds_lease, pool_is_closed, leases. simpl.
  match goal with H : pools _ !! _ = Some ?o |- _ => rewrite H end.
  rewrite lookup_insert_eq. simpl. repeat split; try done.
  - apply is_fresh.
  - intros p' Hne. by rewrite lookup_insert_ne.
Qed.

Lemma putconn_held w s0 s p c :
  holds_lease s0 s p c →
  ∃ s', putconn p c w s = (Ok tt, s') ∧ same_leases s0 s'.
Proof.
  intros (Hc & Hn & Hp & Ho). unfold pool_is_closed, leases in Hc, Hp.
  unfold_service.
  destruct (pools s !! p) as [o|] eqn:Ho'; [| done]. simpl in *. rewrite Hc.
  rewrite bool_decide_eq_true_2
    by (rewrite Hp; apply elem_of_union_l, elem_of_singleton; done).
  eexists. split; [done |].
  intros p'. unfold leases at 1. simpl.
  destruct (decide (p' = p)) as [-> | Hne].
  - rewrite lookup_insert_eq. simpl. rewrite Hp.
    apply set_eq. intros x.
    rewrite elem_of_difference, elem_of_union, elem_of_singleton.
    split; [intros [[-> | Hx] Hnx]; done |].
    intros Hx. split; [by right | by intros ->].
  - rewrite lookup_insert_ne by done. specialize (Ho p' Hne).
    unfold leases at 1 in Ho. done.
Qed.

Lemma probe_pools w s c : pools (probe c w s).2 = pools s.
Proof. unfold_service. simpl. by run_all. Qed.

Lemma first_attempt_leases w s :
  match first_attempt w s with
  | (Ok g, s') => (∃ p c, g = Yield_104 p c) ∧ gen_holds s s' g
  | (Raise _, s') => same_leases s s'
  end.
Proof.
  unfold first_attempt, bind.
  pose proof (get_connection_pool_leases w s) as Hacq.
  destruct (_get_connection_pool w s) as [[p|e] s1]; simpl in *; [| done].
  pose proof (getconn_leases w s1 p) as Hget.
  destruct (getconn p w s1) as [[c|e] s2]; [| by eapply same_leases_trans].
  apply (holds_lease_base s) in Hget; [| done].
  unfold gen_try_finally, bind.
  pose proof (probe_pools w s2 c) as Hprobe.
  destruct (probe c w s2) as [[[]|e] s3]; simpl in *.
  - split; [eauto |]. by apply (holds_lease_pools _ s2).
  - apply (holds_lease_pools _ _ s3) in Hget; [| done].
    destruct (putconn_held w s s3 p c Hget) as (s4 & -> & Hs4). done.
Qed.

Lemma second_attempt_leases w s :
  match second_attempt w s with
  | (Ok g, s') => (∃ p c, g = Yield_114 p c) ∧ gen_holds s s' g
  | (Raise _, s') => same_leases s s'
  end.
Proof.
  unfold second_attempt, bind.
  pose proof (get_connection_pool_leases w s) as Hacq.
  destruct (_get_connection_pool w s) as [[p|e] s1]; simpl in *; [| done].
  pose proof (getconn_leases w s1 p) as Hget.
  destruct (getconn p w s1) as [[c|e] s2]; [| by eapply same_leases_trans].
  apply (holds_lease_base s) in Hget; [| done].
  unfold gen_try_finally, bind, enter, modify, ret. simpl.
  split; [eauto |]. by apply (holds_lease_pools _ s2).
Qed.

Lemma retry_block_leases w s :
  match retry_block w s with
  | (Ok g, s') => (∃ p c, g = Yield_114 p c) ∧ gen_holds s s' g
  | (Raise _, s') => same_leases s s'
  end.
Proof.
  rewrite retry_block_eq.
  pose proof (reset_pool_leases w s) as Hreset.
  pose proof (second_attempt_leases w (_reset_pool w s).2) as Hsecond.
  destruct (second_attempt w (_reset_pool w s).2) as [[g|e] s'].
  - destruct Hsecond as [(p & c & ->) Hh]. split; [eauto |].
    by apply (holds_lease_base s) in Hh.
  - destruct (is_OperationalError e); by eapply same_leases_trans.
Qed.

Lemma get_connection_start_leases w s :
  match get_connection_start w s with
  | (Ok g, s') => suspended g = true ∧ gen_holds s s' g
  | (Raise _, s') => same_leases s s'
  end.
Proof.
  rewrite get_connection_start_eq.
  pose proof (first_attempt_leases w s) as Hfirst.
  destruct (first_attempt w s) as [[g|e] s1].
  - destruct Hfirst as [(p & c & ->) Hh]. done.
  - destruct (is_OperationalError e); [| done].
    pose proof (retry_block_leases w s1) as Hretry.
    destruct (retry_block w s1) as [[g|e'] s2].
    + destruct Hretry as [(p & c & ->) Hh]. split; [done |].
      by apply (holds_lease_base s) in Hh.
    + by eapply same_leases_trans.
Qed.

(** Resuming a suspended generator first returns its connection. *)
Lemma finally_putconn_held w s0 s p c r :
  holds_lease s0 s p c →
  ∃ s1, same_leases s0 s1
    ∧ gen_try_finally (resumed r) (putconn p c) w s
      = (match r with Next => Ok Returned | Throw e => Raise e end, s1).
Proof.
  intros Hh. destruct (putconn_held w s0 s p c Hh) as (s1 & Hput & Hs1).
  exists s1. split; [done |].
  unfold gen_try_finally, resumed. destruct r; unfold ret, raise; simpl; by rewrite Hput.
Qed.

Lemma get_connection_resume_leases w s0 s g r :
  suspended g = true → gen_holds s0 s g →
  match get_connection_resume g r w s with
  | (Ok g', s') => gen_holds s0 s' g'
  | (Raise _, s') => same_leases s0 s'
  end.
Proof.
  intros Hg Hh.
  destruct g as [p c|p c|]; [| | done]; simpl in Hh;
    unfold get_connection_resume, except_OperationalError, try_except;
    destruct (finally_putconn_held w s0 s p c r Hh) as (s1 & Hs1 & ->);
    destruct r as [|e]; try done.
  - destruct (is_OperationalError e); [| done].
    pose proof (retry_block_leases w s1) as Hretry.
    destruct (retry_block w s1) as [[g|e'] s2].
    + destruct Hretry as [(p' & c' & ->) Hh']. simpl.
      by apply (holds_lease_base s0) in Hh'.
    + by eapply same_leases_trans.
  - by destruct (is_OperationalError e).
Qed.

Lemma resume_throw_other w s0 s g e :
  suspended g = true → gen_holds s0 s g → is_OperationalError e = false →
  ∃ s', get_connection_resume g (Throw e) w s = (Raise e, s') ∧ same_leases s0 s'.
Proof.
  intros Hg Hh He.
  destruct g as [p c|p c|]; [| | done]; simpl in Hh;
    unfold get_connection_resume, except_OperationalError, try_except;
    destruct (finally_putconn_held w s0 s p c (Throw e) Hh) as (s1 & Hs1 & ->);
    rewrite He; eauto.
Qed.

Lemma gen_close_leases w s0 s g :
  suspended g = true → gen_holds s0 s g →
  ∃ s', gen_close g w s = (Ok tt, s') ∧ same_leases s0 s'.
Proof.
  intros Hg Hh. unfold gen_close.
  destruct (resume_throw_other w s0 s g GeneratorExit Hg Hh eq_refl) as (s' & -> & Hs').
  eauto.
Qed.

(** After [__exit__] every lease is back, unless the generator has yielded
    a second time: then it is abandoned holding one connection, which
    closing it would return. *)
Lemma cm_exit_leases w s0 s g exc :
  suspended g = true → gen_holds s0 s g →
  let r := cm_exit g exc w s in
  same_leases s0 r.2
  ∨ ∃ p c msg,
      r.1 = Raise (RuntimeError msg)
      ∧ holds_lease s0 r.2 p c
      ∧ ∃ s', gen_close (Yield_114 p c) w r.2 = (Ok tt, s') ∧ same_leases s0 s'.
Proof.
  intros Hg Hh. unfold cm_exit.
  set (r := match exc with Some value => Throw value | None => Next end).
  assert (Hres : match get_connection_resume g r w s with
                 | (Ok g', s') =>
                     gen_holds s0 s' g'
                     ∧ (g' = Returned ∨ ∃ p c, g' = Yield_114 p c)
                 | (Raise _, s') => same_leases s0 s'
                 end).
  { pose proof (get_connection_resume_leases w s0 s g r Hg Hh) as Hl.
    destruct (get_connection_resume g r w s) as [[g'|e] s1] eqn:Hr; [| done].
    split; [done |]. destruct g as [p c|p c|]; [| | done].
    - by eapply resume_104_yields.
    - left. unfold get_connection_resume, except_OperationalError, try_except in Hr.
      destruct (finally_putconn_held w s0 s p c r Hh) as (s2 & _ & Hfin).
      rewrite Hfin in Hr. destruct r as [|e]; [by simplify_eq |].
      destruct (is_OperationalError e); by simplify_eq. }
  assert (Hgoal : ∀ msg (b : bool),
    let r' := (g' <-- get_connection_resume g r ;;
               if suspended g' then raise (RuntimeError msg) else ret b) w s in
    same_leases s0 r'.2
    ∨ ∃ p c msg,
        r'.1 = Raise (RuntimeError msg)
        ∧ holds_lease s0 r'.2 p c
        ∧ ∃ s', gen_close (Yield_114 p c) w r'.2 = (Ok tt, s') ∧ same_leases s0 s').
  { intros msg b. unfold bind.
    destruct (get_connection_resume g r w s) as [[g'|e] s1]; simpl; [| by left].
    destruct Hres as [Hh' [-> | (p & c & ->)]]; simpl; [by left |].
    right. exists p, c, msg. split; [done |]. split; [done |].
    by apply gen_close_leases. }
  destruct exc as [value|]; apply Hgoal.
Qed.

(** On the path with two yields the second connection stays checked out
    until the suspended generator is closed. *)
Lemma second_lease_pending_until_close :
  let w := dropped_session_world in
  let s1 := (get_connection_start w initial_state).2 in
  let s2 := (query_block "SELECT 2" None 0 w s1).2 in
  let lost := Psycopg2 OperationalError "server closed the connection unexpectedly" in
  let r := get_connection_resume (Yield_104 0 0) (Throw lost) w s2 in
  r.1 = Ok (Yield_114 1 0)
  ∧ elements (leases r.2 1) = [0]
  ∧ elements (leases (gen_close (Yield_114 1 0) w r.2).2 1) = [].
Proof. vm_compute. repeat split; reflexivity. Qed.

(** Around any block that leaves the pools alone, every connection that
    [get_connection] leases is back in its pool when the [with] statement is
    left, except when the statement is left with the generator suspended at
    its second [yield]: then exactly one connection is still checked out,
    and closing the abandoned generator returns it. *)
Lemma leases_after_with {A} (body : nat → M A) (w : world) (s : state) :
  (∀ c s1, pools (body c w s1).2 = pools s1) →
  let r := with_get_connection body w s in
  same_leases s r.2
  ∨ ∃ p c msg,
      r.1 = Raise (RuntimeError msg)
      ∧ holds_lease s r.2 p c
      ∧ ∃ s', gen_close (Yield_114 p c) w r.2 = (Ok tt, s') ∧ same_leases s s'.
Proof.
  intros Hbody.
  unfold with_get_connection, cm_enter, bind.
  pose proof (get_connection_start_leases w s) as Hstart.
  destruct (get_connection_start w s) as [[g|e] s1]; [| by left].
  destruct Hstart as [Hg Hh].
  assert (Hret : (match g with
                  | Yield_104 _ conn | Yield_114 _ conn => ret (g, conn)
                  | Returned => raise (RuntimeError "generator didn't yield")
                  end) w s1
                 = (Ok (g, match g with
                           | Yield_104 _ conn | Yield_114 _ conn => conn
                           | Returned => 0 end), s1)).
  { destruct g; done. }
  rewrite Hret. simpl.
  set (c := match g with Yield_104 _ conn | Yield_114 _ conn => conn | Returned => 0 end).
  specialize (Hbody c s1).
  destruct (body c w s1) as [[a|eb] s2]; simpl in Hbody;
    apply (gen_holds_pools s s1 s2) in Hh; try done.
  - pose proof (cm_exit_leases w s s2 g None Hg Hh) as Hexit.
    destruct (cm_exit g None w s2) as [[b|e'] s3]; simpl in *.
    + destruct Hexit as [Hs | (p & c' & msg & Hr & _)]; [by left | done].
    + destruct Hexit as [Hs | (p & c' & msg & [= ->] & Hrest)]; [by left |].
      right. by exists p, c', msg.
  - pose proof (cm_exit_leases w s s2 g (Some eb) Hg Hh) as Hexit.
    pose proof (cm_exit_never_declines w s2 g eb) as Hdecl.
    destruct (cm_exit g (Some eb) w s2) as [[[]|e'] s3]; simpl in *.
    + destruct Hexit as [Hs | (p & c' & msg & Hr & _)]; [by left | done].
    + by destruct (Hdecl s3).
    + destruct Hexit as [Hs | (p & c' & msg & [= ->] & Hrest)]; [by left |].
      right. by exists p, c', msg.
Qed.

(** When no statement leaves the generator suspended, that is, when the
    block raises no [OperationalError], the leases are as before. *)
Lemma leases_returned_without_operational_error {A} (body : nat → M A) w s :
  (∀ c s1, pools (body c w s1).2 = pools s1) →
  (∀ c s1 e, (body c w s1).1 = Raise e → is_OperationalError e = false) →
  same_leases s (with_get_connection body w s).2.
Proof.
  intros Hbody Hother.
  unfold with_get_connection, cm_enter, bind.
  pose proof (get_connection_start_leases w s) as Hstart.
  destruct (get_connection_start w s) as [[g|e] s1]; [| done].
  destruct Hstart as [Hg Hh].
  destruct g as [p c|p c|]; [| | done]; unfold ret; simpl in *;
    specialize (Hbody c s1); specialize (Hother c s1);
    destruct (body c w s1) as [[a|eb] s2]; simpl in *;
    apply (holds_lease_pools s s1 s2) in Hh; try done.
  1,3: destruct (finally_putconn_held w s s2 p c Next Hh) as (s3 & Hs3 & Hfin);
       unfold cm_exit, bind, get_connection_resume, except_OperationalError, try_except;
       by rewrite Hfin.
  all: match goal with
       | |- context [cm_exit ?g _] =>
           destruct (resume_throw_other w s s2 g eb eq_refl Hh (Hother eb eq_refl))
             as (s3 & Hres & Hs3)
       end;
       unfold cm_exit, bind; by rewrite Hres.
Qed.

(** C5, at the failing input.  The probe succeeds, then [cursor.execute]
    loses the session; the pool can be rebuilt.  The generator returns the
    first connection, rebuilds the pool, leases a second connection and
    yields it; the [with] statement is left by [RuntimeError] with that
    second connection still checked out of the new pool. *)
Theorem C5_lease_outstanding_after_double_yield :
  let w := dropped_session_world in
  let r := execute_query "SELECT 2" None w initial_state in
  r.1 = Raise (RuntimeError "generator didn't stop after throw()")
  ∧ _connection_pool r.2 = Some 1
  ∧ elements (leases initial_state 1) = []
  ∧ elements (leases r.2 1) = [0]
  ∧ count is_lease_attempt (trace r.2) = 2
  ∧ drop 12 (trace r.2)
    = [Ev_putconn 0 0; Ev_enter_reset_pool; Ev_closeall 0;
       Ev_enter_get_connection_pool; Ev_get_database_instance;
       Ev_current_user_me; Ev_time; Ev_generate_database_credential;
       Ev_ThreadedConnectionPool (Some 1); Ev_getconn 1 (Some 0); Ev_yield 0].
Proof. vm_compute. repeat split; reflexivity. Qed.

Lemma query_handlers_not_operational e k w s e' :
  is_OperationalError e = false →
  query_handlers e = Some k → (k w s).1 = Raise e' →
  is_OperationalError e' = false.
Proof.
  unfold query_handlers. intros He.
  destruct (is_DatabaseConnectionError e) eqn:E1.
  { intros [= <-]. unfold raise. simpl. by intros [= <-]. }
  destruct (is_ProgrammingError e) eqn:E2.
  { intros [= <-]. unfold raise. simpl. by intros [= <-]. }
  destruct (is_psycopg2_Error e) eqn:E3; [| done].
  intros [= <-]. unfold raise. simpl. by intros [= <-].
Qed.

Lemma execute_query_not_operational sql params w s e :
  (execute_query sql params w s).1 = Raise e → is_OperationalError e = false.
Proof.
  unfold execute_query, try_except.
  pose proof (with_get_connection_not_operational (query_block sql params) w s) as H.
  destruct (with_get_connection (query_block sql params) w s) as [[a|e'] s1];
    simpl in *; [done |].
  specialize (H e' eq_refl).
  destruct (query_handlers e') as [k|] eqn:Hk.
  - by eapply query_handlers_not_operational.
  - by intros [= <-].
Qed.

(** C2, as amended.  A failure of the first attempt that is a
    [psycopg2.OperationalError] (a pool that cannot be built, a lease that
    cannot connect, a probe on a dead connection) is recovered by exactly
    one reset-and-retry, and neither [get_connection] nor [execute_query]
    ever lets a [psycopg2.OperationalError] through to the caller.  A
    failure of any other class, such as an error of the credential provider
    during endpoint resolution or token issuance, is not retried: there is
    no reset and the caller observes that very exception. *)
Theorem C2_only_operational_errors_recovered (w : world) (s s1 : state) (e : exn) :
  first_attempt w s = (Raise e, s1) →
  (is_OperationalError e = true →
     get_connection_start w s = retry_block w s1
     ∧ count is_reset (events_since s (get_connection_start w s).2) = 1)
  ∧ (is_OperationalError e = false →
     get_connection_start w s = (Raise e, s1)
     ∧ count is_reset (events_since s s1) = 0
     ∧ (∀ A (body : nat → M A), with_get_connection body w s = (Raise e, s1))
     ∧ (∀ sql params, is_psycopg2_Error e = false →
          is_DatabaseConnectionError e = false →
          execute_query sql params w s = (Raise e, s1)))
  ∧ (∀ A (body : nat → M A) e',
       (with_get_connection body w s).1 = Raise e' → is_OperationalError e' = false)
  ∧ (∀ sql params e',
       (execute_query sql params w s).1 = Raise e' → is_OperationalError e' = false).
Proof.
  intros Hfirst.
  destruct (first_attempt_events w s) as (e1 & H1 & A1 & L1 & R1 & X1 & Y1 & Q1).
  rewrite Hfirst in H1. simpl in H1.
  split; [| split; [| split]].
  - intros Hop.
    assert (Hr : get_connection_start w s = retry_block w s1).
    { by rewrite get_connection_start_eq, Hfirst, Hop. }
    split; [exact Hr |].
    destruct (retry_block_events w s1) as (e2 & H2 & A2 & L2 & R2 & X2 & Y2 & Q2).
    rewrite (events_since_app _ _ (e1 ++ Ev_enter_reset_pool :: e2)).
    + rewrite count_app. simpl. rewrite R1, R2. done.
    + by rewrite Hr, H2, H1, <- app_assoc.
  - intros Hop.
    assert (Hr : get_connection_start w s = (Raise e, s1)).
    { by rewrite get_connection_start_eq, Hfirst, Hop. }
    assert (Hw : ∀ A (body : nat → M A), with_get_connection body w s = (Raise e, s1)).
    { intros A body. unfold with_get_connection, cm_enter, bind. by rewrite Hr. }
    split; [exact Hr |]. split; [by rewrite (events_since_app _ _ _ H1) |].
    split; [exact Hw |].
    intros sql params Hpg Hdce. unfold execute_query, try_except. rewrite Hw.
    unfold query_handlers. rewrite Hdce, Hpg.
    destruct e as [[] ?| | | | |]; done.
  - intros A body e'. apply with_get_connection_not_operational.
  - intros sql params e'. apply execute_query_not_operational.
Qed.

Lemma C2_only_operational_errors_recovered_witness :
  let s1 := (first_attempt token_denied_world initial_state).2 in
  get_connection_start token_denied_world initial_state
  = (Raise (OtherException "PermissionDenied" "not allowed to generate credentials"), s1)
  ∧ count is_reset (events_since initial_state s1) = 0.
Proof.
  intros s1.
  assert (Hfirst : first_attempt token_denied_world initial_state
            = (Raise (OtherException "PermissionDenied" "not allowed to generate credentials"), s1)).
  { vm_compute. reflexivity. }
  destruct (C2_only_operational_errors_recovered token_denied_world initial_state s1 _ Hfirst)
    as (_ & Hother & _).
  destruct (Hother eq_refl) as (H1 & H2 & _).
  split; [exact H1 | exact H2].
Defined.

(** C2 as stated fails: when the provider refuses to issue a token, there
    is no reset and no retry, and the caller of [execute_query] observes the
    provider's own exception. *)
Lemma C2_counterexample :
  let r := execute_query "SELECT 1 AS x" None token_denied_world initial_state in
  r.1 = Raise (OtherException "PermissionDenied" "not allowed to generate credentials")
  ∧ count is_token_issuance (trace r.2) = 1
  ∧ count is_reset (trace r.2) = 0
  ∧ count is_acquire_pool (trace r.2) = 1.
Proof. vm_compute. repeat split; reflexivity. Qed.

(* ------------------------------------------------------------------ *)
(** ** An [OperationalError] raised by the block of the [with] statement *)





(* ------------------------------------------------------------------ *)
(** ** The block of [execute_query] *)

Lemma mapM_new_dict columns rows w s :
  mapM (fun row => new_dict (zip columns row)) rows w s
  = (Ok (seq (length (heap s)) (length rows)),
     set_heap (heap s ++ map (fun row => dict_of_pairs (zip columns row)) rows) s).
Proof.
  revert s. induction rows as [|row rows IH]; intros s.
  - simpl. unfold ret. f_equal. destruct s. unfold set_heap. simpl.
    by rewrite app_nil_r.
  - simpl. unfold bind at 1. unfold new_dict at 1.
    unfold bind at 1. rewrite IH. unfold ret. simpl.
    rewrite length_app. simpl. rewrite Nat.add_1_r.
    f_equal. unfold set_heap. simpl. by rewrite <- app_assoc.
Qed.

Lemma query_block_trace sql params c w s :
  trace (query_block sql params c w s).2
  = trace s ++ query_block_events w s sql params c.
Proof.
  unfold query_block, query_block_events, column_names, py_format, bind.
  unfold_service. simpl.
  destruct (conn_cursor w (tick s)); simpl; [done |].
  destruct (str_format sql (lakebase_schema (settings w))); simpl; [done |].
  destruct (cursor_execute w (S (tick s)) s0 params) as [e|cur]; simpl;
    [by rewrite <- app_assoc |].
  destruct (description cur); simpl; [| by rewrite <- app_assoc].
  destruct (fetchall_result cur); simpl; [by rewrite <- !app_assoc |].
  rewrite mapM_new_dict. simpl. by rewrite <- !app_assoc.
Qed.

Lemma query_block_pools sql params c w s :
  pools (query_block sql params c w s).2 = pools s.
Proof.
  unfold query_block, column_names, py_format, bind.
  unfold_service. simpl.
  destruct (conn_cursor w (tick s)); simpl; [done |].
  destruct (str_format sql (lakebase_schema (settings w))); simpl; [done |].
  destruct (cursor_execute w (S (tick s)) s0 params) as [e|cur]; simpl; [done |].
  destruct (description cur); simpl; [| done].
  destruct (fetchall_result cur); simpl; [done |].
  rewrite mapM_new_dict. done.
Qed.

(* ------------------------------------------------------------------ *)
(** ** The statements of one [execute_query] *)

Lemma get_connection_resume_events w s g r :
  ∃ evs, trace (get_connection_resume g r w s).2 = trace s ++ evs
    ∧ statements evs = [].
Proof.
  destruct g as [p c|p c|].
  - destruct (resume_104_events w s p c r) as (evs & H & _ & _ & _ & _ & _ & Q). eauto.
  - destruct (resume_114_events w s p c r) as (evs & H & _ & _ & _ & _ & _ & Q). eauto.
  - exists []. unfold get_connection_resume, resumed. rewrite app_nil_r.
    by destruct r.
Qed.

Lemma cm_exit_events w s g exc :
  ∃ evs, trace (cm_exit g exc w s).2 = trace s ++ evs ∧ statements evs = [].
Proof. rewrite cm_exit_state. apply get_connection_resume_events. Qed.

Lemma cm_enter_state w s : (cm_enter w s).2 = (get_connection_start w s).2.
Proof.
  unfold cm_enter, bind.
  by destruct (get_connection_start w s) as [[[]|e] s1].
Qed.

Lemma execute_query_state sql params w s :
  (execute_query sql params w s).2
  = (with_get_connection (query_block sql params) w s).2.
Proof.
  unfold execute_query, try_except.
  destruct (with_get_connection (query_block sql params) w s) as [[a|e] s1]; [done |].
  unfold query_handlers.
  destruct (is_DatabaseConnectionError e); [done |].
  destruct (is_ProgrammingError e); [done |].
  by destruct (is_psycopg2_Error e).
Qed.

Lemma statements_query_block_events w s sql params c :
  statements (query_block_events w s sql params c) = block_statements w s sql params.
Proof.
  unfold query_block_events, block_statements. simpl.
  destruct (conn_cursor w (tick s)); [done |].
  destruct (str_format sql (lakebase_schema (settings w))) as [e|f]; [done |].
  simpl. f_equal.
  destruct (cursor_execute w (S (tick s)) f params) as [e|cur]; [done |].
  by destruct (description cur).
Qed.

Lemma execute_query_statements sql params w s :
  statements (events_since s (execute_query sql params w s).2)
  = statements (events_since s (cm_enter w s).2)
    ++ match cm_enter w s with
       | (Ok gc, s1) => block_statements w s1 sql params
       | (Raise _, _) => []
       end.
Proof.
  rewrite execute_query_state.
  destruct (get_connection_start_events w s) as (e1 & H1 & _).
  rewrite <- cm_enter_state in H1.
  unfold with_get_connection, bind.
  destruct (cm_enter w s) as [[[g c]|e] s1]; simpl in *.
  2:{ by rewrite app_nil_r. }
  pose proof (query_block_trace sql params c w s1) as Hb.
  rewrite (events_since_app s s1 e1) by done.
  assert (Hexit : ∀ exc s2, trace s2 = trace s1 ++ query_block_events w s1 sql params c →
            statements (events_since s (cm_exit g exc w s2).2)
            = statements e1 ++ block_statements w s1 sql params).
  { intros exc s2 Hs2.
    destruct (cm_exit_events w s2 g exc) as (e3 & H3 & Q3).
    rewrite (events_since_app _ _ (e1 ++ query_block_events w s1 sql params c ++ e3)).
    - by rewrite !statements_app, Q3, app_nil_r, statements_query_block_events.
    - by rewrite H3, Hs2, H1, <- !app_assoc. }
  destruct (query_block sql params c w s1) as [[a|eb] s2]; simpl in Hb.
  - rewrite <- (Hexit None s2 Hb).
    by destruct (cm_exit g None w s2) as [[b|e'] s3].
  - rewrite <- (Hexit (Some eb) s2 Hb).
    by destruct (cm_exit g (Some eb) w s2) as [[[]|e'] s3].
Qed.

(** C7.  The SQL texts that one [execute_query] hands to the driver are
    the same whatever the parameters: two calls with one template and
    different parameters send identical texts.  Every statement sent is
    either the liveness probe, without parameters, or the template with
    its schema slot substituted, and then the parameters travel next to
    the text, as the second argument of [cursor.execute]. *)
Theorem C7_sql_text_independent_of_params (w : world) (s : state)
    (sql : string) (params params' : option (list pyval)) :
  sql_texts (events_since s (execute_query sql params w s).2)
  = sql_texts (events_since s (execute_query sql params' w s).2)
  ∧ ∀ text ps,
      (text, ps) ∈ statements (events_since s (execute_query sql params w s).2) →
      (text = "SELECT 1" ∧ ps = None)
      ∨ (str_format sql (lakebase_schema (settings w)) = inr text ∧ ps = params).
Proof.
  split.
  - unfold sql_texts. rewrite !execute_query_statements, !map_app. f_equal.
    destruct (cm_enter w s) as [[gc|e] s1]; [| done].
    unfold block_statements.
    destruct (conn_cursor w (tick s1)); [done |].
    by destruct (str_format sql (lakebase_schema (settings w))).
  - intros text ps. rewrite execute_query_statements, elem_of_app.
    intros [Hin | Hin].
    + left. rewrite cm_enter_state in Hin.
      destruct (get_connection_start_events w s) as (e1 & H1 & _ & _ & _ & _ & Q1).
      rewrite (events_since_app _ _ _ H1) in Hin.
      destruct Q1 as [Q1 | Q1]; rewrite Q1 in Hin.
      * by apply elem_of_nil in Hin.
      * apply list_elem_of_singleton in Hin. by injection Hin.
    + right. destruct (cm_enter w s) as [[gc|e] s1]; [| by apply elem_of_nil in Hin].
      unfold block_statements in Hin.
      destruct (conn_cursor w (tick s1)); [by apply elem_of_nil in Hin |].
      destruct (str_format sql (lakebase_schema (settings w))) as [e|f];
        [by apply elem_of_nil in Hin |].
      apply list_elem_of_singleton in Hin. by injection Hin as -> ->.
Qed.

Lemma C7_sql_text_independent_of_params_witness :
  let template := "SELECT city FROM {schema}.city_investment WHERE city = %s" in
  let run := fun city =>
    events_since initial_state
      (execute_query template (Some [PStr city]) steady_world initial_state).2 in
  str_format template "gold" = inr "SELECT city FROM gold.city_investment WHERE city = %s"
  ∧ sql_texts (run "Austin") = sql_texts (run "Dallas").
Proof.
  intros template run.
  destruct (C7_sql_text_independent_of_params steady_world initial_state template
              (Some [PStr "Austin"]) (Some [PStr "Dallas"])) as [Hsame Hstmt].
  split; [| exact Hsame].
  destruct (Hstmt "SELECT city FROM gold.city_investment WHERE city = %s"
              (Some [PStr "Austin"])) as [[Hprobe _] | [Hfmt _]].
  - replace (statements _) with
      [("SELECT 1", None);
       ("SELECT city FROM gold.city_investment WHERE city = %s", Some [PStr "Austin"])]
      by (vm_compute; reflexivity).
    apply list_elem_of_further, list_elem_of_here.
  - discriminate Hprobe.
  - exact Hfmt.
Defined.

(* ------------------------------------------------------------------ *)
(** ** The heap of row dictionaries *)

Lemma first_attempt_heap w s : heap (first_attempt w s).2 = heap s.
Proof. unfold_generator. simpl. by run_all. Qed.

Lemma second_attempt_heap w s : heap (second_attempt w s).2 = heap s.
Proof. unfold_generator. simpl. by run_all. Qed.

Lemma reset_pool_heap w s : heap (_reset_pool w s).2 = heap s.
Proof. unfold_service. simpl. by run_all. Qed.

Lemma putconn_heap w s p c : heap (putconn p c w s).2 = heap s.
Proof. unfold_service. simpl. by run_all. Qed.

Lemma retry_block_heap w s : heap (retry_block w s).2 = heap s.
Proof.
  rewrite retry_block_eq.
  pose proof (second_attempt_heap w (_reset_pool w s).2) as H.
  rewrite reset_pool_heap in H.
  destruct (second_attempt w (_reset_pool w s).2) as [[g|e] s']; [done |].
  by destruct (is_OperationalError e).
Qed.

Lemma get_connection_start_heap w s : heap (get_connection_start w s).2 = heap s.
Proof.
  rewrite get_connection_start_eq.
  pose proof (first_attempt_heap w s) as H.
  destruct (first_attempt w s) as [[g|e] s1]; [done |].
  destruct (is_OperationalError e); [| done].
  by rewrite retry_block_heap.
Qed.

Lemma get_connection_resume_heap w s g r :
  heap (get_connection_resume g r w s).2 = heap s.
Proof.
  assert (Hfin : ∀ p c, heap (gen_try_finally (resumed r) (putconn p c) w s).2 = heap s).
  { intros p c. pose proof (putconn_heap w s p c) as H.
    unfold gen_try_finally, resumed, ret, raise.
    destruct r; simpl; by destruct (putconn p c w s) as [[[]|e0] s1]. }
  destruct g as [p c|p c|]; unfold get_connection_resume.
  - unfold except_OperationalError, try_except. specialize (Hfin p c).
    destruct (gen_try_finally (resumed r) (putconn p c) w s) as [[g|e] s1]; [done |].
    destruct (is_OperationalError e); [| done].
    by rewrite retry_block_heap.
  - unfold except_OperationalError, try_except. specialize (Hfin p c).
    destruct (gen_try_finally (resumed r) (putconn p c) w s) as [[g|e] s1]; [done |].
    by destruct (is_OperationalError e).
  - by destruct r.
Qed.

Lemma cm_exit_heap w s g exc : heap (cm_exit g exc w s).2 = heap s.
Proof. rewrite cm_exit_state. apply get_connection_resume_heap. Qed.

Lemma query_block_ok sql params c w s addrs s' :
  query_block sql params c w s = (Ok addrs, s') →
  ∃ formatted cur cols rows,
    str_format sql (lakebase_schema (settings w)) = inr formatted
    ∧ cursor_execute w (S (tick s)) formatted params = inr cur
    ∧ description cur = Some cols
    ∧ fetchall_result cur = inr rows
    ∧ addrs = seq (length (heap s)) (length rows)
    ∧ heap s' = heap s ++ map (fun row => dict_of_pairs (zip (map fst cols) row)) rows.
Proof.
  unfold query_block, column_names, py_format, bind.
  unfold_service. simpl.
  destruct (conn_cursor w (tick s)); simpl; [done |].
  destruct (str_format sql (lakebase_schema (settings w))) as [e|f]; simpl; [done |].
  destruct (cursor_execute w (S (tick s)) f params) as [e|cur] eqn:Hcur; simpl; [done |].
  destruct (description cur) as [cols|] eqn:Hd; simpl; [| done].
  destruct (fetchall_result cur) as [e|rows] eqn:Hf; simpl; [done |].
  rewrite mapM_new_dict. simpl. intros [= <- <-].
  exists f, cur, cols, rows. done.
Qed.

Lemma deref_fresh (h : list pydict) (l : list pydict) :
  map (fun a => (h ++ l) !! a) (seq (length h) (length l)) = map Some l.
Proof.
  revert h. induction l as [|d l IH]; intros h; [done |].
  simpl. rewrite list_lookup_middle by done. f_equal.
  specialize (IH (h ++ [d])). rewrite length_app, <- app_assoc in IH. simpl in IH.
  by rewrite Nat.add_1_r in IH.
Qed.

Lemma dict_setitem_fresh (d : pydict) k v :
  k ∉ map fst d → dict_setitem d k v = d ++ [(k, v)].
Proof.
  induction d as [|[k' v'] d IH]; simpl; [done |].
  intros Hk. apply not_elem_of_cons in Hk as [Hne Hk].
  rewrite bool_decide_eq_false_2 by done. by rewrite IH.
Qed.

Lemma dict_of_pairs_from (acc l : pydict) :
  NoDup (map fst (acc ++ l)) →
  fold_left (fun d kv => dict_setitem d kv.1 kv.2) l acc = acc ++ l.
Proof.
  revert acc. induction l as [|[k v] l IH]; intros acc Hnd; simpl.
  - by rewrite app_nil_r.
  - rewrite dict_setitem_fresh.
    + rewrite IH; rewrite <- app_assoc; done.
    + rewrite map_app in Hnd. simpl in Hnd.
      apply list.NoDup_app in Hnd as (_ & Hdisj & _).
      intros Hin. apply (Hdisj k Hin). left.
Qed.

Lemma dict_of_pairs_distinct (l : pydict) :
  NoDup (map fst l) → dict_of_pairs l = l.
Proof. intros H. unfold dict_of_pairs. by rewrite dict_of_pairs_from. Qed.

Lemma dict_get_zip (ks : list string) (vs : list pyval) i k v :
  NoDup ks → ks !! i = Some k → vs !! i = Some v →
  dict_get (zip ks vs) k = Some v.
Proof.
  revert vs i. induction ks as [|k0 ks IH]; intros vs i Hnd Hk Hv; [done |].
  destruct vs as [|v0 vs]; [done |].
  apply list.NoDup_cons in Hnd as [Hnotin Hnd]. simpl.
  destruct i as [|i]; simpl in *.
  - injection Hk as ->. injection Hv as ->. by rewrite bool_decide_eq_true_2.
  - rewrite bool_decide_eq_false_2.
    + by apply (IH vs i).
    + intros ->. apply Hnotin. by eapply list_elem_of_lookup_2.
Qed.

(** C8.  A successful [execute_query] returns one dictionary per fetched
    row, in the order of the rows; the dictionary of a row is
    [dict(zip(columns, row))], with the columns in the order of the
    cursor's description and each column name mapped to the value at its
    position whenever the column names are distinct.  The
    dictionaries are fresh and pairwise distinct objects, so that writing
    to one leaves the others as they are. *)
Theorem C8_rows_as_dicts (w : world) (s s' : state) (sql : string)
    (params : option (list pyval)) (addrs : list nat) :
  execute_query sql params w s = (Ok (Some addrs), s') →
  ∃ n formatted cur cols rows,
    str_format sql (lakebase_schema (settings w)) = inr formatted
    ∧ cursor_execute w n formatted params = inr cur
    ∧ description cur = Some cols
    ∧ fetchall_result cur = inr rows
    ∧ length addrs = length rows
    ∧ deref s' addrs
      = map (fun row => Some (dict_of_pairs (zip (map fst cols) row))) rows
    ∧ (∀ row, NoDup (map fst cols) → length row = length cols →
         dict_of_pairs (zip (map fst cols) row) = zip (map fst cols) row
         ∧ ∀ i k v, map fst cols !! i = Some k → row !! i = Some v →
             dict_get (dict_of_pairs (zip (map fst cols) row)) k = Some v)
    ∧ NoDup addrs
    ∧ (∀ a, a ∈ addrs → length (heap s) ≤ a)
    ∧ (∀ i j a b d, i ≠ j → addrs !! i = Some a → addrs !! j = Some b →
         <[a := d]> (heap s') !! b = heap s' !! b).
Proof.
  unfold execute_query, try_except.
  destruct (with_get_connection (query_block sql params) w s) as [[r|e] s0] eqn:Hwith.
  2:{ unfold query_handlers.
      destruct (is_DatabaseConnectionError e); [done |].
      destruct (is_ProgrammingError e); [done |].
      by destruct (is_psycopg2_Error e). }
  intros [= -> ->].
  unfold with_get_connection, bind in Hwith.
  pose proof (cm_enter_state w s) as Henter.
  destruct (cm_enter w s) as [[[g c]|e0] s1]; [| done]. simpl in *.
  assert (Hheap1 : heap s1 = heap s) by (rewrite Henter; apply get_connection_start_heap).
  destruct (query_block sql params c w s1) as [[a|eb] s2] eqn:Hblock.
  2:{ by destruct (cm_exit g (Some eb) w s2) as [[[]|e'] s3]. }
  pose proof (cm_exit_heap w s2 g None) as Hheap2.
  destruct (cm_exit g None w s2) as [[b|e'] s3]; [| done].
  simpl in *. injection Hwith as -> ->.
  apply query_block_ok in Hblock
    as (formatted & cur & cols & rows & Hf & Hc & Hd & Hr & -> & Hh).
  exists (S (tick s1)), formatted, cur, cols, rows.
  rewrite Hheap1 in *.
  split; [done |]. split; [done |]. split; [done |]. split; [done |].
  split; [| split; [| split; [intros row Hnd Hlen; split | repeat split]]].
  - by rewrite length_seq.
  - unfold deref. rewrite Hheap2, Hh.
    rewrite <- (length_map (fun row => dict_of_pairs (zip (map fst cols) row)) rows).
    rewrite deref_fresh. by rewrite map_map.
  - apply dict_of_pairs_distinct.
    replace (map fst (zip (map fst cols) row)) with (map fst cols); [done |].
    symmetry. apply fst_zip. rewrite length_map. lia.
  - intros i k v Hk Hv. rewrite dict_of_pairs_distinct.
    + by eapply dict_get_zip.
    + replace (map fst (zip (map fst cols) row)) with (map fst cols); [done |].
      symmetry. apply fst_zip. rewrite length_map. lia.
  - apply NoDup_seq.
  - intros a0 Ha. apply elem_of_seq in Ha. lia.
  - intros i j a0 b0 d Hij Hi Hj. apply list_lookup_insert_ne.
    intros ->. apply Hij. eapply NoDup_lookup; [apply NoDup_seq | done | done].
Qed.

Lemma C8_rows_as_dicts_witness :
  let r := execute_query "SELECT 1 AS x" None steady_world initial_state in
  r.1 = Ok (Some [0]) ∧ deref r.2 [0] = [Some [("x", PInt 1)]].
Proof.
  intros r.
  assert (Hrun : r = (Ok (Some [0]), r.2)) by (vm_compute; reflexivity).
  split; [by rewrite Hrun |].
  destruct (C8_rows_as_dicts steady_world initial_state r.2 "SELECT 1 AS x" None [0] Hrun)
    as (n & formatted & cur & cols & rows & _ & Hcur & Hd & Hf & _ & Hderef & _).
  injection Hcur as <-. injection Hd as <-. injection Hf as <-.
  exact Hderef.
Defined.

(* ------------------------------------------------------------------ *)
(** ** Errors of the block *)

Lemma block_error_passes_through {A} (body : nat → M A) w s s1 s2 g c e :
  cm_enter w s = (Ok (g, c), s1) →
  body c w s1 = (Raise e, s2) →
  pools s2 = pools s1 →
  is_OperationalError e = false →
  ∃ s3, with_get_connection body w s = (Raise e, s3).
Proof.
  intros Henter Hbody Hpools He.
  pose proof (cm_enter_suspended w s g c s1 Henter) as Hg.
  pose proof (get_connection_start_leases w s) as Hh.
  assert (Hstart : get_connection_start w s = (Ok g, s1)).
  { pose proof Henter as Hcopy. unfold cm_enter, bind in Hcopy.
    destruct (get_connection_start w s) as [[[]|e'] s']; simpl in Hcopy;
      unfold ret, raise in Hcopy; by simplify_eq. }
  rewrite Hstart in Hh. destruct Hh as [_ Hh].
  apply (gen_holds_pools s s1 s2) in Hh; [| done].
  destruct (resume_throw_other w s s2 g e Hg Hh He) as (s3 & Hres & _).
  exists s3. unfold with_get_connection, bind. rewrite Henter. simpl.
  rewrite Hbody. unfold cm_exit, bind. by rewrite Hres.
Qed.

Lemma query_handlers_mapping e :
  query_handlers e =
    if is_DatabaseConnectionError e then Some (raise e)
    else if is_psycopg2_Error e
         then Some (raise (DatabaseQueryError (Some (str e))))
         else None.
Proof.
  unfold query_handlers. destruct (is_DatabaseConnectionError e); [done |].
  destruct e as [[] ?| | | | |]; done.
Qed.

(** A driver error of the block other than [OperationalError] comes out of
    [execute_query] as [DatabaseQueryError] with the error's message; an
    exception that is no driver error comes out unchanged. *)
Lemma execute_query_block_error sql params w s s1 s2 g c e :
  cm_enter w s = (Ok (g, c), s1) →
  query_block sql params c w s1 = (Raise e, s2) →
  is_OperationalError e = false →
  ∃ s3, execute_query sql params w s
        = (Raise (if is_psycopg2_Error e
                  then DatabaseQueryError (Some (str e)) else e), s3).
Proof.
  intros Henter Hbody He.
  assert (Hpools : pools s2 = pools s1).
  { pose proof (query_block_pools sql params c w s1) as H. by rewrite Hbody in H. }
  destruct (block_error_passes_through (query_block sql params) w s s1 s2 g c e
              Henter Hbody Hpools He) as (s3 & Hwith).
  exists s3. unfold execute_query, try_except. rewrite Hwith, query_handlers_mapping.
  destruct (is_DatabaseConnectionError e) eqn:Hd.
  - destruct e; done.
  - by destruct (is_psycopg2_Error e).
Qed.

(** A [DatabaseConnectionError] of the connection manager passes through
    [execute_query] unchanged. *)
Lemma execute_query_connection_error sql params w s s1 d :
  with_get_connection (query_block sql params) w s
  = (Raise (DatabaseConnectionError d), s1) →
  execute_query sql params w s = (Raise (DatabaseConnectionError d), s1).
Proof.
  intros H. unfold execute_query, try_except. by rewrite H, query_handlers_mapping.
Qed.

(** C6, at the failing input.  The probe succeeds, then [cursor.execute]
    raises an [OperationalError] for the statement itself; the pool can be
    rebuilt.  [execute_query] then raises neither [DatabaseQueryError]
    carrying the driver's message nor the driver's error itself, but the
    [RuntimeError] of the context manager. *)
Theorem C6_operational_error_during_execution :
  let w := dropped_session_world in
  let s1 := (get_connection_start w initial_state).2 in
  cm_enter w initial_state = (Ok (Yield_104 0 0, 0), s1)
  ∧ (query_block "SELECT 2" None 0 w s1).1
    = Raise (Psycopg2 OperationalError "server closed the connection unexpectedly")
  ∧ (execute_query "SELECT 2" None w initial_state).1
    = Raise (RuntimeError "generator didn't stop after throw()").
Proof. vm_compute. repeat split; reflexivity. Qed.

(* ------------------------------------------------------------------ *)
(** ** Callers on several threads *)

(** The three steps of a thread, taken without preemption, are
    [_get_connection_pool]. *)
Lemma run_alone_is_get_connection_pool w s :
  run_alone w s =
    match _get_connection_pool w s with
    | (Ok p, s') => (Pc_done (Ok p), s')
    | (Raise e, s') => (Pc_done (Raise e), s')
    end.
Proof.
  unfold run_alone, thread_step, acquire_check, acquire_build, acquire_store.
  unfold_service. simpl. by run_all.
Qed.






(* ------------------------------------------------------------------ *)
(** ** The bounded retry *)

Lemma query_block_attempts w s sql params c :
  attempts_le (query_block_events w s sql params c) 0 0 0.
Proof.
  unfold attempts_le, query_block_events. simpl.
  destruct (conn_cursor w (tick s)); [simpl; lia |].
  destruct (str_format sql (lakebase_schema (settings w))) as [e|f]; [simpl; lia |].
  destruct (cursor_execute w (S (tick s)) f params) as [e|cur]; [simpl; lia |].
  destruct (description cur); simpl; lia.
Qed.




(* ------------------------------------------------------------------ *)
(** ** [_reset_pool] *)

(** X1.  [_reset_pool] never raises, whatever state the pool is in.
    Afterwards there is no pool handle and no cached token; the pool the
    handle named is closed; every other pool, the recorded configuration,
    the leases and the heap are as before; and [closeall] was called
    exactly when there was a handle. *)
Theorem X1_reset_pool_postcondition (w : world) (s : state) :
  let r := _reset_pool w s in
  r.1 = Ok tt
  ∧ _connection_pool r.2 = None
  ∧ _token_cache r.2 = (None, 0%Z)
  ∧ _pool_config r.2 = _pool_config s
  ∧ heap r.2 = heap s
  ∧ same_leases s r.2
  ∧ (∀ p, _connection_pool s = Some p → pool_is_closed r.2 p = true)
  ∧ (∀ q, _connection_pool s ≠ Some q → pools r.2 !! q = pools s !! q)
  ∧ events_since s r.2
    = Ev_enter_reset_pool ::
      match _connection_pool s with Some p => [Ev_closeall p] | None => [] end.
Proof.
  intros r. subst r.
  split; [apply reset_pool_ok |].
  split; [unfold_service; simpl; by run_all |].
  split; [unfold_service; simpl; by run_all |].
  split; [unfold_service; simpl; by run_all |].
  split; [apply reset_pool_heap |].
  split; [apply reset_pool_leases |].
  split; [| split].
  - intros p Hp. unfold pool_is_closed. unfold_service. simpl.
    run_all; simpl; rewrite ?lookup_insert_eq; simpl; congruence.
  - intros q Hq. unfold_service. simpl.
    run_all; simpl; try done.
    rewrite lookup_insert_ne; [done | congruence].
  - unfold_service. simpl.
    run_all; apply events_since_app; simpl; trace_shape.
Qed.

(** X2.  [_reset_pool] is idempotent: a second reset right after the
    first succeeds, calls no [closeall], and changes nothing but the event
    log. *)
Theorem X2_reset_pool_idempotent (w w' : world) (s : state) :
  let s1 := (_reset_pool w s).2 in
  _reset_pool w' s1 = (Ok tt, log Ev_enter_reset_pool s1).
Proof.
  unfold_service. simpl. by run_all.
Qed.

(* ------------------------------------------------------------------ *)
(** ** The handle, the token and the configuration go together *)

Lemma same_service_refl s : same_service s s.
Proof. by repeat split. Qed.

Lemma same_service_trans s1 s2 s3 :
  same_service s1 s2 → same_service s2 s3 → same_service s1 s3.
Proof.
  intros (A1 & B1 & C1 & D1) (A2 & B2 & C2 & D2).
  split; [congruence |]. split; [congruence |]. split; [congruence |].
  intros p. by rewrite D2, D1.
Qed.

Lemma same_service_frame s s' :
  _connection_pool s' = _connection_pool s → _token_cache s' = _token_cache s →
  _pool_config s' = _pool_config s → pools s' = pools s → same_service s s'.
Proof.
  intros A B C D. split; [done |]. split; [done |]. split; [done |].
  intros p. by rewrite D.
Qed.

Lemma coherent_same_service s s' : same_service s s' → coherent s → coherent s'.
Proof.
  intros (A & B & C & D) Hc p Hp. rewrite A in Hp.
  destruct (Hc p Hp) as (o & Ho & Hcl & Htok & Hcfg).
  specialize (D p). rewrite Ho in D. simpl in D.
  destruct (pools s' !! p) as [o'|]; [| done].
  injection D as D1 D2 D3. exists o'.
  repeat split; try done; congruence.
Qed.

Lemma truthy_token t : truthy t = true → t = Some (token_or_empty t).
Proof. by destruct t. Qed.

Lemma getconn_same_service w s p : same_service s (getconn p w s).2.
Proof.
  unfold_service. simpl. run_all; try (by apply same_service_frame).
  repeat split; try done. intros q. simpl.
  destruct (decide (q = p)) as [-> | Hne].
  - rewrite lookup_insert_eq.
    match goal with H : pools _ !! _ = Some _ |- _ => by rewrite H end.
  - by rewrite lookup_insert_ne.
Qed.

Lemma putconn_same_service w s p c : same_service s (putconn p c w s).2.
Proof.
  unfold_service. simpl. run_all; try (by apply same_service_frame).
  repeat split; try done. intros q. simpl.
  destruct (decide (q = p)) as [-> | Hne].
  - rewrite lookup_insert_eq.
    match goal with H : pools _ !! _ = Some _ |- _ => by rewrite H end.
  - by rewrite lookup_insert_ne.
Qed.

Lemma probe_same_service w s c : same_service s (probe c w s).2.
Proof. unfold_service. simpl. run_all; by apply same_service_frame. Qed.

Lemma query_block_same_service sql params c w s :
  same_service s (query_block sql params c w s).2.
Proof.
  unfold query_block, column_names, py_format, bind.
  unfold_service. simpl.
  destruct (conn_cursor w (tick s)); simpl; [by apply same_service_frame |].
  destruct (str_format sql (lakebase_schema (settings w))); simpl;
    [by apply same_service_frame |].
  destruct (cursor_execute w (S (tick s)) s0 params) as [e|cur]; simpl;
    [by apply same_service_frame |].
  destruct (description cur); simpl; [| by apply same_service_frame].
  destruct (fetchall_result cur); simpl; [by apply same_service_frame |].
  rewrite mapM_new_dict. by apply same_service_frame.
Qed.

Lemma get_connection_pool_coherent w s :
  coherent s → coherent (_get_connection_pool w s).2.
Proof.
  intros Hc. unfold_service. simpl. run_all.
  all: try (eapply coherent_same_service; [| exact Hc];
            apply same_service_frame; done).
  all: try (intros q Hq; simpl in Hq; congruence).
  all: intros q Hq; simpl in *; injection Hq as <-;
       eexists; rewrite lookup_insert_eq; repeat split; simpl; try done.
  match goal with H : _ && _ = true |- _ => apply andb_true_iff in H as [H _] end.
  by apply truthy_token.
Qed.

Lemma reset_pool_coherent w s : coherent (_reset_pool w s).2.
Proof.
  intros p Hp.
  assert (H : _connection_pool (_reset_pool w s).2 = None).
  { unfold_service. simpl. by run_all. }
  congruence.
Qed.

Lemma finally_putconn_same_service w s p c (x : result gen_state) :
  same_service s
    (match putconn p c w s with
     | (Ok _, s2) => (x, s2)
     | (Raise e', s2) => (Raise e', s2)
     end).2.
Proof.
  pose proof (putconn_same_service w s p c) as H.
  by destruct (putconn p c w s) as [[[]|?] ?].
Qed.

Lemma first_attempt_coherent w s : coherent s → coherent (first_attempt w s).2.
Proof.
  intros Hc. unfold first_attempt, bind.
  pose proof (get_connection_pool_coherent w s Hc) as Hacq.
  destruct (_get_connection_pool w s) as [[p|e] s1]; simpl in *; [| done].
  pose proof (getconn_same_service w s1 p) as Hget.
  destruct (getconn p w s1) as [[c|e] s2]; simpl in *;
    [| by eapply coherent_same_service].
  apply (coherent_same_service _ _ Hget) in Hacq.
  unfold gen_try_finally, bind.
  pose proof (probe_same_service w s2 c) as Hprobe.
  destruct (probe c w s2) as [[[]|e] s3]; simpl in *.
  - eapply coherent_same_service; [| exact Hacq].
    eapply same_service_trans; [exact Hprobe |]. by apply same_service_frame.
  - apply (coherent_same_service _ _ Hprobe) in Hacq.
    pose proof (putconn_same_service w s3 p c) as Hput.
    destruct (putconn p c w s3) as [[[]|?] ?]; by eapply coherent_same_service.
Qed.

Lemma second_attempt_coherent w s : coherent s → coherent (second_attempt w s).2.
Proof.
  intros Hc. unfold second_attempt, bind.
  pose proof (get_connection_pool_coherent w s Hc) as Hacq.
  destruct (_get_connection_pool w s) as [[p|e] s1]; simpl in *; [| done].
  pose proof (getconn_same_service w s1 p) as Hget.
  destruct (getconn p w s1) as [[c|e] s2]; simpl in *;
    [| by eapply coherent_same_service].
  apply (coherent_same_service _ _ Hget) in Hacq.
  unfold gen_try_finally, bind, enter, modify, ret. simpl.
  eapply coherent_same_service; [| exact Hacq]. by apply same_service_frame.
Qed.

Lemma retry_block_coherent w s : coherent (retry_block w s).2.
Proof.
  rewrite retry_block_eq.
  pose proof (second_attempt_coherent w _ (reset_pool_coherent w s)) as H.
  destruct (second_attempt w (_reset_pool w s).2) as [[g|e] s']; [done |].
  by destruct (is_OperationalError e).
Qed.

Lemma get_connection_start_coherent w s :
  coherent s → coherent (get_connection_start w s).2.
Proof.
  intros Hc. rewrite get_connection_start_eq.
  pose proof (first_attempt_coherent w s Hc) as H.
  destruct (first_attempt w s) as [[g|e] s1]; [done |].
  destruct (is_OperationalError e); [apply retry_block_coherent | done].
Qed.

Lemma get_connection_resume_coherent w s g r :
  coherent s → coherent (get_connection_resume g r w s).2.
Proof.
  intros Hc.
  assert (Hfin : ∀ p c, coherent (gen_try_finally (resumed r) (putconn p c) w s).2).
  { intros p c. pose proof (putconn_same_service w s p c) as H.
    unfold gen_try_finally, resumed, ret, raise.
    destruct r; simpl; destruct (putconn p c w s) as [[[]|e0] s1];
      by eapply coherent_same_service. }
  destruct g as [p c|p c|]; unfold get_connection_resume.
  - unfold except_OperationalError, try_except. specialize (Hfin p c).
    destruct (gen_try_finally (resumed r) (putconn p c) w s) as [[g|e] s1]; [done |].
    destruct (is_OperationalError e); [apply retry_block_coherent | done].
  - unfold except_OperationalError, try_except. specialize (Hfin p c).
    destruct (gen_try_finally (resumed r) (putconn p c) w s) as [[g|e] s1]; [done |].
    by destruct (is_OperationalError e).
  - by destruct r.
Qed.

(** X3.  Starting from the freshly imported module, or from any state in
    which the handle names an open pool built with the cached token and the
    recorded configuration, every service operation leaves such a state:
    [_get_connection_pool], [_reset_pool], and a whole [execute_query],
    whatever the collaborators answer.  In particular the handle never
    names a closed pool, and a pool handle never outlives its token. *)
Theorem X3_globals_stay_coherent (w : world) (s : state) (sql : string)
    (params : option (list pyval)) :
  coherent s →
  coherent (_get_connection_pool w s).2
  ∧ coherent (_reset_pool w s).2
  ∧ coherent (execute_query sql params w s).2
  ∧ ∀ p, _connection_pool (execute_query sql params w s).2 = Some p →
      pool_is_closed (execute_query sql params w s).2 p = false.
Proof.
  intros Hc.
  assert (Hexec : coherent (execute_query sql params w s).2).
  { rewrite execute_query_state.
    unfold with_get_connection, bind.
    pose proof (get_connection_start_coherent w s Hc) as Hstart.
    rewrite <- cm_enter_state in Hstart.
    destruct (cm_enter w s) as [[[g c]|e] s1]; simpl in *; [| done].
    pose proof (query_block_same_service sql params c w s1) as Hb.
    apply (coherent_same_service _ _ Hb) in Hstart.
    destruct (query_block sql params c w s1) as [[a|eb] s2]; simpl in *.
    - pose proof (get_connection_resume_coherent w s2 g Next Hstart) as Hexit.
      rewrite <- (cm_exit_state w s2 g None) in Hexit.
      by destruct (cm_exit g None w s2) as [[b|e'] s3].
    - pose proof (get_connection_resume_coherent w s2 g (Throw eb) Hstart) as Hexit.
      rewrite <- (cm_exit_state w s2 g (Some eb)) in Hexit.
      by destruct (cm_exit g (Some eb) w s2) as [[[]|e'] s3]. }
  split; [by apply get_connection_pool_coherent |].
  split; [apply reset_pool_coherent |].
  split; [exact Hexec |].
  intros p Hp. destruct (Hexec p Hp) as (o & Ho & Hcl & _).
  unfold pool_is_closed. by rewrite Ho.
Qed.

Lemma X3_globals_stay_coherent_witness :
  coherent initial_state
  ∧ coherent (execute_query "SELECT 2" None dropped_session_world initial_state).2.
Proof.
  assert (H0 : coherent initial_state) by (intros p Hp; discriminate Hp).
  split; [exact H0 |].
  exact (proj1 (proj2 (proj2
    (X3_globals_stay_coherent dropped_session_world initial_state "SELECT 2" None H0)))).
Defined.

(* ------------------------------------------------------------------ *)
(** ** Building the pool *)

(** X4.  What a successful first [_get_connection_pool] builds.  Without a
    handle, a call that returns [p] has created one new pool object under a
    name that was not in use, open and with no connection checked out,
    sized by the settings, connecting to port 5432 of the host the instance
    lookup returned, database [databricks_postgres], TLS required, as the
    user the identity lookup returned, with the cached token as password.
    The handle names it, the recorded configuration is its configuration,
    and no other pool object is touched. *)
Theorem X4_pool_as_built (w : world) (s s' : state) (p : nat) :
  _connection_pool s = None →
  _get_connection_pool w s = (Ok p, s') →
  (p ∉ dom (pools s))
  ∧ _connection_pool s' = Some p
  ∧ ∃ o, pools s' = <[p := o]> (pools s)
      ∧ used o = ∅ ∧ closed o = false
      ∧ minconn o = pool_min_connections (settings w)
      ∧ maxconn o = pool_max_connections (settings w)
      ∧ get_database_instance w (S (tick s)) = inr (host (kwargs o))
      ∧ current_user_me w (S (S (tick s))) = inr (user (kwargs o))
      ∧ port (kwargs o) = 5432%Z
      ∧ dbname (kwargs o) = "databricks_postgres"
      ∧ sslmode (kwargs o) = "require"
      ∧ (_token_cache s').1 = Some (password o)
      ∧ _pool_config s' = Some (kwargs o).
Proof.
  intros Hnone Hrun. revert Hrun. unfold_service. simpl. run_all.
  all: intros Hrun; try discriminate Hrun.
  all: injection Hrun as <- <-; simpl.
  all: split; [apply is_fresh |]; split; [done |].
  all: eexists; split; [reflexivity |]; simpl; repeat split; try done.
  match goal with H : _ && _ = true |- _ => apply andb_true_iff in H as [H _] end.
  by apply truthy_token.
Qed.

Lemma X4_pool_as_built_witness :
  ∃ o, pools warm_state = <[0 := o]> ∅
    ∧ host (kwargs o) = "instance.database.example"
    ∧ password o = "token-1"
    ∧ maxconn o = 10.
Proof.
  destruct (X4_pool_as_built steady_world initial_state warm_state 0)
    as (_ & _ & o & Ho & _ & _ & _ & Hmax & Hhost & _ & _ & _ & _ & Htok & _).
  - reflexivity.
  - vm_compute. reflexivity.
  - exists o. split; [exact Ho |].
    split; [by injection Hhost |].
    split; [by injection Htok |].
    exact Hmax.
Defined.

(** X5.  What a failed first [_get_connection_pool] leaves behind.  Without
    a handle, a call that raises leaves the handle empty and creates no pool
    object.  The exception is the one a collaborator raised, unchanged:
    the instance lookup, the identity lookup, the credential provider or
    the pool constructor, in this order.  Once both lookups have answered,
    [_pool_config] has been overwritten although no pool exists; and when
    it is the constructor that failed, the token obtained for it stays
    cached. *)
Theorem X5_failed_build (w : world) (s s' : state) (e : exn) :
  _connection_pool s = None →
  _get_connection_pool w s = (Raise e, s') →
  _connection_pool s' = None
  ∧ pools s' = pools s
  ∧ heap s' = heap s
  ∧ ( (get_database_instance w (S (tick s)) = inl e ∧ same_service s s')
    ∨ (current_user_me w (S (S (tick s))) = inl e ∧ same_service s s')
    ∨ ∃ h u, get_database_instance w (S (tick s)) = inr h
        ∧ current_user_me w (S (S (tick s))) = inr u
        ∧ _pool_config s' =
            Some {| host := h; port := 5432; dbname := "databricks_postgres";
                    user := u; sslmode := "require" |}
        ∧ ( (_token_cache s' = _token_cache s
             ∧ ¬ cache_live s (time_time w (S (S (S (tick s)))))
             ∧ generate_database_credential w (S (S (S (S (tick s))))) = inl e)
          ∨ (∃ tok, (_token_cache s').1 = Some tok
             ∧ In (Ev_ThreadedConnectionPool None) (events_since s s')) ) ).
Proof.
  intros Hnone Hrun. revert Hrun. unfold_service. simpl. run_all.
  all: intros Hrun; try discriminate Hrun.
  all: injection Hrun as <- <-; simpl.
  all: split; [done |]; split; [done |]; split; [done |].
  - left. split; [done |]. by apply same_service_frame.
  - right. left. split; [done |]. by apply same_service_frame.
  - right. right. eexists _, _. split; [done |]. split; [done |]. split; [done |].
    right.
    match goal with H : _ && _ = true |- _ =>
      apply andb_true_iff in H as [H _]; apply truthy_token in H end.
    eexists. split; [eassumption |].
    erewrite events_since_app by (simpl; trace_shape).
    simpl. tauto.
  - right. right. eexists _, _. split; [done |]. split; [done |]. split; [done |].
    left. split; [done |]. split; [| done].
    intros Hl. apply cache_live_test in Hl. simpl in *. congruence.
  - right. right. eexists _, _. split; [done |]. split; [done |]. split; [done |].
    right. eexists. split; [reflexivity |].
    erewrite events_since_app by (simpl; trace_shape).
    simpl. tauto.
Qed.

Lemma X5_failed_build_witness :
  let r := _get_connection_pool token_denied_world initial_state in
  _connection_pool r.2 = None ∧ pools r.2 = pools initial_state.
Proof.
  intros r.
  destruct (X5_failed_build token_denied_world initial_state r.2
              (OtherException "PermissionDenied" "not allowed to generate credentials"))
    as (H1 & H2 & _).
  - reflexivity.
  - vm_compute. reflexivity.
  - split; [exact H1 | exact H2].
Defined.

(* ------------------------------------------------------------------ *)
(** ** What [execute_query] can come back with *)

Lemma resume_throw_never_returns w s g e s' :
  get_connection_resume g (Throw e) w s ≠ (Ok Returned, s').
Proof.
  destruct g as [p c|p c|]; unfold get_connection_resume; [| | done].
  - unfold except_OperationalError, try_except, gen_try_finally, resumed, raise.
    destruct (putconn p c w s) as [[[]|e1] s1].
    + destruct (is_OperationalError e); [| done].
      intros H. by destruct (retry_block_yields _ _ _ _ H) as (? & ? & ?).
    + destruct (is_OperationalError e1); [| done].
      intros H. by destruct (retry_block_yields _ _ _ _ H) as (? & ? & ?).
  - unfold except_OperationalError, try_except, gen_try_finally, resumed, raise.
    destruct (putconn p c w s) as [[[]|e1] s1].
    + by destruct (is_OperationalError e).
    + by destruct (is_OperationalError e1).
Qed.

Lemma cm_exit_never_suppresses w s g value b s1 :
  cm_exit g (Some value) w s ≠ (Ok b, s1).
Proof.
  unfold cm_exit, bind.
  pose proof (resume_throw_never_returns w s g value) as H.
  destruct (get_connection_resume g (Throw value) w s) as [[[p c|p c|]|e'] s2];
    simpl; try done.
  by destruct (H s2).
Qed.

Lemma with_get_connection_result {A} (body : nat → M A) w s s' :
  with_get_connection body w s ≠ (Ok None, s').
Proof.
  unfold with_get_connection, bind.
  destruct (cm_enter w s) as [[[g c]|e] s1]; simpl; [| done].
  destruct (body c w s1) as [[a|eb] s2].
  - by destruct (cm_exit g None w s2) as [[b|e'] s3].
  - pose proof (cm_exit_never_suppresses w s2 g eb) as H.
    destruct (cm_exit g (Some eb) w s2) as [[b|e'] s3]; [| done].
    by destruct (H b s3).
Qed.

(** X6.  What [execute_query] can come back with.  It never lets any
    [psycopg2.Error] through, of whatever subclass; and when it returns, it
    returns a list: the context manager never suppresses the exception of
    the block, so the function never falls off its end returning [None]. *)
Theorem X6_execute_query_outcomes (sql : string) (params : option (list pyval))
    (w : world) (s : state) :
  let r := execute_query sql params w s in
  (∀ e, r.1 = Raise e → is_psycopg2_Error e = false)
  ∧ r.1 ≠ Ok None.
Proof.
  intros r. subst r. unfold execute_query, try_except.
  pose proof (with_get_connection_result (query_block sql params) w s) as Hnone.
  destruct (with_get_connection (query_block sql params) w s) as [[[a|]|e] s1].
  - done.
  - by destruct (Hnone s1).
  - rewrite query_handlers_mapping.
    destruct e as [cls a| | | | |]; simpl; unfold raise; simpl;
      (split; [by intros e0 [= <-] | done]).
Qed.

(** X7.  Unless [execute_query] ends in a [RuntimeError], every connection
    it took out of a pool is back when it ends, whether it returns or
    raises: the checked-out connections of every pool are as before. *)
Theorem X7_leases_returned (sql : string) (params : option (list pyval))
    (w : world) (s : state) :
  (∀ msg, (execute_query sql params w s).1 ≠ Raise (RuntimeError msg)) →
  same_leases s (execute_query sql params w s).2.
Proof.
  intros Hrt. rewrite execute_query_state.
  destruct (leases_after_with (query_block sql params) w s) as [H | H]; [| done |].
  { intros c s1. apply query_block_pools. }
  destruct H as (p & c & msg & Hr & _). exfalso. apply (Hrt msg).
  unfold execute_query, try_except.
  destruct (with_get_connection (query_block sql params) w s) as [[a|e] s1];
    simpl in Hr; [done |].
  by injection Hr as ->.
Qed.

Lemma X7_leases_returned_witness :
  same_leases initial_state
    (execute_query "SELECT 2" None syntax_error_world initial_state).2.
Proof.
  apply X7_leases_returned. intros msg. vm_compute. discriminate.
Defined.

(** A block that fails with anything but an [OperationalError]: the
    generator returns the connection and lets the exception through. *)
Lemma failed_block sql params w s s1 s2 g c e :
  cm_enter w s = (Ok (g, c), s1) →
  query_block sql params c w s1 = (Raise e, s2) →
  is_OperationalError e = false →
  ∃ p s3,
    (g = Yield_104 p c ∨ g = Yield_114 p c)
    ∧ putconn p c w s2 = (Ok tt, s3)
    ∧ execute_query sql params w s
      = (Raise (if is_psycopg2_Error e
                then DatabaseQueryError (Some (str e)) else e), s3)
    ∧ same_service s1 s3
    ∧ same_leases s s3
    ∧ trace s3 = trace s1 ++ query_block_events w s1 sql params c ++ [Ev_putconn p c].
Proof.
  intros Henter Hbody He.
  pose proof (get_connection_start_leases w s) as Hh.
  assert (Hstart : get_connection_start w s = (Ok g, s1)
                   ∧ ∃ p, g = Yield_104 p c ∨ g = Yield_114 p c).
  { pose proof Henter as Hcopy. unfold cm_enter, bind in Hcopy.
    destruct (get_connection_start w s) as [[[]|e'] s']; simpl in Hcopy;
      unfold ret, raise in Hcopy; simplify_eq; eauto. }
  destruct Hstart as (Hstart & p & Hg).
  rewrite Hstart in Hh. destruct Hh as [_ Hh].
  assert (Hpools : pools s2 = pools s1).
  { pose proof (query_block_pools sql params c w s1) as H. by rewrite Hbody in H. }
  apply (gen_holds_pools s s1 s2) in Hh; [| done].
  assert (Hlease : holds_lease s s2 p c) by (by destruct Hg as [-> | ->]).
  destruct (putconn_held w s s2 p c Hlease) as (s3 & Hput & Hs3).
  assert (Hres : get_connection_resume g (Throw e) w s2 = (Raise e, s3)).
  { destruct Hg as [-> | ->];
      unfold get_connection_resume, except_OperationalError, try_except,
        gen_try_finally, resumed, raise; by rewrite Hput, He. }
  exists p, s3. split; [done |]. split; [done |]. split; [| split; [| split]].
  - unfold execute_query, try_except, with_get_connection, bind.
    rewrite Henter. simpl. rewrite Hbody. unfold cm_exit, bind. rewrite Hres.
    rewrite query_handlers_mapping.
    destruct (is_DatabaseConnectionError e) eqn:Hd.
    + destruct e; done.
    + by destruct (is_psycopg2_Error e).
  - eapply same_service_trans.
    + pose proof (query_block_same_service sql params c w s1) as H.
      rewrite Hbody in H. exact H.
    + pose proof (putconn_same_service w s2 p c) as H. by rewrite Hput in H.
  - done.
  - pose proof (putconn_events w s2 p c) as H1. rewrite Hput in H1. simpl in H1.
    pose proof (query_block_trace sql params c w s1) as H2. rewrite Hbody in H2.
    simpl in H2. by rewrite H1, H2, app_assoc.
Qed.

(** X8.  A statement that fails costs the service nothing.  When the block
    of [execute_query] raises anything but an [OperationalError] (a syntax
    error, a constraint violation, an exception that is no driver error),
    the connection is returned to its pool, right after the events of the
    block, and nothing else happens: no reset, no retry, the same handle,
    token and pools.  A driver error comes out as [DatabaseQueryError]
    carrying the driver's message, anything else unchanged. *)
Theorem X8_failed_statement (sql : string) (params : option (list pyval))
    (w : world) (s s1 s2 : state) (g : gen_state) (c : nat) (e : exn) :
  cm_enter w s = (Ok (g, c), s1) →
  query_block sql params c w s1 = (Raise e, s2) →
  is_OperationalError e = false →
  ∃ p s3,
    (g = Yield_104 p c ∨ g = Yield_114 p c)
    ∧ execute_query sql params w s
      = (Raise (if is_psycopg2_Error e
                then DatabaseQueryError (Some (str e)) else e), s3)
    ∧ events_since s1 s3 = query_block_events w s1 sql params c ++ [Ev_putconn p c]
    ∧ count is_reset (events_since s1 s3) = 0
    ∧ count is_acquire_pool (events_since s1 s3) = 0
    ∧ same_service s1 s3
    ∧ same_leases s s3.
Proof.
  intros Henter Hbody He.
  destruct (failed_block sql params w s s1 s2 g c e Henter Hbody He)
    as (p & s3 & Hg & _ & Hrun & Hsame & Hleases & Htrace).
  exists p, s3. rewrite (events_since_app s1 s3 _ Htrace).
  destruct (query_block_attempts w s1 sql params c) as (Ha & _ & Hr).
  split; [done |]. split; [done |]. split; [done |].
  split; [rewrite count_app; change (count is_reset [Ev_putconn p c]) with 0; lia |].
  split; [rewrite count_app; change (count is_acquire_pool [Ev_putconn p c]) with 0; lia |].
  done.
Qed.

Lemma X8_failed_statement_witness :
  ∃ s3, execute_query "SELEC 2" None syntax_error_world initial_state
        = (Raise (DatabaseQueryError (Some "syntax error at or near SELEC")), s3)
    ∧ _connection_pool s3 = Some 0.
Proof.
  destruct (X8_failed_statement "SELEC 2" None syntax_error_world initial_state
              (cm_enter syntax_error_world initial_state).2
              (query_block "SELEC 2" None 0 syntax_error_world
                 (cm_enter syntax_error_world initial_state).2).2
              (Yield_104 0 0) 0
              (Psycopg2 ProgrammingError "syntax error at or near SELEC"))
    as (p & s3 & _ & Hrun & _ & _ & _ & (Hpool & _) & _).
  - vm_compute. reflexivity.
  - vm_compute. reflexivity.
  - reflexivity.
  - exists s3. split; [exact Hrun |]. rewrite Hpool. vm_compute. reflexivity.
Defined.

(** X9.  A statement without a result set.  When the driver runs the
    statement and leaves no description (an [UPDATE], a [DELETE], DDL),
    [execute_query] raises [TypeError] after the statement has been sent:
    the statement is in the log with its parameters, nothing is fetched,
    and the connection goes back to its pool. *)
Theorem X9_statement_without_result_set (sql text : string)
    (params : option (list pyval)) (w : world) (s s1 : state) (g : gen_state)
    (c : nat) (cur : cursor_state) :
  cm_enter w s = (Ok (g, c), s1) →
  conn_cursor w (tick s1) = None →
  str_format sql (lakebase_schema (settings w)) = inr text →
  cursor_execute w (S (tick s1)) text params = inr cur →
  description cur = None →
  ∃ p s3,
    execute_query sql params w s
    = (Raise (OtherException "TypeError" "'NoneType' object is not iterable"), s3)
    ∧ events_since s1 s3 = [Ev_cursor c; Ev_execute c text params; Ev_putconn p c]
    ∧ heap s3 = heap s1.
Proof.
  intros Henter Hcur Hfmt Hexec Hdesc.
  assert (Hbody : ∃ s2, query_block sql params c w s1
            = (Raise (OtherException "TypeError" "'NoneType' object is not iterable"), s2)
            ∧ heap s2 = heap s1).
  { unfold query_block, column_names, py_format, bind. unfold_service. simpl.
    rewrite Hcur, Hfmt. simpl. rewrite Hexec. simpl. rewrite Hdesc. simpl. eauto. }
  destruct Hbody as (s2 & Hbody & Hheap).
  destruct (failed_block sql params w s s1 s2 g c _ Henter Hbody eq_refl)
    as (p & s3 & _ & Hput & Hrun & _ & _ & Htrace).
  exists p, s3. split; [exact Hrun |]. split.
  - rewrite (events_since_app s1 s3 _ Htrace). unfold query_block_events.
    by rewrite Hcur, Hfmt, Hexec, Hdesc.
  - pose proof (putconn_heap w s2 p c) as H. rewrite Hput in H. simpl in H. congruence.
Qed.

Lemma X9_statement_without_result_set_witness :
  ∃ s3, execute_query "UPDATE {schema}.t SET a = 1" None no_result_world initial_state
        = (Raise (OtherException "TypeError" "'NoneType' object is not iterable"), s3).
Proof.
  destruct (X9_statement_without_result_set "UPDATE {schema}.t SET a = 1"
              "UPDATE gold.t SET a = 1" None no_result_world initial_state
              (cm_enter no_result_world initial_state).2 (Yield_104 0 0) 0 no_result)
    as (p & s3 & Hrun & _).
  - vm_compute. reflexivity.
  - reflexivity.
  - vm_compute. reflexivity.
  - reflexivity.
  - reflexivity.
  - exists s3. exact Hrun.
Defined.

(* ------------------------------------------------------------------ *)
(** ** Two whole runs of [execute_query] *)

Ltac unfold_query :=
  unfold execute_query, with_get_connection, cm_enter, cm_exit,
    get_connection_start, get_connection_resume, first_attempt, resumed,
    query_block, column_names, py_format, suspended in *;
  unfold_service.

(** X10.  An exhausted pool.  With every connection of the pool checked
    out, [execute_query] neither waits nor retries: the lease attempt
    raises the pool's [PoolError], which is no [OperationalError], and the
    caller gets [DatabaseQueryError] with the pool's message although no
    statement was sent.  The service state is as before. *)
Theorem X10_pool_exhausted (sql : string) (params : option (list pyval))
    (w : world) (s : state) (p : nat) (o : pool_obj) (h u : string) :
  _connection_pool s = Some p →
  pools s !! p = Some o →
  closed o = false →
  size (used o) = maxconn o →
  get_database_instance w (1 + tick s) = inr h →
  current_user_me w (2 + tick s) = inr u →
  let r := execute_query sql params w s in
  r.1 = Raise (DatabaseQueryError (Some "connection pool exhausted"))
  ∧ events_since s r.2
    = [Ev_enter_get_connection_pool; Ev_get_database_instance;
       Ev_current_user_me; Ev_getconn p None]
  ∧ pools r.2 = pools s
  ∧ same_service s r.2.
Proof.
  intros Hp Ho Hcl Hfull Hi Hu r. subst r. simpl in *.
  unfold_query. simpl. rewrite Hi. simpl. rewrite Hu. simpl. rewrite Hp. simpl.
  rewrite Ho, Hcl. rewrite bool_decide_eq_true_2 by done. simpl.
  split; [done |]. split; [apply events_since_app; simpl; trace_shape |].
  split; [done |]. by apply same_service_frame.
Qed.

Lemma X10_pool_exhausted_witness :
  let s := lease_many 10 0 steady_world warm_state in
  (execute_query "SELECT 2" None steady_world s).1
  = Raise (DatabaseQueryError (Some "connection pool exhausted")).
Proof.
  intros s.
  refine (proj1 (X10_pool_exhausted "SELECT 2" None steady_world s 0
    {| minconn := 2; maxconn := 10;
       kwargs := {| host := "instance.database.example"; port := 5432;
                    dbname := "databricks_postgres"; user := "user@example.com";
                    sslmode := "require" |};
       password := "token-1"; used := list_to_set (seq 0 10); closed := false |}
    "instance.database.example" "user@example.com" _ _ _ _ _ _)).
  - vm_compute. reflexivity.
  - vm_compute. reflexivity.
  - reflexivity.
  - vm_compute. reflexivity.
  - reflexivity.
  - reflexivity.
Defined.

(** X11.  The ordinary run.  With an open pool behind the handle, room in
    it, and every collaborator answering, one [execute_query] does exactly
    this, in this order: it resolves the endpoint and the user again
    although the pool exists, leases one connection, probes it with
    [SELECT 1], sends the formatted statement with its parameters on that
    same connection, fetches, and returns the connection.  No token is
    asked for and no pool is built or reset; handle, token, configuration
    and pool are afterwards as they were, and the result is the list of the
    new row dictionaries. *)
Theorem X11_ordinary_run (sql text : string) (params : option (list pyval))
    (w : world) (s : state) (p : nat) (o : pool_obj) (h u : string)
    (cur0 cur : cursor_state) (cols : list (string * nat))
    (rows : list (list pyval)) :
  _connection_pool s = Some p →
  pools s !! p = Some o →
  closed o = false →
  size (used o) ≠ maxconn o →
  get_database_instance w (1 + tick s) = inr h →
  current_user_me w (2 + tick s) = inr u →
  pool_connect w (3 + tick s) = None →
  conn_cursor w (4 + tick s) = None →
  cursor_execute w (5 + tick s) "SELECT 1" None = inr cur0 →
  conn_cursor w (7 + tick s) = None →
  str_format sql (lakebase_schema (settings w)) = inr text →
  cursor_execute w (8 + tick s) text params = inr cur →
  description cur = Some cols →
  fetchall_result cur = inr rows →
  let c := fresh (used o) in
  let r := execute_query sql params w s in
  r.1 = Ok (Some (seq (length (heap s)) (length rows)))
  ∧ events_since s r.2
    = [Ev_enter_get_connection_pool; Ev_get_database_instance;
       Ev_current_user_me; Ev_getconn p (Some c);
       Ev_cursor c; Ev_execute c "SELECT 1" None; Ev_yield c;
       Ev_cursor c; Ev_execute c text params; Ev_fetchall c;
       Ev_putconn p c]
  ∧ heap r.2
    = heap s ++ map (fun row => dict_of_pairs (zip (map fst cols) row)) rows
  ∧ pools r.2 = pools s
  ∧ same_service s r.2.
Proof.
  intros Hp Ho Hcl Hroom Hi Hu Hconn Hc1 Hprobe Hc2 Hfmt Hexec Hdesc Hfetch c r.
  subst r. simpl in *.
  assert (Hback : <[p := set_used (({[c]} ∪ used o) ∖ {[c]}) (set_used ({[c]} ∪ used o) o)]>
                    (<[p := set_used ({[c]} ∪ used o) o]> (pools s)) = pools s).
  { rewrite insert_insert_eq. apply insert_id. rewrite Ho. f_equal.
    destruct o as [mi ma kw pw us cl]. unfold set_used. simpl. f_equal.
    assert (Hc : c ∉ us) by apply is_fresh.
    apply set_eq. intros x.
    rewrite elem_of_difference, elem_of_union, !elem_of_singleton.
    split; [| intros [[Hx | Hx] Hne]; [done | done]].
    intros Hx. split; [by right |]. by intros ->. }
  unfold_query. simpl. rewrite Hi. simpl. rewrite Hu. simpl. rewrite Hp. simpl.
  rewrite Ho, Hcl. rewrite bool_decide_eq_false_2 by done. simpl.
  rewrite Hconn. simpl. rewrite Hc1. simpl. rewrite Hprobe. simpl.
  rewrite Hc2. simpl. rewrite Hfmt. simpl. rewrite Hexec. simpl.
  rewrite Hdesc. simpl. rewrite Hfetch. simpl.
  rewrite mapM_new_dict. simpl.
  rewrite lookup_insert_eq. simpl. rewrite Hcl.
  rewrite bool_decide_eq_true_2 by (apply elem_of_union_l, elem_of_singleton; done).
  simpl. fold c. rewrite Hback.
  split; [done |]. split; [apply events_since_app; simpl; trace_shape |].
  split; [done |]. split; [done |]. by apply same_service_frame.
Qed.

Lemma X11_ordinary_run_witness :
  let r := execute_query "SELECT x FROM {schema}.t WHERE y = %s" (Some [PInt 7])
             steady_world warm_state in
  r.1 = Ok (Some [0])
  ∧ statements (events_since warm_state r.2)
    = [("SELECT 1", None); ("SELECT x FROM gold.t WHERE y = %s", Some [PInt 7])].
Proof.
  intros r.
  destruct (X11_ordinary_run "SELECT x FROM {schema}.t WHERE y = %s"
              "SELECT x FROM gold.t WHERE y = %s" (Some [PInt 7])
              steady_world warm_state 0
              {| minconn := 2; maxconn := 10;
                 kwargs := {| host := "instance.database.example"; port := 5432;
                              dbname := "databricks_postgres";
                              user := "user@example.com"; sslmode := "require" |};
                 password := "token-1"; used := ∅; closed := false |}
              "instance.database.example" "user@example.com"
              one_row one_row [("x", 23)] [[PInt 1]])
    as (H1 & H2 & _).
  - vm_compute. reflexivity.
  - vm_compute. reflexivity.
  - reflexivity.
  - vm_compute. lia.
  - reflexivity.
  - reflexivity.
  - reflexivity.
  - reflexivity.
  - reflexivity.
  - reflexivity.
  - vm_compute. reflexivity.
  - reflexivity.
  - reflexivity.
  - reflexivity.
  - split; [exact H1 |]. fold r in H2. rewrite H2. vm_compute. reflexivity.
Defined.

(** A block that ends normally: the generator returns the connection and
    [execute_query] returns the rows. *)
Lemma succeeded_block sql params w s s1 s2 g c addrs :
  cm_enter w s = (Ok (g, c), s1) →
  query_block sql params c w s1 = (Ok addrs, s2) →
  ∃ p s3,
    (g = Yield_104 p c ∨ g = Yield_114 p c)
    ∧ putconn p c w s2 = (Ok tt, s3)
    ∧ execute_query sql params w s = (Ok (Some addrs), s3)
    ∧ same_service s1 s3
    ∧ same_leases s s3
    ∧ trace s3 = trace s1 ++ query_block_events w s1 sql params c ++ [Ev_putconn p c].
Proof.
  intros Henter Hbody.
  pose proof (get_connection_start_leases w s) as Hh.
  assert (Hstart : get_connection_start w s = (Ok g, s1)
                   ∧ ∃ p, g = Yield_104 p c ∨ g = Yield_114 p c).
  { pose proof Henter as Hcopy. unfold cm_enter, bind in Hcopy.
    destruct (get_connection_start w s) as [[[]|e'] s']; simpl in Hcopy;
      unfold ret, raise in Hcopy; simplify_eq; eauto. }
  destruct Hstart as (Hstart & p & Hg).
  rewrite Hstart in Hh. destruct Hh as [_ Hh].
  assert (Hpools : pools s2 = pools s1).
  { pose proof (query_block_pools sql params c w s1) as H. by rewrite Hbody in H. }
  apply (gen_holds_pools s s1 s2) in Hh; [| done].
  assert (Hlease : holds_lease s s2 p c) by (by destruct Hg as [-> | ->]).
  destruct (putconn_held w s s2 p c Hlease) as (s3 & Hput & Hs3).
  assert (Hres : get_connection_resume g Next w s2 = (Ok Returned, s3)).
  { destruct Hg as [-> | ->];
      unfold get_connection_resume, except_OperationalError, try_except,
        gen_try_finally, resumed, ret; simpl; by rewrite Hput. }
  exists p, s3. split; [done |]. split; [done |]. split; [| split; [| split]].
  - unfold execute_query, try_except, with_get_connection, bind.
    rewrite Henter. simpl. rewrite Hbody. unfold cm_exit, bind. by rewrite Hres.
  - eapply same_service_trans.
    + pose proof (query_block_same_service sql params c w s1) as H.
      rewrite Hbody in H. exact H.
    + pose proof (putconn_same_service w s2 p c) as H. by rewrite Hput in H.
  - done.
  - pose proof (putconn_events w s2 p c) as H1. rewrite Hput in H1. simpl in H1.
    pose proof (query_block_trace sql params c w s1) as H2. rewrite Hbody in H2.
    simpl in H2. by rewrite H1, H2, app_assoc.
Qed.

Lemma snoc_snoc {A} (l : list A) a b : (l ++ [a]) ++ [b] = l ++ [a; b].
Proof. by rewrite <- app_assoc. Qed.

Lemma second_attempt_trace w s p c s' :
  second_attempt w s = (Ok (Yield_114 p c), s') →
  ∃ evs, trace s' = (trace s ++ evs) ++ [Ev_getconn p (Some c); Ev_yield c].
Proof.
  unfold_generator. simpl. run_all; intros [= <- <- <-]; simpl.
  all: rewrite snoc_snoc; eexists; f_equal; trace_shape.
Qed.

(** X12.  A recovered run.  When the generator has come to its second
    [yield] (the first attempt failed with an [OperationalError], the pool
    was reset and rebuilt) and the statement then succeeds,
    [execute_query] returns the rows and the second connection goes back to
    the new pool.  That connection is handed to the block as leased: the
    last two events before the block are the lease and the [yield], with
    no liveness probe in between, and the statement of the block is the
    only one sent on it. *)
Theorem X12_recovered_run (sql : string) (params : option (list pyval))
    (w : world) (s s1 s2 : state) (p c : nat) (addrs : list nat) :
  get_connection_start w s = (Ok (Yield_114 p c), s1) →
  query_block sql params c w s1 = (Ok addrs, s2) →
  ∃ s3,
    execute_query sql params w s = (Ok (Some addrs), s3)
    ∧ (∃ evs, trace s1 = trace s ++ evs ++ [Ev_getconn p (Some c); Ev_yield c])
    ∧ events_since s1 s3 = query_block_events w s1 sql params c ++ [Ev_putconn p c]
    ∧ _connection_pool s3 = Some p
    ∧ same_leases s s3.
Proof.
  intros Hstart Hbody.
  assert (Henter : cm_enter w s = (Ok (Yield_114 p c, c), s1)).
  { unfold cm_enter, bind. by rewrite Hstart. }
  destruct (succeeded_block sql params w s s1 s2 _ c addrs Henter Hbody)
    as (p' & s3 & Hg & _ & Hrun & Hsame & Hleases & Htrace).
  assert (p' = p) as -> by (destruct Hg as [Hg | Hg]; by simplify_eq).
  exists s3. split; [exact Hrun |].
  assert (Hsecond : ∃ s0, second_attempt w s0 = (Ok (Yield_114 p c), s1)
                          ∧ extends s s0).
  { rewrite get_connection_start_eq in Hstart.
    pose proof (first_attempt_yields w s) as Hy.
    destruct (first_attempt_events w s) as (ev1 & Ht1 & _).
    destruct (first_attempt w s) as [[g|e] s0].
    - destruct (Hy g s0 eq_refl) as (? & ? & ->). by simplify_eq.
    - destruct (is_OperationalError e); [| done].
      rewrite retry_block_eq in Hstart.
      destruct (reset_pool_events w s0) as (ev2 & Ht2 & _).
      exists (_reset_pool w s0).2. split.
      + destruct (second_attempt w (_reset_pool w s0).2) as [[g|e2] s'].
        * by simplify_eq.
        * by destruct (is_OperationalError e2).
      + simpl in Ht1. exists (ev1 ++ Ev_enter_reset_pool :: ev2).
        by rewrite Ht2, Ht1, app_assoc. }
  destruct Hsecond as (s0 & Hsecond & [ev0 Hext]).
  split.
  { destruct (second_attempt_trace w s0 p c s1 Hsecond) as (evs & Hevs).
    exists (ev0 ++ evs). rewrite Hevs, Hext. rewrite <- !app_assoc. reflexivity. }
  split; [by apply events_since_app |].
  split; [| done].
  destruct Hsame as (-> & _).
  revert Hsecond. unfold_generator. simpl. run_all; intros [= <- <- <-]; simpl; done.
Qed.

Lemma X12_recovered_run_witness :
  ∃ s3, execute_query "SELECT 2" None expired_token_world initial_state
        = (Ok (Some [0]), s3)
    ∧ _connection_pool s3 = Some 0.
Proof.
  destruct (X12_recovered_run "SELECT 2" None expired_token_world initial_state
              (get_connection_start expired_token_world initial_state).2
              (query_block "SELECT 2" None 0 expired_token_world
                 (get_connection_start expired_token_world initial_state).2).2
              0 0 [0])
    as (s3 & Hrun & _ & _ & Hpool & _).
  - vm_compute. reflexivity.
  - vm_compute. reflexivity.
  - exists s3. split; [exact Hrun | exact Hpool].
Defined.

(* ------------------------------------------------------------------ *)
(** ** The generator when it is closed, and when the pool is reset under it *)

(** X13.  Closing the generator.  [close()] on a generator suspended at
    either [yield], holding its connection, returns that connection to its
    pool and does nothing else: [GeneratorExit] is not an
    [OperationalError], so no handler runs, nothing is reset or retried,
    and [close()] itself raises nothing. *)
Theorem X13_generator_close (w : world) (s0 s : state) (g : gen_state) :
  suspended g = true →
  gen_holds s0 s g →
  ∃ p c s',
    (g = Yield_104 p c ∨ g = Yield_114 p c)
    ∧ gen_close g w s = (Ok tt, s')
    ∧ events_since s s' = [Ev_putconn p c]
    ∧ same_leases s0 s'
    ∧ same_service s s'.
Proof.
  intros Hg Hh.
  assert (Hpc : ∃ p c, (g = Yield_104 p c ∨ g = Yield_114 p c) ∧ holds_lease s0 s p c).
  { destruct g as [p c|p c|]; [| | done]; exists p, c; eauto. }
  destruct Hpc as (p & c & Hpc & Hlease).
  destruct (putconn_held w s0 s p c Hlease) as (s' & Hput & Hs').
  exists p, c, s'. split; [done |].
  pose proof (putconn_events w s p c) as Hev. rewrite Hput in Hev. simpl in Hev.
  pose proof (putconn_same_service w s p c) as Hsame. rewrite Hput in Hsame.
  split; [| split; [by apply events_since_app | by split]].
  destruct Hpc as [-> | ->];
    unfold gen_close, get_connection_resume, except_OperationalError, try_except,
      gen_try_finally, resumed, raise; by rewrite Hput.
Qed.

Lemma X13_generator_close_witness :
  ∃ s', gen_close (Yield_104 0 0) steady_world
          (get_connection_start steady_world initial_state).2 = (Ok tt, s')
    ∧ same_leases initial_state s'.
Proof.
  pose proof (get_connection_start_leases steady_world initial_state) as Hh.
  assert (Hs : get_connection_start steady_world initial_state
               = (Ok (Yield_104 0 0),
                  (get_connection_start steady_world initial_state).2))
    by (vm_compute; reflexivity).
  rewrite Hs in Hh. destruct Hh as [Hsusp Hholds].
  destruct (X13_generator_close steady_world initial_state
              (get_connection_start steady_world initial_state).2
              (Yield_104 0 0) Hsusp Hholds)
    as (p & c & s' & _ & Hclose & _ & Hleases & _).
  exists s'. split; [exact Hclose | exact Hleases].
Defined.

(** X14.  The token cache beyond the two ordinary cases.  Whatever
    [_get_fresh_token] returns is the token the cache holds afterwards.
    When it raises, the exception is the provider's, and the cache is left
    exactly as it was, stale entry included.  A cached empty token counts
    as no token: the provider is asked again even before the expiry.  In
    no case does the function touch the pool handle or the pools. *)
Theorem X14_token_cache_edges (w : world) (s : state) :
  let r := _get_fresh_token w s in
  (∀ tok, r.1 = Ok tok → (_token_cache r.2).1 = Some tok)
  ∧ (∀ e, r.1 = Raise e →
       _token_cache r.2 = _token_cache s
       ∧ generate_database_credential w (S (tick s)) = inl e)
  ∧ ((_token_cache s).1 = Some EmptyString →
       events_since s r.2 = [Ev_time; Ev_generate_database_credential])
  ∧ _connection_pool r.2 = _connection_pool s
  ∧ pools r.2 = pools s.
Proof.
  intros r. subst r.
  destruct (cache_live_dec s (time_time w (tick s))) as [H|H].
  - rewrite get_fresh_token_hit by done. simpl.
    destruct H as [Ht _].
    split; [intros tok [= <-]; by apply truthy_token |].
    split; [done |]. split; [| done].
    intros He. rewrite He in Ht. done.
  - rewrite get_fresh_token_miss by done.
    destruct (generate_database_credential w (S (tick s))) as [e|cred]; simpl.
    + split; [done |]. split; [by intros e0 [= <-] |]. split; [| done].
      intros _. apply events_since_app. simpl. trace_shape.
    + split; [by intros tok [= <-] |]. split; [done |]. split; [| done].
      intros _. apply events_since_app. simpl. trace_shape.
Qed.

(** X15.  A reset while a connection is out.  The service takes no lock,
    so [_reset_pool] can run (on behalf of another caller) between the
    [yield] and the end of a block.  The generator then cannot give its
    connection back: resumed after a block that ended normally, it raises
    the pool's [PoolError] from the [finally] clause, at either [yield],
    and since that is no [OperationalError] nothing is retried. *)
Theorem X15_reset_under_a_lease (w w' : world) (s : state) (g : gen_state)
    (p c : nat) :
  _connection_pool s = Some p →
  g = Yield_104 p c ∨ g = Yield_114 p c →
  let s1 := (_reset_pool w s).2 in
  get_connection_resume g Next w' s1
  = (Raise (Psycopg2 PoolError "connection pool is closed"),
     log (Ev_putconn p c) s1)
  ∧ cm_exit g None w' s1
    = (Raise (Psycopg2 PoolError "connection pool is closed"),
       log (Ev_putconn p c) s1).
Proof.
  intros Hp Hg s1.
  assert (Hclosed : pool_is_closed s1 p = true).
  { subst s1. unfold pool_is_closed. unfold_service. simpl. rewrite Hp.
    run_all; simpl; rewrite ?lookup_insert_eq; simpl; congruence. }
  assert (Hput : putconn p c w' s1
                 = (Raise (Psycopg2 PoolError "connection pool is closed"),
                    log (Ev_putconn p c) s1)).
  { unfold pool_is_closed in Hclosed. unfold putconn.
    destruct (pools s1 !! p) as [o|]; [| done]. by rewrite Hclosed. }
  assert (Hres : get_connection_resume g Next w' s1
                 = (Raise (Psycopg2 PoolError "connection pool is closed"),
                    log (Ev_putconn p c) s1)).
  { destruct Hg as [-> | ->];
      unfold get_connection_resume, except_OperationalError, try_except,
        gen_try_finally, resumed, ret; simpl; by rewrite Hput. }
  split; [exact Hres |].
  unfold cm_exit, bind. by rewrite Hres.
Qed.

Lemma X15_reset_under_a_lease_witness :
  let s := (get_connection_start steady_world initial_state).2 in
  (cm_exit (Yield_104 0 0) None steady_world (_reset_pool steady_world s).2).1
  = Raise (Psycopg2 PoolError "connection pool is closed").
Proof.
  intros s.
  destruct (X15_reset_under_a_lease steady_world steady_world s (Yield_104 0 0) 0 0)
    as [_ H].
  - vm_compute. reflexivity.
  - left. reflexivity.
  - by rewrite H.
Defined.

(* ------------------------------------------------------------------ *)
(** ** The query methods *)

Lemma execute_query_sends sql params w s text ps :
  (text, ps) ∈ statements (events_since s (execute_query sql params w s).2) →
  (text = "SELECT 1" ∧ ps = None)
  ∨ (str_format sql (lakebase_schema (settings w)) = inr text ∧ ps = params).
Proof.
  rewrite execute_query_statements, elem_of_app.
  intros [Hin | Hin].
  - left. rewrite cm_enter_state in Hin.
    destruct (get_connection_start_events w s) as (e1 & H1 & _ & _ & _ & _ & Q1).
    rewrite (events_since_app _ _ _ H1) in Hin.
    destruct Q1 as [Q1 | Q1]; rewrite Q1 in Hin.
    + by apply elem_of_nil in Hin.
    + apply list_elem_of_singleton in Hin. by injection Hin.
  - right. destruct (cm_enter w s) as [[gc|e] s1]; [| by apply elem_of_nil in Hin].
    unfold block_statements in Hin.
    destruct (conn_cursor w (tick s1)); [by apply elem_of_nil in Hin |].
    destruct (str_format sql (lakebase_schema (settings w))) as [e|f];
      [by apply elem_of_nil in Hin |].
    apply list_elem_of_singleton in Hin. by injection Hin as -> ->.
Qed.

(** A successful [execute_query] has appended one dictionary per fetched
    row to the heap and returns their addresses. *)
Lemma execute_query_rows sql params w s addrs s' :
  execute_query sql params w s = (Ok (Some addrs), s') →
  ∃ cur cols rows n,
    cursor_execute w n
      match str_format sql (lakebase_schema (settings w)) with
      | inr text => text | inl _ => sql end params = inr cur
    ∧ description cur = Some cols
    ∧ fetchall_result cur = inr rows
    ∧ addrs = seq (length (heap s)) (length rows)
    ∧ heap s' = heap s ++ map (fun row => dict_of_pairs (zip (map fst cols) row)) rows.
Proof.
  intros Hrun.
  assert (Hwith : with_get_connection (query_block sql params) w s = (Ok (Some addrs), s')).
  { unfold execute_query, try_except in Hrun.
    destruct (with_get_connection (query_block sql params) w s) as [[r|e] s1]; [done |].
    rewrite query_handlers_mapping in Hrun.
    destruct e as [cls a| | | | |]; simpl in Hrun; unfold raise in Hrun;
      discriminate Hrun. }
  clear Hrun.
  unfold with_get_connection, bind in Hwith.
  pose proof (cm_enter_state w s) as Henter.
  destruct (cm_enter w s) as [[[g c]|e0] s1]; [| done]. simpl in *.
  assert (Hheap1 : heap s1 = heap s) by (rewrite Henter; apply get_connection_start_heap).
  destruct (query_block sql params c w s1) as [[a|eb] s2] eqn:Hblock.
  2:{ by destruct (cm_exit g (Some eb) w s2) as [[[]|e'] s3]. }
  pose proof (cm_exit_heap w s2 g None) as Hheap2.
  destruct (cm_exit g None w s2) as [[b|e'] s3]; [| done].
  simpl in *. injection Hwith as -> ->.
  apply query_block_ok in Hblock
    as (formatted & cur & cols & rows & Hf & Hc & Hd & Hr & -> & Hh).
  exists cur, cols, rows, (S (tick s1)). rewrite Hf, Hheap2, Hh, Hheap1. done.
Qed.

Lemma lower_char_a c : lower_char c = "a"%char → c = "a"%char ∨ c = "A"%char.
Proof.
  destruct c as [[] [] [] [] [] [] [] []]; vm_compute; intros H;
    first [discriminate H | by left | by right].
Qed.

Lemma lower_char_l c : lower_char c = "l"%char → c = "l"%char ∨ c = "L"%char.
Proof.
  destruct c as [[] [] [] [] [] [] [] []]; vm_compute; intros H;
    first [discriminate H | by left | by right].
Qed.

(** X16.  Which arguments switch a filter off.  The test
    [v and v.lower() != "all"] fails, so that the method queries all
    cities (or all property types), for exactly: no argument, the empty
    string, and the eight spellings of [all] in upper and lower case.
    Anything else is taken as a value to filter by, including [all] with a
    blank around it and the label [All Cities] that the methods themselves
    return. *)
Theorem X16_filter_spellings (v : option string) :
  (names_filter v = false ↔
     v = None ∨ v = Some EmptyString
     ∨ ∃ x, v = Some x
         ∧ In x ["all"; "All"; "aLl"; "alL"; "ALl"; "AlL"; "aLL"; "ALL"])
  ∧ names_filter (Some "All Cities") = true
  ∧ names_filter (Some " all") = true.
Proof.
  split; [| split; vm_compute; reflexivity].
  split.
  - destruct v as [x|]; [| by left]. simpl.
    rewrite andb_false_iff, !negb_false_iff, !bool_decide_eq_true.
    intros [-> | Hl]; [by right; left |]. right. right. exists x. split; [done |].
    destruct x as [|a [|b [|c [|d x]]]]; try discriminate Hl.
    simpl in Hl. injection Hl as Ha Hb Hc.
    apply lower_char_a in Ha. apply lower_char_l in Hb. apply lower_char_l in Hc.
    destruct Ha as [-> | ->], Hb as [-> | ->], Hc as [-> | ->]; simpl; tauto.
  - intros [-> | [-> | (x & -> & Hx)]]; [done | done |].
    simpl in Hx.
    destruct Hx as [<- | [<- | [<- | [<- | [<- | [<- | [<- | [<- | []]]]]]]]];
      vm_compute; reflexivity.
Qed.

Ltac format_by_pieces t :=
  exists (pieces t);
  split; [intros schema; vm_compute; reflexivity |];
  split; [vm_compute; reflexivity |];
  split; vm_compute; reflexivity.

(** X17.  The statement of [get_amenities].  Whatever the two arguments
    are, the template is two brace-free pieces around one [{schema}]
    field, so that formatting cannot fail and writes the schema name once,
    as it is; the text has as many [%s] markers as there are parameters,
    one per active filter; the text depends only on which filters are
    active, never on their values, which travel as parameters; and the
    statements sent by the method are the liveness probe and this one. *)
Theorem X17_get_amenities_statement (city property_type : option string)
    (w : world) (s : state) :
  let q := get_amenities_query city property_type in
  (∃ ps, (∀ schema, str_format q.1 schema = inr (String.concat schema ps))
       ∧ forallb brace_free ps = true
       ∧ (length ps = 2 ∧ String.concat "{schema}" ps = q.1))
  ∧ placeholders q.1 = param_count q.2
  ∧ param_count q.2
    = (if names_filter city then 1 else 0)
      + (if names_filter property_type then 1 else 0)
  ∧ (∀ city' property_type',
       names_filter city' = names_filter city →
       names_filter property_type' = names_filter property_type →
       (get_amenities_query city' property_type').1 = q.1)
  ∧ (∀ text ps,
       (text, ps) ∈ statements
         (events_since s (get_amenities city property_type w s).2) →
       (text = "SELECT 1" ∧ ps = None)
       ∨ (str_format q.1 (lakebase_schema (settings w)) = inr text ∧ ps = q.2)).
Proof.
  intros q. subst q.
  split; [| split; [| split; [| split]]].
  - unfold get_amenities_query.
    destruct (names_filter city), (names_filter property_type); simpl.
    + format_by_pieces
        (String.append get_amenities_head
           (String.append "WHERE city = %s AND property_type = %s" get_amenities_tail)).
    + format_by_pieces
        (String.append get_amenities_head
           (String.append "WHERE city = %s" get_amenities_tail)).
    + format_by_pieces
        (String.append get_amenities_head
           (String.append "WHERE property_type = %s" get_amenities_tail)).
    + format_by_pieces (String.append get_amenities_head get_amenities_tail).
  - unfold get_amenities_query.
    destruct (names_filter city), (names_filter property_type); vm_compute; reflexivity.
  - unfold get_amenities_query.
    destruct (names_filter city), (names_filter property_type); reflexivity.
  - intros city' property_type' Hc Hp. unfold get_amenities_query.
    rewrite Hc, Hp.
    destruct (names_filter city), (names_filter property_type); reflexivity.
  - intros text ps. apply execute_query_sends.
Qed.

(** X18.  The statement of [get_city_funnel] and the label of its result.
    Both templates format for every schema name, which is written into the
    two [{schema}] fields as it is; the markers and the parameters agree in
    number, the look-back [days] being the last parameter in either case.
    The city is a parameter exactly when the filter test passes.  The
    label of the result does not follow that test: any non-empty [city] is
    echoed, so a request for [all], however spelled, runs the unfiltered
    query and is labelled with that spelling, while only a missing or
    empty [city] is labelled [All Cities]. *)
Theorem X18_get_city_funnel_statement (city : option string) (days : Z) :
  let q := get_city_funnel_query city days in
  (∃ ps, (∀ schema, str_format q.1 schema = inr (String.concat schema ps))
       ∧ forallb brace_free ps = true
       ∧ (length ps = 3 ∧ String.concat "{schema}" ps = q.1))
  ∧ placeholders q.1 = param_count q.2
  ∧ q.2 = Some ((if names_filter city then [PStr (given city)] else []) ++ [PInt days])
  ∧ (names_filter city = false → ∀ x, city = Some x → x ≠ EmptyString →
       or_else city "All Cities" = x ∧ q = get_city_funnel_query None days)
  ∧ (or_else city "All Cities" = "All Cities" →
       city = None ∨ city = Some EmptyString ∨ city = Some "All Cities").
Proof.
  intros q. subst q. unfold get_city_funnel_query.
  split; [| split; [| split; [| split]]].
  - destruct (names_filter city); simpl.
    + format_by_pieces get_city_funnel_by_city_sql.
    + format_by_pieces get_city_funnel_all_sql.
  - destruct (names_filter city); vm_compute; reflexivity.
  - by destruct (names_filter city).
  - intros Hf x -> Hx. rewrite Hf. simpl.
    by rewrite bool_decide_eq_false_2.
  - destruct city as [x|]; [| by left]. simpl.
    case_bool_decide as Hx; [right; left; by rewrite Hx |].
    intros ->. right. by right.
Qed.

Lemma lift_sum_inr {A} (a : A) w s : lift_sum (inr a) w s = (Ok a, s).
Proof. done. Qed.

Lemma int_or_zero_value int_of_str row k v w s :
  dict_get row k = Some v → int_or_null v = true →
  int_or_zero int_of_str row k w s = (Ok (null_as_zero v), s).
Proof.
  intros Hk Hv. unfold int_or_zero, bind, getitem. rewrite Hk. simpl.
  destruct v as [|b|z|t]; try discriminate Hv; simpl; [done |].
  by case_bool_decide as Hz; simpl; [rewrite Hz |].
Qed.

#[local] Arguments int_or_zero : simpl never.

(** X19.  The result of [get_city_funnel].  A failure of the query is the
    failure of the method, with nothing done after it.  When the query
    returns no row at all, the three counts are zero.  When it returns
    rows, the counts are read from the first row only, and a [NULL] sum (a
    [SUM] over no matching rows) counts as zero.  [days] is echoed as given
    and, in each of these cases, the method does nothing after the
    query. *)
Theorem X19_get_city_funnel_result (int_of_str : string → exn + Z)
    (city : option string) (days : Z) (w : world) (s s1 : state) :
  let q := get_city_funnel_query city days in
  (∀ e, execute_query q.1 q.2 w s = (Raise e, s1) →
     get_city_funnel int_of_str city days w s = (Raise e, s1))
  ∧ (execute_query q.1 q.2 w s = (Ok (Some []), s1) →
     get_city_funnel int_of_str city days w s
     = (Ok {| funnel_city := or_else city "All Cities"; funnel_days := days;
              funnel := {| viewers := 0; bookers := 0; completed := 0 |} |}, s1))
  ∧ (∀ a rest row v b c,
       execute_query q.1 q.2 w s = (Ok (Some (a :: rest)), s1) →
       heap s1 !! a = Some row →
       dict_get row "viewers" = Some v →
       dict_get row "bookers" = Some b →
       dict_get row "completed" = Some c →
       int_or_null v && int_or_null b && int_or_null c = true →
       get_city_funnel int_of_str city days w s
       = (Ok {| funnel_city := or_else city "All Cities"; funnel_days := days;
                funnel := {| viewers := null_as_zero v; bookers := null_as_zero b;
                             completed := null_as_zero c |} |}, s1)).
Proof.
  intros q. subst q. split; [| split].
  - intros e Hrun. unfold get_city_funnel, bind. by rewrite Hrun.
  - intros Hrun. unfold get_city_funnel, bind at 1. rewrite Hrun.
    unfold bind at 1, get_state. unfold bind.
    rewrite !(int_or_zero_value int_of_str empty_funnel_row _ (PInt 0)) by done.
    done.
  - intros a rest row v b c Hrun Hrow Hv Hb Hc Hnull.
    apply andb_true_iff in Hnull as [Hnull Hc'].
    apply andb_true_iff in Hnull as [Hv' Hb'].
    unfold get_city_funnel, bind at 1. rewrite Hrun.
    assert (Hr : row_at s1 a = row).
    { unfold row_at. pose proof Hrow as H. unfold pydict in H |- *. by rewrite H. }
    unfold bind at 1, get_state. unfold bind. cbv beta iota zeta. rewrite Hr.
    rewrite (int_or_zero_value int_of_str row _ v) by done.
    rewrite (int_or_zero_value int_of_str row _ b) by done.
    rewrite (int_or_zero_value int_of_str row _ c) by done.
    done.
Qed.

Lemma X19_get_city_funnel_result_witness :
  let cur := {| description := Some [("viewers", 20); ("bookers", 20); ("completed", 20)];
                fetchall_result := inr [[PNone; PInt 5; PNone]] |} in
  (get_city_funnel (fun _ => inr 0%Z) (Some "Austin") 90 (answering_world cur)
     initial_state).1
  = Ok {| funnel_city := "Austin"; funnel_days := 90;
          funnel := {| viewers := 0; bookers := 5; completed := 0 |} |}.
Proof.
  intros cur.
  pose (q := get_city_funnel_query (Some "Austin") 90).
  destruct (X19_get_city_funnel_result (fun _ => inr 0%Z) (Some "Austin") 90
              (answering_world cur) initial_state
              (execute_query q.1 q.2 (answering_world cur) initial_state).2)
    as (_ & _ & H).
  rewrite (H 0 [] [("viewers", PNone); ("bookers", PInt 5); ("completed", PNone)]
             PNone (PInt 5) PNone); vm_compute; reflexivity.
Defined.

Lemma dict_get_setitem d k v k' :
  dict_get (dict_setitem d k v) k' = if bool_decide (k = k') then Some v else dict_get d k'.
Proof.
  induction d as [|[k0 v0] d IH]; simpl.
  - done.
  - destruct (bool_decide (k0 = k)) eqn:E0.
    + apply bool_decide_eq_true in E0 as ->. simpl.
      by destruct (bool_decide (k = k')).
    + simpl. rewrite IH. apply bool_decide_eq_false in E0.
      destruct (bool_decide (k0 = k')) eqn:E1; [| done].
      apply bool_decide_eq_true in E1 as ->.
      by rewrite bool_decide_eq_false_2 by (intros ->; done).
Qed.

Lemma dict_get_fold l acc k :
  k ∉ map fst l →
  dict_get (fold_left (fun d kv => dict_setitem d kv.1 kv.2) l acc) k = dict_get acc k.
Proof.
  revert acc. induction l as [|[k0 v0] l IH]; intros acc Hk; simpl; [done |].
  simpl in Hk. apply not_elem_of_cons in Hk as [Hne Hk].
  rewrite IH by done. rewrite dict_get_setitem.
  by rewrite bool_decide_eq_false_2 by done.
Qed.

Lemma dict_get_absent l k : k ∉ map fst l → dict_get (dict_of_pairs l) k = None.
Proof. intros Hk. unfold dict_of_pairs. by rewrite dict_get_fold. Qed.

Lemma fst_zip_subset (ks : list string) (vs : list pyval) k :
  k ∈ map fst (zip ks vs) → k ∈ ks.
Proof.
  revert vs. induction ks as [|k0 ks IH]; intros [|v vs]; simpl;
    try (intros H; by apply elem_of_nil in H).
  intros H. apply elem_of_cons in H as [-> | H]; [left | right; eauto].
Qed.

Lemma fst_zip_same (ks : list string) (vs : list pyval) :
  length vs = length ks → map fst (zip ks vs) = ks.
Proof.
  revert vs. induction ks as [|k0 ks IH]; intros [|v vs]; simpl; try done.
  intros [= H]. by rewrite IH.
Qed.

(** Reading one key from every row of a fresh result is pure. *)
Lemma mapM_column (k : string) (g : pydict → pyval) w s1 (ds h : list pydict) :
  heap s1 = h ++ ds →
  (∀ d, d ∈ ds → dict_get d k = Some (g d)) →
  mapM (fun a => lift_sum (getitem (row_at s1 a) k)) (seq (length h) (length ds)) w s1
  = (Ok (map g ds), s1).
Proof.
  revert h. induction ds as [|d ds IH]; intros h Hheap Hall; [done |].
  assert (Hrow : row_at s1 (length h) = d).
  { unfold row_at. rewrite Hheap. by rewrite list_lookup_middle. }
  specialize (IH (h ++ [d])). rewrite length_app in IH. simpl in IH.
  rewrite Nat.add_1_r in IH.
  change (seq (length h) (length (d :: ds)))
    with (length h :: seq (S (length h)) (length ds)).
  cbn [mapM]. unfold bind at 1. rewrite Hrow. unfold getitem in IH |- *.
  rewrite (Hall d) by left. cbn [lift_sum]. unfold ret at 1. cbv beta iota.
  unfold bind at 1. rewrite IH.
  - done.
  - by rewrite <- app_assoc.
  - intros d' Hd'. apply Hall. by right.
Qed.

(** X20.  The result of [get_cities].  A failure of the query is the
    failure of the method.  When the query succeeds, the method returns, in
    the order of the fetched rows, the value each row has in the column
    named [city], and does nothing else; without rows it returns the empty
    list; and when there are rows but no column of that name it raises
    [KeyError]. *)
Theorem X20_get_cities_column (w : world) (s s1 : state) :
  (∀ e, execute_query get_cities_sql None w s = (Raise e, s1) →
     get_cities w s = (Raise e, s1))
  ∧ (∀ addrs, execute_query get_cities_sql None w s = (Ok (Some addrs), s1) →
     ∃ cur cols rows n,
       cursor_execute w n
         (String.concat (lakebase_schema (settings w)) (pieces get_cities_sql)) None
       = inr cur
       ∧ description cur = Some cols
       ∧ fetchall_result cur = inr rows
       ∧ (∀ i, NoDup (map fst cols) → map fst cols !! i = Some "city" →
            (∀ row, row ∈ rows → length row = length cols) →
            get_cities w s = (Ok (map (fun row => default PNone (row !! i)) rows), s1))
       ∧ (rows = [] → get_cities w s = (Ok [], s1))
       ∧ ("city" ∉ map fst cols → rows ≠ [] →
            get_cities w s = (Raise (OtherException "KeyError" "city"), s1))).
Proof.
  split.
  - intros e Hrun. unfold get_cities, bind. by rewrite Hrun.
  - intros addrs Hrun.
    destruct (execute_query_rows _ _ _ _ _ _ Hrun)
      as (cur & cols & rows & n & Hcur & Hdesc & Hfetch & -> & Hheap).
    assert (Hfmt : str_format get_cities_sql (lakebase_schema (settings w))
                   = inr (String.concat (lakebase_schema (settings w))
                            (pieces get_cities_sql)))
      by (vm_compute; reflexivity).
    rewrite Hfmt in Hcur.
    exists cur, cols, rows, n.
    split; [done |]. split; [done |]. split; [done |].
    assert (Hget : get_cities w s
                   = mapM (fun a => lift_sum (getitem (row_at s1 a) "city"))
                       (seq (length (heap s)) (length rows)) w s1).
    { unfold get_cities, bind at 1. rewrite Hrun. done. }
    rewrite Hget.
    rewrite <- (length_map (fun row => dict_of_pairs (zip (map fst cols) row)) rows).
    split; [| split].
    + intros i Hnd Hi Hlen.
      rewrite (mapM_column "city"
                 (fun d => default PNone (dict_get d "city")) w s1 _ _ Hheap).
      * rewrite map_map. do 2 f_equal. apply map_ext_in. intros row Hrow.
        apply list_elem_of_In in Hrow. specialize (Hlen row Hrow).
        rewrite dict_of_pairs_distinct
          by (rewrite fst_zip_same; [done | by rewrite length_map]).
        destruct (lookup_lt_is_Some_2 row i) as [v Hv].
        { rewrite Hlen, <- (length_map fst). by eapply lookup_lt_Some. }
        rewrite Hv. by rewrite (dict_get_zip _ _ i "city" v).
      * intros d Hd. apply list_elem_of_fmap in Hd as (row & -> & Hrow).
        specialize (Hlen row Hrow).
        rewrite dict_of_pairs_distinct
          by (rewrite fst_zip_same; [done | by rewrite length_map]).
        destruct (lookup_lt_is_Some_2 row i) as [v Hv].
        { rewrite Hlen, <- (length_map fst). by eapply lookup_lt_Some. }
        by rewrite (dict_get_zip _ _ i "city" v).
    + by intros ->.
    + intros Hno Hrows. destruct rows as [|row rows]; [done |].
      simpl. unfold bind at 1.
      assert (Hrow : row_at s1 (length (heap s))
                     = dict_of_pairs (zip (map fst cols) row)).
      { unfold row_at. rewrite Hheap. simpl. by rewrite list_lookup_middle. }
      rewrite Hrow. unfold getitem. rewrite dict_get_absent; [done |].
      intros Hin. apply Hno. by eapply fst_zip_subset.
Qed.

Lemma X20_get_cities_column_witness :
  let cur := {| description := Some [("city", 25)];
                fetchall_result := inr [[PStr "Austin"]; [PStr "Boston"]] |} in
  (get_cities (answering_world cur) initial_state).1
  = Ok [PStr "Austin"; PStr "Boston"].
Proof.
  intros cur.
  destruct (X20_get_cities_column (answering_world cur) initial_state
              (execute_query get_cities_sql None (answering_world cur) initial_state).2)
    as [_ H].
  destruct (H [0; 1]) as (cur' & cols & rows & n & Hcur & Hdesc & Hfetch & Hcol & _).
  - vm_compute. reflexivity.
  - assert (cur' = cur) as -> by (vm_compute in Hcur; by injection Hcur).
    injection Hdesc as <-. injection Hfetch as <-.
    rewrite (Hcol 0); [reflexivity | | reflexivity |].
    + simpl. apply NoDup_singleton.
    + intros row Hrow. simpl.
      apply elem_of_cons in Hrow as [-> | Hrow]; [done |].
      apply list_elem_of_singleton in Hrow as ->. done.
Defined.

Lemma mapM_lift_state {A B} (f : A → exn + B) (l : list A) w s :
  (mapM (fun a => lift_sum (f a)) l w s).2 = s.
Proof.
  induction l as [|a l IH]; [done |].
  simpl. unfold bind at 1. destruct (f a) as [e|b]; simpl; [done |].
  unfold bind at 1.
  destruct (mapM (fun a0 => lift_sum (f a0)) l w s) as [[bs|e] s']; simpl in *; done.
Qed.

Lemma get_cities_state w s :
  (get_cities w s).2 = (execute_query get_cities_sql None w s).2.
Proof.
  unfold get_cities, bind at 1.
  destruct (execute_query get_cities_sql None w s) as [[[addrs|]|e] s1]; simpl;
    try done.
  unfold bind, get_state. apply mapM_lift_state.
Qed.

(** X21.  The methods with a constant statement: [get_cities],
    [get_city_investment] and [get_top_amenities_by_city].  Each template
    is two brace-free pieces around one [{schema}] field, so formatting
    cannot fail, whatever the schema name, and writes that name once, as it
    is; the template has no [%s] marker; and the only statements the
    method sends are the liveness probe and the formatted template,
    without parameters. *)
Theorem X21_constant_statements (t : string) (run : world → state → state) :
  (t, run) ∈ constant_queries →
  (∃ ps, (∀ schema, str_format t schema = inr (String.concat schema ps))
       ∧ forallb brace_free ps = true
       ∧ (length ps = 2 ∧ String.concat "{schema}" ps = t))
  ∧ placeholders t = 0
  ∧ ∀ w s text ps,
      (text, ps) ∈ statements (events_since s (run w s)) →
      ps = None
      ∧ (text = "SELECT 1"
         ∨ text = String.concat (lakebase_schema (settings w)) (pieces t)).
Proof.
  intros Hin. unfold constant_queries in Hin.
  assert (Hsent : ∀ sql w s text ps,
            str_format sql (lakebase_schema (settings w))
            = inr (String.concat (lakebase_schema (settings w)) (pieces sql)) →
            (text, ps) ∈ statements (events_since s (execute_query sql None w s).2) →
            ps = None
            ∧ (text = "SELECT 1"
               ∨ text = String.concat (lakebase_schema (settings w)) (pieces sql))).
  { intros sql w s text ps Hfmt Hs.
    apply execute_query_sends in Hs as [[-> ->] | [Hf ->]]; [by split; [| left] |].
    rewrite Hfmt in Hf. injection Hf as <-. by split; [| right]. }
  apply elem_of_cons in Hin as [[= -> ->] | Hin];
    [| apply elem_of_cons in Hin as [[= -> ->] | Hin];
       [| apply list_elem_of_singleton in Hin as [= -> ->]]].
  - split; [format_by_pieces get_cities_sql |].
    split; [vm_compute; reflexivity |].
    intros w s text ps. rewrite get_cities_state. apply Hsent.
    vm_compute. reflexivity.
  - split; [format_by_pieces get_city_investment_sql |].
    split; [vm_compute; reflexivity |].
    intros w s text ps. apply Hsent. vm_compute. reflexivity.
  - split; [format_by_pieces get_top_amenities_by_city_sql |].
    split; [vm_compute; reflexivity |].
    intros w s text ps. apply Hsent. vm_compute. reflexivity.
Qed.

Lemma X21_constant_statements_witness :
  (∃ text, str_format get_city_investment_sql "gold" = inr text)
  ∧ placeholders get_city_investment_sql = 0.
Proof.
  destruct (X21_constant_statements get_city_investment_sql
              (fun w s => (get_city_investment w s).2))
    as ((ps & Hfmt & _) & Hph & _).
  - unfold constant_queries. apply list_elem_of_further, list_elem_of_here.
  - split; [eexists; apply Hfmt | exact Hph].
Defined.

(* ------------------------------------------------------------------ *)
(** ** The list of CORS origins *)

Lemma split_nonempty sep t : split sep t ≠ [].
Proof.
  destruct t as [|c t]; simpl; [done |].
  destruct (bool_decide (c = sep)); [done |]. by destruct (split sep t).
Qed.

Lemma split_length sep t :
  length (split sep t) = S (length (filter (λ c, c = sep) t)).
Proof.
  induction t as [|c t IH]; [done |].
  rewrite filter_cons. cbn [split]. case_bool_decide as Hc.
  - rewrite decide_True by done. simpl. by rewrite IH.
  - rewrite decide_False by done.
    pose proof (split_nonempty sep t) as Hne.
    destruct (split sep t) as [|x xs]; [done |]. done.
Qed.

Lemma split_free sep t : Forall (λ x, sep ∉ x) (split sep t).
Proof.
  induction t as [|c t IH]; simpl.
  - constructor; [apply not_elem_of_nil | constructor].
  - case_bool_decide as Hc.
    + constructor; [apply not_elem_of_nil | done].
    + destruct (split sep t) as [|x xs].
      * constructor; [| done].
        intros Hin. apply list_elem_of_singleton in Hin. by subst.
      * apply Forall_cons_1 in IH as [Hx Hxs]. constructor; [| done].
        intros Hin. apply elem_of_cons in Hin as [-> | Hin]; done.
Qed.

Lemma split_one sep x : sep ∉ x → split sep x = [x].
Proof.
  induction x as [|c x IH]; [done |]. intros Hx.
  apply not_elem_of_cons in Hx as [Hc Hx]. simpl.
  rewrite bool_decide_eq_false_2 by done. by rewrite IH.
Qed.

Lemma split_app sep x r : sep ∉ x → split sep (x ++ sep :: r) = x :: split sep r.
Proof.
  induction x as [|c x IH]; intros Hx; simpl.
  - by rewrite bool_decide_eq_true_2.
  - apply not_elem_of_cons in Hx as [Hc Hx].
    rewrite bool_decide_eq_false_2 by done. by rewrite IH.
Qed.

Lemma split_join sep l :
  l ≠ [] → Forall (λ x, sep ∉ x) l → split sep (join sep l) = l.
Proof.
  induction l as [|x l IH]; [done |]. intros _ Hall.
  apply Forall_cons_1 in Hall as [Hx Hl].
  destruct l as [|y l]; [by apply split_one |].
  change (join sep (x :: y :: l)) with (x ++ sep :: join sep (y :: l)).
  rewrite split_app by done. by rewrite IH.
Qed.

Section StripFacts.

Variable isspace : N → bool.

Lemma lstrip_head t c : head (lstrip isspace t) = Some c → isspace c = false.
Proof.
  induction t as [|c0 t IH]; simpl; [done |].
  destruct (isspace c0) eqn:E; [done |]. simpl. by intros [= <-].
Qed.

Lemma lstrip_id t :
  (∀ c, head t = Some c → isspace c = false) → lstrip isspace t = t.
Proof. destruct t as [|c t]; simpl; [done |]. intros H. by rewrite (H c). Qed.

Lemma lstrip_subset t c : c ∈ lstrip isspace t → c ∈ t.
Proof.
  induction t as [|c0 t IH]; simpl; [done |].
  destruct (isspace c0); [| done]. intros H. right. by apply IH.
Qed.

Lemma lstrip_snoc t c :
  isspace c = false → lstrip isspace (t ++ [c]) = lstrip isspace t ++ [c].
Proof.
  intros Hc. induction t as [|c0 t IH]; simpl; [by rewrite Hc |].
  by destruct (isspace c0).
Qed.

Lemma rstrip_cons t c :
  isspace c = false → rstrip isspace (c :: t) = c :: rstrip isspace t.
Proof.
  intros Hc. unfold rstrip. rewrite reverse_cons, lstrip_snoc by done.
  by rewrite reverse_app.
Qed.

Lemma rstrip_end t c :
  head (reverse (rstrip isspace t)) = Some c → isspace c = false.
Proof. unfold rstrip. rewrite reverse_involutive. apply lstrip_head. Qed.

Lemma rstrip_id t :
  (∀ c, head (reverse t) = Some c → isspace c = false) → rstrip isspace t = t.
Proof.
  intros H. unfold rstrip. rewrite lstrip_id by done. apply reverse_involutive.
Qed.

Lemma rstrip_subset t c : c ∈ rstrip isspace t → c ∈ t.
Proof.
  unfold rstrip. rewrite elem_of_reverse. intros H.
  apply lstrip_subset in H. by rewrite elem_of_reverse in H.
Qed.

Lemma strip_head t c : head (strip isspace t) = Some c → isspace c = false.
Proof.
  unfold strip. pose proof (lstrip_head t) as H.
  destruct (lstrip isspace t) as [|c0 t0]; [done |].
  rewrite rstrip_cons by (by apply H). simpl. intros [= <-]. by apply H.
Qed.

Lemma strip_end t c :
  head (reverse (strip isspace t)) = Some c → isspace c = false.
Proof. apply rstrip_end. Qed.

Lemma strip_subset t c : c ∈ strip isspace t → c ∈ t.
Proof. intros H. by apply lstrip_subset, rstrip_subset. Qed.

Lemma strip_strip t : strip isspace (strip isspace t) = strip isspace t.
Proof.
  unfold strip at 1. rewrite lstrip_id by apply strip_head.
  apply rstrip_id, strip_end.
Qed.

(** X22.  The list of CORS origins.  Whatever the setting holds, the
    list has one entry more than the setting has commas, so it is never
    empty (an empty setting gives one empty origin); no entry contains a
    comma, or begins or ends with a whitespace character; and the list
    is stable: writing it back as a comma-separated setting and reading
    that again gives the same list. *)
Theorem X22_cors_origins_list (cors_origins : list N) :
  let l := cors_origins_list isspace cors_origins in
  length l = S (length (filter (λ c, c = comma) cors_origins))
  ∧ Forall (λ o, (comma ∉ o)
                 ∧ (∀ c, head o = Some c → isspace c = false)
                 ∧ (∀ c, head (reverse o) = Some c → isspace c = false)) l
  ∧ cors_origins_list isspace (join comma l) = l.
Proof.
  intros l. subst l. unfold cors_origins_list.
  assert (Hfree : ∀ o, o ∈ map (strip isspace) (split comma cors_origins) →
                     comma ∉ o).
{ intros o Ho Hin. apply list_elem_of_fmap in Ho as (x & -> & Hx).
  apply strip_subset in Hin.
  pose proof (split_free comma cors_origins) as Hall.
  rewrite Forall_forall in Hall. apply (Hall x); [by apply list_elem_of_In | done]. }
split; [by rewrite length_map, split_length |]. split.
- apply Forall_forall. intros o Ho. apply list_elem_of_In in Ho.
  split; [by apply Hfree |].
  apply list_elem_of_fmap in Ho as (x & -> & _).
  split; [apply strip_head | apply strip_end].
- rewrite split_join.
  + rewrite map_map. apply map_ext. intros x. apply strip_strip.
  + pose proof (split_nonempty comma cors_origins) as Hne.
    by destruct (split comma cors_origins).
  + apply Forall_forall. intros o Ho. apply Hfree. by apply list_elem_of_In.
Qed.

End StripFacts.

(* ------------------------------------------------------------------ *)
(** ** No statement twice, no row rewritten *)

(** X23.  The statement is never sent twice.  Over a whole
    [execute_query], recovery cycle included, the driver receives at most
    the liveness probe and then, at most once, the formatted statement with
    its parameters: a statement that failed is not sent again, and a
    connection obtained by the retry is not probed. *)
Theorem X23_statement_sent_at_most_once (sql : string)
    (params : option (list pyval)) (w : world) (s : state) :
  ∃ probe this,
    statements (events_since s (execute_query sql params w s).2) = probe ++ this
    ∧ (probe = [] ∨ probe = [("SELECT 1", None)])
    ∧ (this = []
       ∨ ∃ text, str_format sql (lakebase_schema (settings w)) = inr text
                 ∧ this = [(text, params)]).
Proof.
  rewrite execute_query_statements.
  eexists _, _. split; [reflexivity |]. split.
  - rewrite cm_enter_state.
    destruct (get_connection_start_events w s) as (e1 & H1 & _ & _ & _ & _ & Q1).
    by rewrite (events_since_app _ _ _ H1).
  - destruct (cm_enter w s) as [[gc|e] s1]; [| by left].
    unfold block_statements.
    destruct (conn_cursor w (tick s1)); [by left |].
    destruct (str_format sql (lakebase_schema (settings w))) as [e|text];
      [by left | right; eauto].
Qed.

Lemma query_block_heap sql params c w s :
  ∃ new, heap (query_block sql params c w s).2 = heap s ++ new.
Proof.
  unfold query_block, column_names, py_format, bind. unfold_service. simpl.
  destruct (conn_cursor w (tick s)); simpl; [exists []; by rewrite app_nil_r |].
  destruct (str_format sql (lakebase_schema (settings w))); simpl;
    [exists []; by rewrite app_nil_r |].
  destruct (cursor_execute w (S (tick s)) s0 params) as [e|cur]; simpl;
    [exists []; by rewrite app_nil_r |].
  destruct (description cur); simpl; [| exists []; by rewrite app_nil_r].
  destruct (fetchall_result cur); simpl; [exists []; by rewrite app_nil_r |].
  rewrite mapM_new_dict. simpl. eauto.
Qed.

(** X24.  Rows of earlier results are never touched.  [execute_query]
    only ever appends dictionaries to the heap: every dictionary that
    existed before the call is afterwards where it was and as it was,
    whether the call returns or raises. *)
Theorem X24_earlier_rows_untouched (sql : string) (params : option (list pyval))
    (w : world) (s : state) :
  let s' := (execute_query sql params w s).2 in
  (∃ new, heap s' = heap s ++ new)
  ∧ ∀ a d, heap s !! a = Some d → heap s' !! a = Some d.
Proof.
  intros s'.
  assert (H : ∃ new, heap s' = heap s ++ new).
  { subst s'. rewrite execute_query_state. unfold with_get_connection, bind.
    pose proof (cm_enter_state w s) as Henter.
    destruct (cm_enter w s) as [[[g c]|e] s1]; simpl in *.
    2:{ exists []. by rewrite Henter, get_connection_start_heap, app_nil_r. }
    assert (Hheap1 : heap s1 = heap s)
      by (rewrite Henter; apply get_connection_start_heap).
    destruct (query_block_heap sql params c w s1) as (new & Hnew).
    rewrite Hheap1 in Hnew. exists new.
    destruct (query_block sql params c w s1) as [[a|eb] s2]; simpl in *.
    - pose proof (cm_exit_heap w s2 g None) as Hexit.
      destruct (cm_exit g None w s2) as [[b|e'] s3]; simpl in *; congruence.
    - pose proof (cm_exit_heap w s2 g (Some eb)) as Hexit.
      destruct (cm_exit g (Some eb) w s2) as [[[]|e'] s3]; simpl in *; congruence. }
  split; [exact H |].
  destruct H as (new & ->). intros a d Ha. by apply lookup_app_l_Some.
Qed.

(* ------------------------------------------------------------------ *)
(** ** What every step of the service preserves *)

Lemma get_fresh_token_pools w s : pools (_get_fresh_token w s).2 = pools s.
Proof. unfold_service. simpl. by run_all. Qed.

Section Preserved.

Variable R : state → state → Prop.
Hypothesis R_trans : ∀ s1 s2 s3, R s1 s2 → R s2 s3 → R s1 s3.
Hypothesis R_frame : ∀ s s', pools s' = pools s → R s s'.
Hypothesis R_build :
  ∀ mi ma cfg pw w s, R s (ThreadedConnectionPool mi ma cfg pw w s).2.
Hypothesis R_getconn : ∀ p w s, R s (getconn p w s).2.
Hypothesis R_putconn : ∀ p c w s, R s (putconn p c w s).2.
Hypothesis R_closeall : ∀ p w s, R s (closeall p w s).2.

Lemma preserved_get_connection_pool w s : R s (_get_connection_pool w s).2.
Proof using R_trans R_frame R_build.
  unfold _get_connection_pool, bind, enter, modify, get_state, ask, ret,
    sdk_get_database_instance, sdk_current_user_me, external.
  simpl.
  destruct (get_database_instance w (S (tick s))) as [e|h]; simpl;
    [by apply R_frame |].
  destruct (current_user_me w (S (S (tick s)))) as [e|u]; simpl;
    [by apply R_frame |].
  destruct (_connection_pool s) as [p0|]; simpl; [by apply R_frame |].
  match goal with |- context [_get_fresh_token w ?s0] =>
    pose proof (get_fresh_token_pools w s0) as Htok;
    destruct (_get_fresh_token w s0) as [[pw|e] s1]
  end; simpl in *; [| by apply R_frame].
  match goal with |- context [ThreadedConnectionPool ?mi ?ma ?cfg pw w s1] =>
    pose proof (R_build mi ma cfg pw w s1) as Hb;
    destruct (ThreadedConnectionPool mi ma cfg pw w s1) as [[p|e] s2]
  end; simpl in *.
  - eapply R_trans; [apply R_frame, Htok |]. eapply R_trans; [exact Hb |].
    by apply R_frame.
  - eapply R_trans; [apply R_frame, Htok | exact Hb].
Qed.

Lemma preserved_after s s0 s' : pools s0 = pools s → R s0 s' → R s s'.
Proof using R_trans R_frame.
  intros H0 H. eapply R_trans; [apply R_frame, H0 | exact H].
Qed.

Lemma preserved_before s s0 s' : R s s0 → pools s' = pools s0 → R s s'.
Proof using R_trans R_frame.
  intros H H0. eapply R_trans; [exact H | by apply R_frame].
Qed.

Lemma preserved_reset_pool w s : R s (_reset_pool w s).2.
Proof using R_trans R_frame R_closeall.
  unfold _reset_pool, bind, enter, modify, get_state, ret, try_except. simpl.
  destruct (_connection_pool s) as [p|]; simpl; [| by apply R_frame].
  match goal with |- context [closeall p w ?s0] =>
    pose proof (R_closeall p w s0) as Hc;
    destruct (closeall p w s0) as [[[]|e] s1]
  end; simpl in *.
  - apply (preserved_after s (log Ev_enter_reset_pool s)); [done |].
    by apply (preserved_before _ s1).
  - destruct (is_Exception e); simpl.
    + apply (preserved_after s (log Ev_enter_reset_pool s)); [done |].
      by apply (preserved_before _ s1).
    + by apply (preserved_after s (log Ev_enter_reset_pool s)).
Qed.

Lemma preserved_probe w s c : R s (probe c w s).2.
Proof using R_frame. apply R_frame. unfold_service. simpl. by run_all. Qed.

Lemma preserved_first_attempt w s : R s (first_attempt w s).2.
Proof using R_trans R_frame R_build R_getconn R_putconn.
  unfold first_attempt, bind.
  pose proof (preserved_get_connection_pool w s) as Hacq.
  destruct (_get_connection_pool w s) as [[p|e] s1]; simpl in *; [| done].
  pose proof (R_getconn p w s1) as Hget.
  destruct (getconn p w s1) as [[c|e] s2]; simpl in *; [| by eapply R_trans].
  assert (H2 : R s s2) by (by eapply R_trans).
  unfold gen_try_finally, bind.
  pose proof (preserved_probe w s2 c) as Hprobe.
  destruct (probe c w s2) as [[[]|e] s3]; simpl in *.
  - eapply R_trans; [exact H2 |]. eapply R_trans; [exact Hprobe |].
    by apply R_frame.
  - pose proof (R_putconn p c w s3) as Hput.
    assert (H3 : R s s3) by (by eapply R_trans).
    destruct (putconn p c w s3) as [[[]|?] ?]; by eapply R_trans.
Qed.

Lemma preserved_second_attempt w s : R s (second_attempt w s).2.
Proof using R_trans R_frame R_build R_getconn.
  unfold second_attempt, bind.
  pose proof (preserved_get_connection_pool w s) as Hacq.
  destruct (_get_connection_pool w s) as [[p|e] s1]; simpl in *; [| done].
  pose proof (R_getconn p w s1) as Hget.
  destruct (getconn p w s1) as [[c|e] s2]; simpl in *; [| by eapply R_trans].
  unfold gen_try_finally, bind, enter, modify, ret. simpl.
  eapply R_trans; [exact Hacq |]. eapply R_trans; [exact Hget |]. by apply R_frame.
Qed.

Lemma preserved_retry_block w s : R s (retry_block w s).2.
Proof using R_trans R_frame R_build R_getconn R_closeall.
  rewrite retry_block_eq.
  pose proof (preserved_reset_pool w s) as Hreset.
  pose proof (preserved_second_attempt w (_reset_pool w s).2) as H.
  destruct (second_attempt w (_reset_pool w s).2) as [[g|e] s'];
    [by eapply R_trans |].
  destruct (is_OperationalError e); by eapply R_trans.
Qed.

Lemma preserved_start w s : R s (get_connection_start w s).2.
Proof using R_trans R_frame R_build R_getconn R_putconn R_closeall.
  rewrite get_connection_start_eq.
  pose proof (preserved_first_attempt w s) as H.
  destruct (first_attempt w s) as [[g|e] s1]; [done |].
  destruct (is_OperationalError e); [| done].
  eapply R_trans; [exact H | apply preserved_retry_block].
Qed.

Lemma preserved_resume w s g r : R s (get_connection_resume g r w s).2.
Proof using R_trans R_frame R_build R_getconn R_putconn R_closeall.
  assert (Hfin : ∀ p c, R s (gen_try_finally (resumed r) (putconn p c) w s).2).
  { intros p c. pose proof (R_putconn p c w s) as H.
    unfold gen_try_finally, resumed, ret, raise.
    destruct r; simpl; by destruct (putconn p c w s) as [[[]|e0] s1]. }
  destruct g as [p c|p c|]; unfold get_connection_resume.
  - unfold except_OperationalError, try_except. specialize (Hfin p c).
    destruct (gen_try_finally (resumed r) (putconn p c) w s) as [[g|e] s1]; [done |].
    destruct (is_OperationalError e); [| done].
    eapply R_trans; [exact Hfin | apply preserved_retry_block].
  - unfold except_OperationalError, try_except. specialize (Hfin p c).
    destruct (gen_try_finally (resumed r) (putconn p c) w s) as [[g|e] s1]; [done |].
    by destruct (is_OperationalError e).
  - destruct r; by apply R_frame.
Qed.

Lemma preserved_execute_query sql params w s : R s (execute_query sql params w s).2.
Proof using R_trans R_frame R_build R_getconn R_putconn R_closeall.
  rewrite execute_query_state. unfold with_get_connection, bind.
  pose proof (preserved_start w s) as Hstart.
  rewrite <- cm_enter_state in Hstart.
  destruct (cm_enter w s) as [[[g c]|e] s1]; simpl in *; [| done].
  pose proof (query_block_pools sql params c w s1) as Hb.
  destruct (query_block sql params c w s1) as [[a|eb] s2]; simpl in *.
  - pose proof (preserved_resume w s2 g Next) as Hexit.
    rewrite <- (cm_exit_state w s2 g None) in Hexit.
    eapply R_trans; [exact Hstart |]. eapply R_trans; [by apply R_frame |].
    by destruct (cm_exit g None w s2) as [[b|e'] s3].
  - pose proof (preserved_resume w s2 g (Throw eb)) as Hexit.
    rewrite <- (cm_exit_state w s2 g (Some eb)) in Hexit.
    eapply R_trans; [exact Hstart |]. eapply R_trans; [by apply R_frame |].
    by destruct (cm_exit g (Some eb) w s2) as [[[]|e'] s3].
Qed.

End Preserved.

Lemma pools_evolve_refl s : pools_evolve s s.
Proof. intros p o Ho. exists o. by repeat split. Qed.

Lemma pools_evolve_trans s1 s2 s3 :
  pools_evolve s1 s2 → pools_evolve s2 s3 → pools_evolve s1 s3.
Proof.
  intros H12 H23 p o Ho.
  destruct (H12 p o Ho) as (o2 & Ho2 & A1 & A2 & A3 & A4 & A5).
  destruct (H23 p o2 Ho2) as (o3 & Ho3 & B1 & B2 & B3 & B4 & B5).
  exists o3. split; [done |].
  split; [congruence |]. split; [congruence |]. split; [congruence |].
  split; [congruence |].
  intros Hc. specialize (A5 Hc). subst o2. by apply B5.
Qed.

Lemma pools_evolve_frame s s' : pools s' = pools s → pools_evolve s s'.
Proof. intros H p o Ho. exists o. rewrite H. by repeat split. Qed.

Lemma pools_evolve_update s s' p o1 o1' :
  pools s !! p = Some o1 → closed o1 = false →
  minconn o1' = minconn o1 → maxconn o1' = maxconn o1 →
  kwargs o1' = kwargs o1 → password o1' = password o1 →
  pools s' = <[p := o1']> (pools s) →
  pools_evolve s s'.
Proof.
  intros Hp Hcl A1 A2 A3 A4 Hs' q o Ho. rewrite Hs'.
  destruct (decide (q = p)) as [-> | Hne].
  - rewrite lookup_insert_eq. exists o1'. rewrite Hp in Ho. injection Ho as <-.
    split; [done |]. split; [done |]. split; [done |]. split; [done |].
    split; [done |]. congruence.
  - rewrite lookup_insert_ne by done. exists o. by repeat split.
Qed.

Lemma pools_evolve_build mi ma cfg pw w s :
  pools_evolve s (ThreadedConnectionPool mi ma cfg pw w s).2.
Proof.
  unfold ThreadedConnectionPool.
  destruct (pool_init w (tick s)); simpl; [by apply pools_evolve_frame |].
  intros q o Ho. simpl. exists o. rewrite lookup_insert_ne; [by repeat split |].
  intros <-. apply (is_fresh (dom (pools s))). apply elem_of_dom. eauto.
Qed.

Lemma pools_evolve_getconn p w s : pools_evolve s (getconn p w s).2.
Proof.
  unfold getconn.
  destruct (pools s !! p) as [o|] eqn:Ho; simpl; [| by apply pools_evolve_frame].
  destruct (closed o) eqn:Hcl; simpl; [by apply pools_evolve_frame |].
  case_bool_decide; simpl; [by apply pools_evolve_frame |].
  destruct (pool_connect w (tick s)); simpl; [by apply pools_evolve_frame |].
  eapply (pools_evolve_update _ _ p o (set_used _ o)); [exact Ho | exact Hcl | done ..].
Qed.

Lemma pools_evolve_putconn p c w s : pools_evolve s (putconn p c w s).2.
Proof.
  unfold putconn.
  destruct (pools s !! p) as [o|] eqn:Ho; simpl; [| by apply pools_evolve_frame].
  destruct (closed o) eqn:Hcl; simpl; [by apply pools_evolve_frame |].
  case_bool_decide; simpl; [| by apply pools_evolve_frame].
  eapply (pools_evolve_update _ _ p o (set_used _ o)); [exact Ho | exact Hcl | done ..].
Qed.

Lemma pools_evolve_closeall p w s : pools_evolve s (closeall p w s).2.
Proof.
  unfold closeall.
  destruct (pools s !! p) as [o|] eqn:Ho; simpl; [| by apply pools_evolve_frame].
  destruct (closed o) eqn:Hcl; simpl; [by apply pools_evolve_frame |].
  eapply (pools_evolve_update _ _ p o (set_closed o)); [exact Ho | exact Hcl | done ..].
Qed.

(** X25.  Pool objects over time.  Across [_get_connection_pool],
    [_reset_pool] and a whole [execute_query], whatever the collaborators
    answer: no pool object is forgotten; none changes its size, its
    endpoint or its password, so a pool keeps the token it was built with
    for as long as it exists and a newer token only ever reaches a new
    pool; and a pool that has been closed is never reopened or touched
    again. *)
Theorem X25_pool_objects_over_time (sql : string) (params : option (list pyval))
    (w : world) (s : state) :
  pools_evolve s (_get_connection_pool w s).2
  ∧ pools_evolve s (_reset_pool w s).2
  ∧ pools_evolve s (execute_query sql params w s).2
  ∧ ∀ p, p ∈ dom (pools s) → pool_is_closed s p = true →
      pools (execute_query sql params w s).2 !! p = pools s !! p.
Proof.
  assert (Hq : pools_evolve s (execute_query sql params w s).2).
  { apply (preserved_execute_query pools_evolve pools_evolve_trans
             pools_evolve_frame pools_evolve_build pools_evolve_getconn
             pools_evolve_putconn pools_evolve_closeall). }
  split; [| split; [| split]].
  - apply (preserved_get_connection_pool pools_evolve pools_evolve_trans
             pools_evolve_frame pools_evolve_build).
  - apply (preserved_reset_pool pools_evolve pools_evolve_trans
             pools_evolve_frame pools_evolve_closeall).
  - exact Hq.
  - intros p Hp Hcl. apply elem_of_dom in Hp as [o Ho].
    unfold pool_is_closed in Hcl. rewrite Ho in Hcl.
    destruct (Hq p o Ho) as (o' & Ho' & _ & _ & _ & _ & Hfrozen).
    rewrite Ho', Ho. f_equal. by apply Hfrozen.
Qed.
